(** * Exo (SYS_ATL): lowering, naming and collective algebra

    A shallow embedding of the parts of
    [src/exo/backend/LoopIR_compiler.py], [SYS_ATL/LoopIR_pprint.py] and
    [src/exo/spork/coll_algebra.py] that the specification's statements
    about code generation talk about, together with the theorems that
    settle those statements.

    Conventions.  Python exceptions are values of [exn] carried by
    [result]; Python [int] is [Z]; Python [float] is the kernel's
    binary64 [float]; a [dict] or [set] keyed by strings is a [gmap] or
    [gset]; a [ChainMap] is the list of its maps, innermost first. *)

From Stdlib Require Import Ascii String ZArith Floats.
From stdpp Require Import gmap strings list pretty.

Open Scope Z_scope.

#[local] Set Warnings "-clear-no-such-hyp".

(** ** Exceptions and the error monad

    [Diverged] is not an exception of Python: it marks a loop of the
    embedding that used up the fuel it was given. *)

Inductive exn : Type :=
| AssertionError (msg : string)
| ZeroDivisionError
| OverflowError
| KeyError (key : string)
| ValueError (msg : string)
| TypeError (msg : string)
| NameError (name : string)
| MemGenError (msg : string)
| ConfigError (msg : string)
| AttributeError (msg : string)
| IndexError (msg : string)
| NotImplementedError (msg : string)
| Diverged.

Inductive result (A : Type) : Type :=
| Ok (a : A)
| Raise (e : exn).
Arguments Ok {A} a.
Arguments Raise {A} e.

Global Instance result_ret : MRet result := fun A a => Ok a.
Global Instance result_bind : MBind result := fun A B f m =>
  match m with
  | Ok a => f a
  | Raise e => Raise e
  end.

Global Instance result_fmap : FMap result := fun A B f m =>
  match m with
  | Ok a => Ok (f a)
  | Raise e => Raise e
  end.

Definition is_ok {A} (m : result A) : bool :=
  match m with Ok _ => true | Raise _ => false end.

(** A block of an [if]/[elif] chain either leaves the function (with a
    value or an exception) or falls through to the next statement. *)
Definition falls {A} (blk : option (result A)) (rest : result A) : result A :=
  match blk with
  | Some r => r
  | None => rest
  end.

(** ** Python numbers

    [operations] in the compiler applies Python's [+ - * / %] to the
    payloads of two [CIR.Const] nodes.  On two [int]s the operator [/]
    is true division and yields a [float], so the payload type has to
    hold both. *)

Inductive pynum : Type :=
| PyBool (b : bool)
| PyInt (z : Z)
| PyFloat (f : float).

(** A [bool] is an [int] in arithmetic and comparisons. *)
Definition as_int (v : pynum) : option Z :=
  match v with
  | PyBool b => Some (Z.b2z b)
  | PyInt z => Some z
  | PyFloat _ => None
  end.

(** [float(z)], rounding to nearest even; too large an [int] raises. *)
Definition float_of_int (z : Z) : result float :=
  let f := SF2Prim (binary_normalize prec emax z 0 false) in
  if is_infinity f then Raise OverflowError else Ok f.

(** [x / y] on two [int]s: the correctly rounded quotient.  The scaled
    quotient keeps at least 56 significant bits and a sticky bit, so
    one rounding of it is the rounding of the exact quotient. *)
Definition int_true_div (x y : Z) : result float :=
  if y =? 0 then Raise ZeroDivisionError else
  let negate := xorb (x <? 0) (y <? 0) in
  let a := Z.abs x in
  let b := Z.abs y in
  let k := Z.max 0 (Z.log2 b - Z.log2 a + 56) in
  let q := (a * 2 ^ k) / b in
  let sticky := if (a * 2 ^ k) mod b =? 0 then 0 else 1 in
  let m := 2 * q + sticky in
  let f := SF2Prim (binary_normalize prec emax
                      (if negate then - m else m) (- k - 1) negate) in
  if is_infinity f then Raise OverflowError else Ok f.

(** C's [fmod] on finite operands, computed exactly on the mantissas. *)
Definition fmod_finite (sx : bool) (mx : positive) (ex : Z)
    (my : positive) (ey : Z) : float :=
  let e := Z.min ex ey in
  let X := Zpos mx * 2 ^ (ex - e) in
  let Y := Zpos my * 2 ^ (ey - e) in
  let R := Z.rem X Y in
  SF2Prim (binary_normalize prec emax (if sx then - R else R) e sx).

Definition fmod (x y : float) : float :=
  match Prim2SF x, Prim2SF y with
  | S754_nan, _ | _, S754_nan => nan
  | S754_infinity _, _ => nan
  | _, S754_zero _ => nan
  | _, S754_infinity _ => x
  | S754_zero _, _ => x
  | S754_finite sx mx ex, S754_finite _ my ey => fmod_finite sx mx ex my ey
  end.

(** [float.__mod__]: the remainder takes the sign of the divisor. *)
Definition float_rem (x y : float) : result float :=
  if (y =? 0)%float then Raise ZeroDivisionError else
  let m := fmod x y in
  if (m =? 0)%float
  then Ok (if get_sign y then neg_zero else zero)
  else if negb (Bool.eqb (y <? 0)%float (m <? 0)%float)
       then Ok (m + y)%float
       else Ok m.

Definition float_div (x y : float) : result float :=
  if (y =? 0)%float then Raise ZeroDivisionError else Ok (x / y)%float.

Definition to_float (v : pynum) : result float :=
  match v with
  | PyBool b => float_of_int (Z.b2z b)
  | PyInt z => float_of_int z
  | PyFloat f => Ok f
  end.

(** [int(f)]: truncation towards zero. *)
Definition int_of_float (f : float) : result Z :=
  match Prim2SF f with
  | S754_zero _ => Ok 0
  | S754_finite s m e =>
      let a := if 0 <=? e then Zpos m * 2 ^ e else Zpos m / 2 ^ (- e) in
      Ok (if s then - a else a)
  | S754_infinity _ => Raise OverflowError
  | S754_nan => Raise (ValueError "cannot convert float NaN to integer")
  end.

Definition to_int (v : pynum) : result Z :=
  match v with
  | PyBool b => Ok (Z.b2z b)
  | PyInt z => Ok z
  | PyFloat f => int_of_float f
  end.

(** Binary arithmetic with Python's coercion: two ints stay exact,
    anything else is computed on floats. *)
Definition py_arith (fint : Z -> Z -> result pynum)
    (ffloat : float -> float -> result float) (x y : pynum) : result pynum :=
  match as_int x, as_int y with
  | Some a, Some b => fint a b
  | _, _ =>
      fx ← to_float x;
      fy ← to_float y;
      f ← ffloat fx fy;
      Ok (PyFloat f)
  end.

Definition py_add := py_arith (fun a b => Ok (PyInt (a + b))) (fun a b => Ok (a + b)%float).
Definition py_sub := py_arith (fun a b => Ok (PyInt (a - b))) (fun a b => Ok (a - b)%float).
Definition py_mul := py_arith (fun a b => Ok (PyInt (a * b))) (fun a b => Ok (a * b)%float).
Definition py_truediv :=
  py_arith (fun a b => f ← int_true_div a b; Ok (PyFloat f)) float_div.
Definition py_mod :=
  py_arith (fun a b => if b =? 0 then Raise ZeroDivisionError else Ok (PyInt (a mod b)))
           float_rem.

Definition py_neg (v : pynum) : pynum :=
  match v with
  | PyBool b => PyInt (- Z.b2z b)
  | PyInt z => PyInt (- z)
  | PyFloat f => PyFloat (- f)%float
  end.

(** [v == 0], [v == 1] and [v > 0] against an [int] literal. *)
Definition py_eq0 (v : pynum) : bool :=
  match v with
  | PyBool b => Z.b2z b =? 0
  | PyInt z => z =? 0
  | PyFloat f => (f =? 0)%float
  end.

Definition py_eq1 (v : pynum) : bool :=
  match v with
  | PyBool b => Z.b2z b =? 1
  | PyInt z => z =? 1
  | PyFloat f => (f =? 1)%float
  end.

Definition py_gt0 (v : pynum) : bool :=
  match v with
  | PyBool b => 0 <? Z.b2z b
  | PyInt z => 0 <? z
  | PyFloat f => (0 <? f)%float
  end.

(** ** Symbols

    A [Sym] has a printable name and a unique id; equality and hashing
    use the id alone, so dictionaries keyed by symbols are keyed by ids. *)

Record Sym : Type := mkSym { sym_name : string; sym_id : positive }.

Definition sym_eqb (a b : Sym) : bool := Pos.eqb (sym_id a) (sym_id b).

(** ** Binary operators of the IR *)

Inductive binop : Type :=
| Add | Sub | Mul | Div | Mod
| And | Or | Lt | Gt | Le | Ge | Eq.

Global Instance binop_eq_dec : EqDecision binop.
Proof. solve_decision. Defined.

Definition op_str (op : binop) : string :=
  match op with
  | Add => "+" | Sub => "-" | Mul => "*" | Div => "/" | Mod => "%"
  | And => "and" | Or => "or"
  | Lt => "<" | Gt => ">" | Le => "<=" | Ge => ">=" | Eq => "=="
  end.

Definition op_prec (op : binop) : Z :=
  match op with
  | Or => 10
  | And => 20
  | Eq => 30
  | Lt | Gt | Le | Ge => 40
  | Add | Sub => 50
  | Mul | Div | Mod => 60
  end.

(** Precedence of unary minus (the entry of [op_prec] for the tilde). *)
Definition op_prec_usub : Z := 70.

(** [operations]: a dictionary with the five arithmetic operators. *)
Definition operations (op : binop) : result (pynum -> pynum -> result pynum) :=
  match op with
  | Add => Ok py_add
  | Sub => Ok py_sub
  | Mul => Ok py_mul
  | Div => Ok py_truediv
  | Mod => Ok py_mod
  | _ => Raise (KeyError (op_str op))
  end.

(** ** The C-level index IR *)

Module CIR.

Inductive expr : Type :=
| Read (name : Sym) (is_non_neg : bool)
| Stride (name : Sym) (dim : nat)
| Const (val : pynum)
| BinOp (op : binop) (lhs rhs : expr) (is_non_neg : bool)
| USub (arg : expr) (is_non_neg : bool).

End CIR.

(** *** simplify_cir *)

Section simplify.
Import CIR.

Definition const_val (e : CIR.expr) : option pynum :=
  match e with
  | Const v => Some v
  | _ => None
  end.

(** [isinstance(e, CIR.Const) and e.val == 0] and the same for 1. *)
Definition is_const0 (e : CIR.expr) : bool :=
  match e with
  | Const v => py_eq0 v
  | _ => false
  end.

Definition is_const1 (e : CIR.expr) : bool :=
  match e with
  | Const v => py_eq1 v
  | _ => false
  end.

(** The arm of [simplify_cir] for a [BinOp] whose operands are
    already simplified: five [if] blocks, then the rebuilt node. *)
Definition simplify_binop (op : binop) (lhs rhs : CIR.expr) (nn : bool)
    : result CIR.expr :=
  falls (match const_val lhs, const_val rhs with
         | Some a, Some b =>
             Some (f ← operations op; v ← f a b; Ok (Const v))
         | _, _ => None
         end) (
  falls (if is_const0 lhs then
           match op with
           | Add => Some (Ok rhs)
           | Mul | Div => Some (Ok (Const (PyInt 0)))
           | Sub => None
           | _ => Some (Raise (AssertionError EmptyString))
           end
         else None) (
  falls (if is_const0 rhs then
           match op with
           | Add | Sub => Some (Ok lhs)
           | Mul => Some (Ok (Const (PyInt 0)))
           | Div => Some (Raise (AssertionError "division by zero??"))
           | _ => Some (Raise (AssertionError "bad case"))
           end
         else None) (
  falls (if is_const1 lhs && bool_decide (op = Mul)
         then Some (Ok rhs) else None) (
  falls (if is_const1 rhs && (bool_decide (op = Mul) || bool_decide (op = Div))
         then Some (Ok lhs) else None) (
  Ok (BinOp op lhs rhs nn)))))).

Definition simplify_usub (arg : CIR.expr) (nn : bool) : result CIR.expr :=
  match arg with
  | USub a _ => Ok a
  | Const v => Ok (Const (py_neg v))
  | _ => Ok (USub arg nn)
  end.

Fixpoint simplify_cir (e : CIR.expr) : result CIR.expr :=
  match e with
  | Read _ _ | Const _ | Stride _ _ => Ok e
  | BinOp op l r nn =>
      lhs ← simplify_cir l;
      rhs ← simplify_cir r;
      simplify_binop op lhs rhs nn
  | USub a nn =>
      arg ← simplify_cir a;
      simplify_usub arg nn
  end.

End simplify.

(** *** The integer meaning of an index expression

    Index expressions denote integers; [/] and [%] are floored, as in
    the source language and in the helper the compiler emits for [/].
    An expression that divides by zero, holds a constant that is not an
    [int] proper, or uses a comparison has no integer meaning. *)

Record valuation : Type := mkValuation {
  var_val : Sym -> Z;
  stride_val : Sym -> nat -> Z
}.

Definition int_op (op : binop) (a b : Z) : option Z :=
  match op with
  | Add => Some (a + b)
  | Sub => Some (a - b)
  | Mul => Some (a * b)
  | Div => if b =? 0 then None else Some (a / b)
  | Mod => if b =? 0 then None else Some (a mod b)
  | _ => None
  end.

Fixpoint denote (rho : valuation) (e : CIR.expr) : option Z :=
  match e with
  | CIR.Read x _ => Some (var_val rho x)
  | CIR.Stride x d => Some (stride_val rho x d)
  | CIR.Const (PyInt z) => Some z
  | CIR.Const (PyBool _) | CIR.Const (PyFloat _) => None
  | CIR.BinOp op l r _ =>
      match denote rho l, denote rho r with
      | Some a, Some b => int_op op a b
      | _, _ => None
      end
  | CIR.USub a _ =>
      match denote rho a with
      | Some v => Some (- v)
      | None => None
      end
  end.

(** No [/] node of [e] has two operands that simplify to constants,
    that is, simplification never folds a division. *)
Fixpoint no_folded_division (e : CIR.expr) : bool :=
  match e with
  | CIR.BinOp op l r _ =>
      no_folded_division l && no_folded_division r &&
      negb (bool_decide (op = Div) &&
            match simplify_cir l, simplify_cir r with
            | Ok (CIR.Const _), Ok (CIR.Const _) => true
            | _, _ => false
            end)
  | CIR.USub a _ => no_folded_division a
  | _ => true
  end.

(** Shape of an operand on which [simplify_usub] rebuilds the node. *)
Definition plain (e : CIR.expr) : bool :=
  match e with
  | CIR.USub _ _ | CIR.Const _ => false
  | _ => true
  end.

(** Number of nodes of an index expression. *)
Fixpoint cir_size (e : CIR.expr) : nat :=
  match e with
  | CIR.BinOp _ l r _ => S (cir_size l + cir_size r)
  | CIR.USub a _ => S (cir_size a)
  | _ => 1%nat
  end.

(** A result of [simplify_cir] is a fixed point, and a [USub] node at
    its root sits on an operand that [simplify_usub] leaves alone. *)
Definition settled (e : CIR.expr) : Prop :=
  simplify_cir e = Ok e /\
  match e with
  | CIR.USub a _ => plain a = true
  | _ => True
  end.

(** ** The loop IR

    Modelled from the spec: the classes of [LoopIR] (expressions,
    types, statements, procedures; section 3) are declared in
    [core/LoopIR.py]; the inductive types below carry the fields that
    the embedded functions read. *)

#[local] Set Warnings "-register-all".

Module LoopIR.

(** The types without structure: the scalars and index classes of
    section 3, the unresolved precision [T.R], and the two marker
    types the compiler tests for ([T.with_context], [T.Barrier]). *)
Inductive prim : Type :=
| R | F16 | F32 | F64 | I8 | UI8 | UI16 | I32
| Bool | Index | Size | Stride
| WithContext | Barrier.

(** Expressions, window coordinates and types (tensors have a shape
    of index expressions; a window is a view of a source buffer). *)
Inductive expr : Type :=
| Read (name : Sym) (idx : list expr) (type : typ) (srcinfo : string)
| Const (val : pynum) (type : typ)
| USub (arg : expr) (type : typ)
| BinOp (op : binop) (lhs rhs : expr) (type : typ)
| Extern (f : string) (args : list expr) (type : typ)
| WindowExpr (name : Sym) (idx : list w_access) (type : typ) (srcinfo : string)
| StrideExpr (name : Sym) (dim : nat) (type : typ)
| ReadConfig (config : string) (field : string) (type : typ) (srcinfo : string)
with w_access : Type :=
| Interval (lo hi : expr)
| Point (pt : expr)
with typ : Type :=
| Prim (p : prim)
| Tensor (hi : list expr) (is_window : bool) (type : prim)
| Window (src_type as_tensor : typ) (src_buf : Sym) (idx : list w_access).

Global Instance prim_eq_dec : EqDecision prim.
Proof. solve_decision. Defined.

Definition expr_type (e : expr) : typ :=
  match e with
  | Read _ _ t _ | Const _ t | USub _ t | BinOp _ _ _ t | Extern _ _ t
  | WindowExpr _ _ t _ | StrideExpr _ _ t | ReadConfig _ _ t _ => t
  end.

(** A memory class: its name, whether it allows plain reads, whether
    it derives from [StaticMemory], and whether it is the class
    [CudaRmem] that [comp_e] singles out by identity.  The code
    generation methods of the class are capabilities of the host and
    are passed to the compiler separately. *)
Record Memory : Type := mkMemory {
  mem_name : string;
  can_read : bool;
  is_static : bool;
  is_CudaRmem : bool
}.

Inductive loop_mode : Type :=
| Seq
| Par
| OtherMode (loop_mode_name : string).

(** A [Call] holds a reference to the callee; procedures are objects
    of the heap, named by their identity. *)
Definition proc_ref := positive.

Inductive stmt : Type :=
| Pass
| SyncStmt (codegen : option string) (srcinfo : string)
| Assign (name : Sym) (type : typ) (idx : list expr) (rhs : expr)
| Reduce (name : Sym) (type : typ) (idx : list expr) (rhs : expr)
| WriteConfig (config : string) (field : string) (rhs : expr) (srcinfo : string)
| WindowStmt (name : Sym) (rhs : expr)
| If (cond : expr) (body orelse : list stmt)
| For (iter : Sym) (lo hi : expr) (mode : loop_mode) (body : list stmt)
| Alloc (name : Sym) (type : typ) (mem : option Memory) (srcinfo : string)
| Free (name : Sym) (type : typ) (mem : option Memory) (srcinfo : string)
| Call (f : proc_ref) (args : list expr).

Record fnarg : Type := mkFnarg {
  arg_name : Sym;
  arg_type : typ;
  arg_mem : option Memory
}.

(** The instruction record of a procedure that stands for a macro. *)
Record instr_info : Type := mkInstr {
  c_instr : string;
  c_global : string
}.

Record proc : Type := mkProc {
  name : string;
  args : list fnarg;
  preds : list expr;
  body : list stmt;
  instr : option instr_info
}.

End LoopIR.

(** The heap of procedure objects. *)
Abbreviation heap := (gmap LoopIR.proc_ref LoopIR.proc).

(** *** Methods of the types

    Modelled from the spec: section 3 lists the scalar types and the
    index classes ("size, index, stride, bool; collectively
    indexable"), tensors with a shape and windows over a source
    buffer. *)

Section type_methods.
Import LoopIR.

Definition prim_is_real_scalar (p : prim) : bool :=
  match p with
  | R | F16 | F32 | F64 | I8 | UI8 | UI16 | I32 => true
  | _ => false
  end.

Definition is_real_scalar (t : typ) : bool :=
  match t with
  | Prim p => prim_is_real_scalar p
  | _ => false
  end.

Definition is_tensor_or_window (t : typ) : bool :=
  match t with
  | Tensor _ _ _ | Window _ _ _ _ => true
  | _ => false
  end.

Definition is_win (t : typ) : bool :=
  match t with
  | Tensor _ w _ => w
  | Window _ _ _ _ => true
  | _ => false
  end.

Definition is_numeric (t : typ) : bool :=
  is_real_scalar t || is_tensor_or_window t.

Definition is_indexable (t : typ) : bool :=
  match t with
  | Prim (Bool | Index | Size | Stride) => true
  | _ => false
  end.

Definition is_prim (p : prim) (t : typ) : bool :=
  match t with
  | Prim q => bool_decide (p = q)
  | _ => false
  end.

Fixpoint shape (t : typ) : list expr :=
  match t with
  | Tensor hi _ _ => hi
  | Window _ as_tensor _ _ => shape as_tensor
  | Prim _ => []
  end.

Fixpoint basetype (t : typ) : prim :=
  match t with
  | Prim p => p
  | Tensor _ _ p => p
  | Window _ as_tensor _ _ => basetype as_tensor
  end.

End type_methods.

(** *** Statements of a body

    [occurs s stmts]: the statement [s] is in [stmts] or in a block
    nested in a statement of [stmts]. *)

Inductive occurs (s : LoopIR.stmt) : list LoopIR.stmt -> Prop :=
| occurs_here stmts :
    s ∈ stmts -> occurs s stmts
| occurs_for x lo hi m body stmts :
    LoopIR.For x lo hi m body ∈ stmts -> occurs s body -> occurs s stmts
| occurs_if_body c body orelse stmts :
    LoopIR.If c body orelse ∈ stmts -> occurs s body -> occurs s stmts
| occurs_if_orelse c body orelse stmts :
    LoopIR.If c body orelse ∈ stmts -> occurs s orelse -> occurs s stmts.

(** Induction on statements that reaches into the nested blocks. *)
Section stmt_induction.
Import LoopIR.
Variable P : stmt -> Prop.
Hypothesis HPass : P Pass.
Hypothesis HSync : forall c si, P (SyncStmt c si).
Hypothesis HAssign : forall x t i r, P (Assign x t i r).
Hypothesis HReduce : forall x t i r, P (Reduce x t i r).
Hypothesis HWriteConfig : forall c f r si, P (WriteConfig c f r si).
Hypothesis HWindowStmt : forall x r, P (WindowStmt x r).
Hypothesis HIf : forall c body orelse,
    Forall P body -> Forall P orelse -> P (If c body orelse).
Hypothesis HFor : forall x lo hi m body, Forall P body -> P (For x lo hi m body).
Hypothesis HAlloc : forall x t m si, P (Alloc x t m si).
Hypothesis HFree : forall x t m si, P (Free x t m si).
Hypothesis HCall : forall f a, P (Call f a).

Fixpoint stmt_nested_ind (s : stmt) : P s :=
  let fix go (l : list stmt) : Forall P l :=
    match l with
    | [] => @List.Forall_nil _ P
    | s :: l' => @List.Forall_cons _ P s l' (stmt_nested_ind s) (go l')
    end in
  match s with
  | Pass => HPass
  | SyncStmt c si => HSync c si
  | Assign x t i r => HAssign x t i r
  | Reduce x t i r => HReduce x t i r
  | WriteConfig c f r si => HWriteConfig c f r si
  | WindowStmt x r => HWindowStmt x r
  | If c body orelse => HIf c body orelse (go body) (go orelse)
  | For x lo hi m body => HFor x lo hi m body (go body)
  | Alloc x t m si => HAlloc x t m si
  | Free x t m si => HFree x t m si
  | Call f a => HCall f a
  end.

Lemma stmts_nested_ind (l : list stmt) : Forall P l.
Proof. induction l; constructor; auto using stmt_nested_ind. Qed.

End stmt_induction.

Section body_predicates.
Import LoopIR.

(** What is nested directly in one statement. *)
Definition blocks (s : stmt) : list (list stmt) :=
  match s with
  | For _ _ _ _ body => [body]
  | If _ body orelse => [body; orelse]
  | _ => []
  end.

(** Every [Alloc] of the body names a memory class (the assertion of
    [allocates_static_memory]). *)
Definition allocs_have_memory (stmts : list stmt) : Prop :=
  forall x ty si, ~ occurs (Alloc x ty None si) stmts.

(** Every callee of the body is an object of the heap. *)
Definition calls_resolve (h : heap) (stmts : list stmt) : Prop :=
  forall f a, occurs (Call f a) stmts -> is_Some (h !! f).

Definition has_static_alloc (stmts : list stmt) : Prop :=
  exists x ty m si, occurs (Alloc x ty (Some m) si) stmts /\ is_static m = true.

Definition has_plain_call (h : heap) (stmts : list stmt) : Prop :=
  exists f a q, occurs (Call f a) stmts /\ h !! f = Some q /\ instr q = None.

End body_predicates.

(** ** Chained dictionaries

    [collections.ChainMap]: lookups search the maps from the innermost
    outwards, writes go to the innermost map, [new_child] pushes an
    empty map and [parents] drops the innermost one (a chain always
    keeps at least one map). *)

Section chainmap.
Context {K : Type} `{Countable K} {V : Type}.

Definition chain_new : list (gmap K V) := [∅].

Fixpoint chain_lookup (k : K) (c : list (gmap K V)) : option V :=
  match c with
  | [] => None
  | m :: c' =>
      match m !! k with
      | Some v => Some v
      | None => chain_lookup k c'
      end
  end.

Definition chain_mem (k : K) (c : list (gmap K V)) : bool :=
  bool_decide (is_Some (chain_lookup k c)).

Definition chain_set (k : K) (v : V) (c : list (gmap K V)) : list (gmap K V) :=
  match c with
  | [] => [ {[ k := v ]} ]
  | m :: c' => <[ k := v ]> m :: c'
  end.

Definition new_child (c : list (gmap K V)) : list (gmap K V) := ∅ :: c.

Definition parents (c : list (gmap K V)) : list (gmap K V) :=
  match c with
  | _ :: (_ :: _) as c' => c'
  | _ => [∅]
  end.

End chainmap.

(** ** Bumping a name

    The pattern of [re.match] is: start, any run of characters, an
    underscore, a run of digits 0-9 (possibly empty), end.  The dot
    matches every character but a line feed and the end anchor matches
    at the end or before a final line feed, so a match splits [s],
    without one final line feed, at its last underscore, into a prefix
    free of line feeds and a run of digits. *)

Definition is_digit (c : ascii) : bool :=
  match Ascii.is_nat c with Some _ => true | None => false end.

Definition LF : ascii := "010"%char.
Definition underscore : ascii := "_"%char.

(** Splits the reversed string at its first underscore, provided only
    digits come before it; both parts are returned reversed. *)
Fixpoint split_suffix (rs : list ascii) (digits : list ascii)
    : option (list ascii * list ascii) :=
  match rs with
  | [] => None
  | c :: rs' =>
      if Ascii.eqb c underscore then Some (rs', digits)
      else if is_digit c then split_suffix rs' (c :: digits)
      else None
  end.

(** [m[1]] and [m[2]] of the match, or [None] when there is none. *)
Definition match_suffix (s : string) : option (string * string) :=
  let rs := rev (list_ascii_of_string s) in
  let rs := match rs with
            | c :: rs' => if Ascii.eqb c LF then rs' else rs
            | [] => rs
            end in
  match split_suffix rs [] with
  | Some (rprefix, digits) =>
      if existsb (Ascii.eqb LF) rprefix then None
      else Some (string_of_list_ascii (rev rprefix), string_of_list_ascii digits)
  | None => None
  end.

(** [int(d)] on a run of ASCII digits; the empty run is refused. *)
Definition int_of_digits (d : string) : result Z :=
  match d with
  | EmptyString => Raise (ValueError "invalid literal for int() with base 10: ''")
  | _ =>
      Ok (fold_left (fun acc c => 10 * acc + Z.of_nat (default 0%nat (Ascii.is_nat c)))
                    (list_ascii_of_string d) 0)
  end.

(** One round of the renaming loop: append [_1], or add one to the
    trailing counter. *)
Definition bump_name (s : string) : result string :=
  match match_suffix s with
  | None => Ok (s +:+ "_1")
  | Some (m1, m2) =>
      n ← int_of_digits m2;
      Ok (m1 +:+ "_" +:+ pretty (n + 1))
  end.

(** ** Text utilities *)

(** The characters of a string are all decimal digits. *)
Fixpoint all_digits (s : string) : bool :=
  match s with
  | EmptyString => true
  | String c s' => is_digit c && all_digits s'
  end.

(** The first character of a string is not a decimal digit. *)
Definition starts_nondigit (s : string) : bool :=
  match s with
  | EmptyString => false
  | String c _ => negb (is_digit c)
  end.

Fixpoint is_prefix (p s : string) : bool :=
  match p, s with
  | EmptyString, _ => true
  | String a p', String b s' => Ascii.eqb a b && is_prefix p' s'
  | String _ _, EmptyString => false
  end.

(** [sub in s] *)
Fixpoint contains (sub s : string) : bool :=
  is_prefix sub s ||
  match s with
  | EmptyString => false
  | String _ s' => contains sub s'
  end.
(** ** The rank of a name

    A measure of names that every round of the renaming loop raises:
    the length of the part before the counter, then the counter; a name
    without a counter has its whole length and the counter zero. *)

Definition name_rank (s : string) : nat * Z :=
  match match_suffix s with
  | None => (String.length s, 0)
  | Some (p, d) =>
      (String.length p, match int_of_digits d with Ok n => n | Raise _ => 0 end)
  end.

Definition rank_lt (a b : nat * Z) : Prop :=
  (a.1 < b.1)%nat \/ (a.1 = b.1 /\ a.2 < b.2).

Definition rank_le (a b : nat * Z) : Prop := a = b \/ rank_lt a b.

(** The value of a run of decimal digits read after the value [acc]. *)
Definition digits_val (acc : Z) (l : list ascii) : Z :=
  fold_left (fun acc c => 10 * acc + Z.of_nat (default 0%nat (Ascii.is_nat c))) l acc.

(** [k] rounds of the renaming loop, one after the other. *)
Fixpoint bump_iter (k : nat) (s : string) : result string :=
  match k with
  | O => Ok s
  | S k' =>
      s' ← bump_name s;
      bump_iter k' s'
  end.

(** The message of [int] on the empty text. *)
Definition int_empty_msg : string := "invalid literal for int() with base 10: ''".

(** ** The compiler object

    The analyses and plug-ins that the compiler calls but does not
    define are parameters of the embedding: the index range
    environment, the code generation hooks of the memory classes, the
    externs, the configs, the C names of the types and the printing of
    a [float]. *)

Record WindowStruct : Type := mkWindowStruct {
  ws_name : string;
  definition : string
}.

Global Instance WindowStruct_eq_dec : EqDecision WindowStruct.
Proof. solve_decision. Defined.

Global Instance WindowStruct_countable : Countable WindowStruct.
Proof.
  apply (inj_countable' (fun w => (ws_name w, definition w))
                        (fun p => mkWindowStruct p.1 p.2)).
  intros []; reflexivity.
Defined.

Definition DRAM : LoopIR.Memory :=
  LoopIR.mkMemory "DRAM" true false false.

Section compiler.
Import LoopIR.

(** [IndexRangeEnvironment]: its state, the query
    [check_expr_bound(0, IndexRangeEnvironment.leq, e)] and the two
    scope operations. *)
Variable range_env : Type.
Variable check_non_neg : range_env -> LoopIR.expr -> bool.
Variable enter_scope exit_scope : range_env -> range_env.

(** [str] of a Python [float], and [ctype()] of a type. *)
Variable float_repr : float -> string.
Variable ctype : prim -> string.

(** The hooks [write], [reduce] and [window] of a memory class. *)
Variable mem_write mem_reduce : Memory -> stmt -> string -> string -> result string.
Variable mem_window :
  Memory -> typ -> string -> list string -> list string -> string -> result string.

(** [compile] of an extern and [is_allow_rw] of a config. *)
Variable extern_compile : string -> list string -> string -> result string.
Variable config_allow_rw : string -> bool.

Record Compiler : Type := mkCompiler {
  env : list (gmap positive string);
  range : range_env;
  names : list (gmap string string);
  envtyp : gmap positive (option typ);
  mems : gmap positive Memory;
  tab : string;
  lines : list string;
  scalar_refs : gset positive;
  needed_helpers : gset string;
  window_defns : gset WindowStruct;
  known_strides : gmap (positive * nat) CIR.expr;
  non_const : gset positive
}.

(** A method of the compiler: it reads and updates the object, and
    returns a value or raises. *)
Definition M (A : Type) : Type := Compiler -> result (A * Compiler).

Global Instance M_ret : MRet M := fun A a st => Ok (a, st).
Global Instance M_bind : MBind M := fun A B f m st =>
  match m st with
  | Ok (a, st') => f a st'
  | Raise e => Raise e
  end.

Definition get : M Compiler := fun st => Ok (st, st).
Definition modify (f : Compiler -> Compiler) : M unit := fun st => Ok (tt, f st).
Definition raise {A} (e : exn) : M A := fun _ => Raise e.
Definition lift {A} (r : result A) : M A := fun st =>
  match r with
  | Ok a => Ok (a, st)
  | Raise e => Raise e
  end.

Definition set_env v st := mkCompiler v (range st) (names st) (envtyp st) (mems st)
  (tab st) (lines st) (scalar_refs st) (needed_helpers st) (window_defns st)
  (known_strides st) (non_const st).
Definition set_range v st := mkCompiler (env st) v (names st) (envtyp st) (mems st)
  (tab st) (lines st) (scalar_refs st) (needed_helpers st) (window_defns st)
  (known_strides st) (non_const st).
Definition set_names v st := mkCompiler (env st) (range st) v (envtyp st) (mems st)
  (tab st) (lines st) (scalar_refs st) (needed_helpers st) (window_defns st)
  (known_strides st) (non_const st).
Definition set_envtyp v st := mkCompiler (env st) (range st) (names st) v (mems st)
  (tab st) (lines st) (scalar_refs st) (needed_helpers st) (window_defns st)
  (known_strides st) (non_const st).
Definition set_mems v st := mkCompiler (env st) (range st) (names st) (envtyp st) v
  (tab st) (lines st) (scalar_refs st) (needed_helpers st) (window_defns st)
  (known_strides st) (non_const st).
Definition set_tab v st := mkCompiler (env st) (range st) (names st) (envtyp st) (mems st)
  v (lines st) (scalar_refs st) (needed_helpers st) (window_defns st)
  (known_strides st) (non_const st).
Definition set_lines v st := mkCompiler (env st) (range st) (names st) (envtyp st) (mems st)
  (tab st) v (scalar_refs st) (needed_helpers st) (window_defns st)
  (known_strides st) (non_const st).
Definition set_needed_helpers v st := mkCompiler (env st) (range st) (names st) (envtyp st)
  (mems st) (tab st) (lines st) (scalar_refs st) v (window_defns st)
  (known_strides st) (non_const st).
Definition set_window_defns v st := mkCompiler (env st) (range st) (names st) (envtyp st)
  (mems st) (tab st) (lines st) (scalar_refs st) (needed_helpers st) v
  (known_strides st) (non_const st).

(** [d[k]] on a dictionary keyed by symbols. *)
Definition lookup_sym {V} (what : string) (d : gmap positive V) (x : Sym) : result V :=
  match d !! sym_id x with
  | Some v => Ok v
  | None => Raise (KeyError (what +:+ "[" +:+ sym_name x +:+ "]"))
  end.

Definition chain_get_sym (c : list (gmap positive string)) (x : Sym) : result string :=
  match chain_lookup (sym_id x) c with
  | Some v => Ok v
  | None => Raise (KeyError (sym_name x))
  end.

(** *** add_line, push, pop *)

Definition add_line (line : string) : M unit :=
  match line with
  | EmptyString => mret tt
  | _ => modify (fun st => set_lines (lines st ++ [tab st +:+ line]) st)
  end.

(** [s[:-2]] *)
Definition drop_last2 (s : string) : string :=
  let l := list_ascii_of_string s in
  string_of_list_ascii (take (length l - 2) l).

Definition push_env (st : Compiler) : Compiler :=
  set_names (new_child (names st))
    (set_range (enter_scope (range st))
       (set_env (new_child (env st)) st)).

Definition push_tab (st : Compiler) : Compiler :=
  set_tab (tab st +:+ "  ") st.

Definition push (only : option string) : M unit :=
  match only with
  | None => modify (fun st => push_tab (push_env st))
  | Some o =>
      if String.eqb o "env" then modify push_env
      else if String.eqb o "tab" then modify push_tab
      else raise (AssertionError ("BAD only parameter " +:+ o))
  end.

Definition pop : M unit :=
  modify (fun st =>
    set_tab (drop_last2 (tab st))
      (set_names (parents (names st))
         (set_range (exit_scope (range st))
            (set_env (parents (env st)) st)))).

(** *** new_varname

    The [while] loop of [new_varname] runs on fuel; the number of
    keys of [names] plus one is enough (see [rename_loop_fuel]). *)

Fixpoint rename_loop (fuel : nat) (nms : list (gmap string string)) (s : string)
    : result string :=
  match fuel with
  | O => Raise Diverged
  | S fuel' =>
      if chain_mem s nms then
        s' ← bump_name s;
        rename_loop fuel' nms s'
      else Ok s
  end.

Definition chain_keys (nms : list (gmap string string)) : gset string :=
  ⋃ (dom <$> nms).

Definition new_varname (symbol : Sym) (ty : option typ) (mem : option Memory)
    : M string :=
  st ← get;
  let strnm := sym_name symbol in
  '(strnm, nms) ←
    (match chain_lookup strnm (names st) with
     | None => mret (strnm, names st)
     | Some s =>
         s' ← lift (rename_loop (S (size (chain_keys (names st)))) (names st) s);
         mret (s', chain_set strnm s' (names st))
     end);
  modify (fun st =>
    set_mems (<[ sym_id symbol := default DRAM mem ]> (mems st))
      (set_envtyp (<[ sym_id symbol := ty ]> (envtyp st))
         (set_env (chain_set (sym_id symbol) strnm (env st))
            (set_names (chain_set strnm strnm nms) st))));;
  mret strnm.


(** *** Index expressions: lift_to_cir and comp_cir *)

Fixpoint lift_to_cir (e : expr) (renv : range_env) : result CIR.expr :=
  if negb (is_indexable (expr_type e))
  then Raise (AssertionError "why are you here?")
  else
    match e with
    | Read x _ _ _ => Ok (CIR.Read x (check_non_neg renv e))
    | Const v _ => Ok (CIR.Const v)
    | BinOp op l r _ =>
        lhs ← lift_to_cir l renv;
        rhs ← lift_to_cir r renv;
        Ok (CIR.BinOp op lhs rhs (check_non_neg renv e))
    | USub a _ =>
        arg ← lift_to_cir a renv;
        Ok (CIR.USub arg (check_non_neg renv e))
    | _ => Raise (AssertionError "bad case!")
    end.

(** [str(v)] of a constant payload. *)
Definition str_of_num (v : pynum) : string :=
  match v with
  | PyBool true => "True"
  | PyBool false => "False"
  | PyInt z => pretty z
  | PyFloat f => float_repr f
  end.

Definition _call_static_helper (helper : string) (args : list string) : M string :=
  modify (fun st => set_needed_helpers ({[ helper ]} ∪ needed_helpers st) st);;
  mret (helper +:+ "(" +:+ String.concat ", " args +:+ ")").

(** The test that picks C's own [/]: the dividend is a [Read] or a
    [BinOp] flagged non-negative, or a constant above zero. *)
Definition native_div_ok (lhs : CIR.expr) : bool :=
  match lhs with
  | CIR.Read _ nn | CIR.BinOp _ _ _ nn => nn
  | CIR.Const v => py_gt0 v
  | _ => false
  end.

Definition is_cir_binop (e : CIR.expr) : bool :=
  match e with
  | CIR.BinOp _ _ _ _ => true
  | _ => false
  end.

Definition paren (s : string) : string := "(" +:+ s +:+ ")".

Fixpoint comp_cir (e : CIR.expr) (env : list (gmap positive string)) (prec : Z)
    : M string :=
  match e with
  | CIR.Read x _ => lift (chain_get_sym env x)
  | CIR.Const v => mret (str_of_num v)
  | CIR.BinOp op l r _ =>
      let local_prec := op_prec op in
      lhs ← comp_cir l env local_prec;
      rhs ← comp_cir r env local_prec;
      let rhs :=
        if is_cir_binop r && (bool_decide (op = Sub) || bool_decide (op = Div))
        then paren rhs else rhs in
      if bool_decide (op = Div) then
        if native_div_ok l
        then mret (paren (lhs +:+ " / " +:+ rhs))
        else _call_static_helper "exo_floor_div" [lhs; rhs]
      else
        let s := lhs +:+ " " +:+ op_str op +:+ " " +:+ rhs in
        mret (if local_prec <? prec then paren s else s)
  | CIR.Stride x d => mret (sym_name x +:+ ".strides[" +:+ pretty d +:+ "]")
  | CIR.USub a _ =>
      s ← comp_cir a env op_prec_usub;
      mret ("-" +:+ s)
  end.

(** [[f(x) for x in l]] for a method [f] of the compiler. *)
Fixpoint mapM {A B} (f : A -> M B) (l : list A) : M (list B) :=
  match l with
  | [] => mret []
  | a :: l' =>
      b ← f a;
      bs ← mapM f l';
      mret (b :: bs)
  end.

Fixpoint mapR {A B} (f : A -> result B) (l : list A) : result (list B) :=
  match l with
  | [] => Ok []
  | a :: l' =>
      b ← f a;
      bs ← mapR f l';
      Ok (b :: bs)
  end.

(** *** Strides and offsets *)

Definition tensor_strides (shp : list expr) : M (list CIR.expr) :=
  st ← get;
  szs ← lift (mapR (fun i => lift_to_cir i (range st)) shp);
  match last szs with
  | None => raise (AssertionError EmptyString)
  | Some s_last =>
      let '(strides, _) :=
        fold_left (fun '(strides, s) sz =>
                     (strides ++ [s], CIR.BinOp Mul sz s true))
                  (rev (removelast szs))
                  ([CIR.Const (PyInt 1)], s_last) in
      mret (rev strides)
  end.

Definition get_strides (name : Sym) (ty : typ) : M (list CIR.expr) :=
  if is_win ty then
    st ← get;
    mret (map (fun i => default (CIR.Stride name i)
                                (known_strides st !! (sym_id name, i)))
              (seq 0 (length (shape ty))))
  else tensor_strides (shape ty).

Definition get_idx_offset (name : Sym) (ty : typ) (idx : list CIR.expr)
    : M CIR.expr :=
  strides ← get_strides name ty;
  if negb (length strides =? length idx)%nat
  then raise (AssertionError EmptyString)
  else
    match idx, strides with
    | i0 :: idx', s0 :: strides' =>
        mret (fold_left
                (fun acc '(i, s) =>
                   CIR.BinOp Add acc (CIR.BinOp Mul i s true) true)
                (zip idx' strides')
                (CIR.BinOp Mul i0 s0 true))
    | _, _ => raise (IndexError "list index out of range")
    end.

(** [self.envtyp[nm]], which holds [None] for the context argument. *)
Definition envtyp_of (x : Sym) : M typ :=
  st ← get;
  oty ← lift (lookup_sym "envtyp" (envtyp st) x);
  match oty with
  | Some ty => mret ty
  | None => raise (AttributeError "NoneType")
  end.

Definition env_of (x : Sym) : M string :=
  st ← get;
  lift (chain_get_sym (env st) x).

Definition mem_of (x : Sym) : M Memory :=
  st ← get;
  lift (lookup_sym "mems" (mems st) x).

(** [self.comp_cir(simplify_cir(i), self.env, prec=0)] *)
Definition comp_simplified (i : CIR.expr) : M string :=
  i' ← lift (simplify_cir i);
  st ← get;
  comp_cir i' (env st) 0.

Definition access_str (nm : Sym) (idx_list : list expr) : M string :=
  ty ← envtyp_of nm;
  st ← get;
  cirs ← lift (mapR (fun i => lift_to_cir i (range st)) idx_list);
  idx_expr ← get_idx_offset nm ty cirs;
  idx_expr_s ← comp_simplified idx_expr;
  buf ← env_of nm;
  if negb (is_win ty)
  then mret (buf +:+ "[" +:+ idx_expr_s +:+ "]")
  else mret (buf +:+ ".data[" +:+ idx_expr_s +:+ "]").

(** *** Window structs *)

(** [str.upper] on ASCII text. *)
Definition ascii_upper (c : ascii) : ascii :=
  let n := nat_of_ascii c in
  if (97 <=? n)%nat && (n <=? 122)%nat then ascii_of_nat (n - 32) else c.

Definition upper (s : string) : string :=
  string_of_list_ascii (map ascii_upper (list_ascii_of_string s)).

Definition NL : string := String LF EmptyString.

Definition _window_struct (typename ctype_s : string) (n_dims : nat) (is_const : bool)
    : WindowStruct :=
  let const_kwd := if is_const then "const " else EmptyString in
  let const_suffix := if is_const then "c" else EmptyString in
  let sname := "exo_win_" +:+ pretty n_dims +:+ typename +:+ const_suffix in
  let sdef :=
    "struct " +:+ sname +:+ "{" +:+ NL +:+
    "    " +:+ const_kwd +:+ ctype_s +:+ " * const data;" +:+ NL +:+
    "    const int_fast32_t strides[" +:+ pretty n_dims +:+ "];" +:+ NL +:+
    "};" in
  let sdef_guard := upper sname in
  let sdef :=
    "#ifndef " +:+ sdef_guard +:+ NL +:+
    "#define " +:+ sdef_guard +:+ NL +:+
    sdef +:+ NL +:+
    "#endif" in
  mkWindowStruct sname sdef.

Definition _window_struct_shorthand (base_type : prim) : result string :=
  match base_type with
  | F16 => Ok "f16"
  | F32 => Ok "f32"
  | F64 => Ok "f64"
  | I8 => Ok "i8"
  | UI8 => Ok "ui8"
  | UI16 => Ok "ui16"
  | I32 => Ok "i32"
  | _ => Raise (KeyError "_window_struct_shorthand")
  end.

Definition window_struct (base_type : prim) (n_dims : nat) (is_const : bool)
    : result WindowStruct :=
  if negb (1 <=? n_dims)%nat then Raise (AssertionError EmptyString) else
  typename ← _window_struct_shorthand base_type;
  Ok (_window_struct typename (ctype base_type) n_dims is_const).

(** [get_window_type] is called on a window type or on a formal
    argument of window type. *)
Definition get_window_type (t : typ + fnarg) (is_const : option bool) : M string :=
  st ← get;
  '(base, n_dims, is_const) ←
    (match t with
     | inl (Window _ as_tensor src_buf _) =>
         mret (basetype as_tensor, length (shape as_tensor),
               default (bool_decide (sym_id src_buf ∉ non_const st)) is_const)
     | inr a =>
         if is_win (arg_type a) then
           mret (basetype (arg_type a), length (shape (arg_type a)),
                 default (bool_decide (sym_id (arg_name a) ∉ non_const st)) is_const)
         else raise (AssertionError EmptyString)
     | inl _ => raise (AssertionError EmptyString)
     end);
  win ← lift (window_struct base n_dims is_const);
  modify (fun st => set_window_defns ({[ win ]} ∪ window_defns st) st);;
  mret (ws_name win).

Definition w_lo (w : w_access) : expr :=
  match w with
  | Interval lo _ => lo
  | Point pt => pt
  end.

Definition is_interval (w : w_access) : bool :=
  match w with
  | Interval _ _ => true
  | Point _ => false
  end.

(** [window_struct_fields] takes a [WindowExpr]; its fields are
    passed one by one. *)
Definition window_struct_fields (name : Sym) (idx : list w_access) (srcinfo : string)
    : M (string * string) :=
  base ← env_of name;
  basetyp ← envtyp_of name;
  mem ← mem_of name;
  st ← get;
  cirs ← lift (mapR (fun w => lift_to_cir (w_lo w) (range st)) idx);
  idxs ← mapM comp_simplified cirs;
  all_strides ← get_strides name basetyp;
  all_strides_s ← mapM comp_simplified all_strides;
  if negb ((0 <? length all_strides_s)%nat && (length all_strides_s =? length idx)%nat)
  then raise (AssertionError EmptyString)
  else
    dataptr ← lift (mem_window mem basetyp base idxs all_strides_s srcinfo);
    let strides :=
      String.concat ", "
        (map fst (filter (fun sw => is_interval sw.2) (zip all_strides_s idx))) in
    mret (dataptr, strides).

(** The struct literal of a window: [(struct W){ &data, { strides } }]. *)
Definition window_literal (win_struct data strides : string) : string :=
  "(struct " +:+ win_struct +:+ "){ &" +:+ data +:+ ", { " +:+ strides +:+ " } }".

(** *** Expressions: comp_e *)

Definition ctype_of (t : typ) : M string :=
  match t with
  | Prim p => mret (ctype p)
  | _ => raise (AssertionError "no ctype for this type")
  end.

Definition c_op (op : binop) : string :=
  match op with
  | And => "&&"
  | Or => "||"
  | _ => op_str op
  end.

Fixpoint comp_e (e : expr) (prec : Z) : M string :=
  match e with
  | Read x idx _ srcinfo =>
      rtyp ← envtyp_of x;
      if is_indexable rtyp || is_prim Bool rtyp || is_prim Stride rtyp
      then env_of x
      else
        mem ← mem_of x;
        if is_CudaRmem mem then env_of x
        else if negb (can_read mem) then
          raise (MemGenError (srcinfo +:+ ": cannot read from buffer '" +:+ sym_name x
                              +:+ "' in memory '" +:+ mem_name mem +:+ "'"))
        else
          st ← get;
          if bool_decide (sym_id x ∈ scalar_refs st) then
            s ← env_of x;
            mret ("*" +:+ s)
          else if negb (is_tensor_or_window rtyp) then env_of x
          else access_str x idx
  | WindowExpr x idx ty srcinfo =>
      win_struct ← get_window_type (inl ty) None;
      '(data, strides) ← window_struct_fields x idx srcinfo;
      mret (window_literal win_struct data strides)
  | Const v ty =>
      match v with
      | PyBool b => mret (if b then "true" else "false")
      | _ =>
          if is_indexable ty then
            z ← lift (to_int v);
            mret (pretty z)
          else if is_prim F64 ty then
            f ← lift (to_float v);
            mret (float_repr f)
          else if is_prim F32 ty then
            f ← lift (to_float v);
            mret (float_repr f +:+ "f")
          else if is_prim WithContext ty then
            raise (AssertionError "should be handled when compiling LoopIR.If")
          else
            c ← ctype_of ty;
            mret ("((" +:+ c +:+ ") " +:+ str_of_num v +:+ ")")
      end
  | BinOp op l r ty =>
      let int_div := bool_decide (op = Div) && negb (is_numeric ty) in
      let local_prec := if int_div then 0 else op_prec op in
      lhs ← comp_e l local_prec;
      rhs ← comp_e r (local_prec + 1);
      if int_div then
        st ← get;
        if check_non_neg (range st) e
        then mret ("((" +:+ lhs +:+ ") / (" +:+ rhs +:+ "))")
        else _call_static_helper "exo_floor_div" [lhs; rhs]
      else
        let s := lhs +:+ " " +:+ c_op op +:+ " " +:+ rhs in
        mret (if local_prec <? prec then paren s else s)
  | USub a _ =>
      s ← comp_e a op_prec_usub;
      mret ("-" +:+ s)
  | Extern f args ty =>
      args_s ← (fix comp_args (l : list expr) : M (list string) :=
                  match l with
                  | [] => mret []
                  | a :: l' =>
                      s ← comp_e a 0;
                      ss ← comp_args l';
                      mret (s :: ss)
                  end) args;
      lift (extern_compile f args_s (ctype (basetype ty)))
  | StrideExpr x dim _ =>
      basetyp ← envtyp_of x;
      strides ← get_strides x basetyp;
      match strides !! dim with
      | Some stride => comp_simplified stride
      | None => raise (IndexError "list index out of range")
      end
  | ReadConfig config field _ srcinfo =>
      if negb (config_allow_rw config) then
        raise (ConfigError (srcinfo +:+ ": cannot read from config '" +:+ config +:+ "'"))
      else mret ("ctxt->" +:+ config +:+ "." +:+ field)
  end.

(** *** Statements: the arm of comp_s for Assign and Reduce *)

Definition comp_s_assign_reduce (s : stmt) : M unit :=
  match s with
  | Assign x ty idx rhs_e | Reduce x ty idx rhs_e =>
      st ← get;
      lhs ←
        (if bool_decide (sym_id x ∈ scalar_refs st) then
           n ← env_of x;
           mret ("*" +:+ n)
         else
           xty ← envtyp_of x;
           if is_real_scalar xty then env_of x
           else access_str x idx);
      rhs ← comp_e rhs_e 0;
      let lbtyp := basetype ty in
      let rbtyp := basetype (expr_type rhs_e) in
      rhs ←
        (if bool_decide (lbtyp ≠ rbtyp) then
           if negb (is_real_scalar ty) then raise (AssertionError EmptyString)
           else if negb (is_real_scalar (expr_type rhs_e))
                then raise (AssertionError EmptyString)
                else mret (paren (ctype lbtyp) +:+ paren rhs)
         else mret rhs);
      mem ← mem_of x;
      line ← lift (match s with
                   | Assign _ _ _ _ => mem_write mem s lhs rhs
                   | _ => mem_reduce mem s lhs rhs
                   end);
      add_line line
  | _ => raise (AssertionError "bad case")
  end.

(** *** The static-memory check *)

Fixpoint allocates_static_memory_s (s : stmt) : result bool :=
  let fix go (stmts : list stmt) : result bool :=
    match stmts with
    | [] => Ok false
    | s :: stmts' =>
        a ← allocates_static_memory_s s;
        b ← go stmts';
        Ok (a || b)
    end in
  match s with
  | Alloc _ _ mem _ =>
      match mem with
      | Some m => Ok (is_static m)
      | None => Raise (TypeError "issubclass() arg 1 must be a class")
      end
  | For _ _ _ _ body => go body
  | If _ body orelse =>
      a ← go body;
      b ← go orelse;
      Ok (a || b)
  | _ => Ok false
  end.

Fixpoint allocates_static_memory (stmts : list stmt) : result bool :=
  match stmts with
  | [] => Ok false
  | s :: stmts' =>
      a ← allocates_static_memory_s s;
      b ← allocates_static_memory stmts';
      Ok (a || b)
  end.

(** [s.f.instr is not None] for the callee of a call. *)
Definition callee (h : heap) (f : proc_ref) : result proc :=
  match h !! f with
  | Some p => Ok p
  | None => Raise (KeyError "dangling procedure reference")
  end.

Fixpoint is_leaf_proc_s (h : heap) (s : stmt) : result bool :=
  let fix go (stmts : list stmt) : result bool :=
    match stmts with
    | [] => Ok true
    | s :: stmts' =>
        a ← is_leaf_proc_s h s;
        b ← go stmts';
        Ok (a && b)
    end in
  match s with
  | Call f _ =>
      p ← callee h f;
      Ok (bool_decide (is_Some (instr p)))
  | For _ _ _ _ body => go body
  | If _ body orelse =>
      a ← go body;
      b ← go orelse;
      Ok (a && b)
  | _ => Ok true
  end.

Fixpoint is_leaf_proc (h : heap) (stmts : list stmt) : result bool :=
  match stmts with
  | [] => Ok true
  | s :: stmts' =>
      a ← is_leaf_proc_s h s;
      b ← is_leaf_proc h stmts';
      Ok (a && b)
  end.

Definition static_memory_check (h : heap) (p : proc) : result bool :=
  a ← allocates_static_memory (body p);
  if negb a then Ok true else is_leaf_proc h (body p).

(** The two lines of [Compiler.__init__] that run the check. *)
Definition init_static_memory_check (h : heap) (p : proc) : result unit :=
  ok ← static_memory_check h p;
  if negb ok
  then Raise (MemGenError "Cannot generate static memory in non-leaf procs")
  else Ok tt.

(** *** Bookkeeping of the helpers *)

(** The compiler object with [hs] added to [_needed_helpers]. *)
Definition add_helpers (hs : gset string) (st : Compiler) : Compiler :=
  set_needed_helpers (hs ∪ needed_helpers st) st.

(** *** The dividend of a division, before lifting

    What [native_div_ok] reads on the lifted dividend: the answer of
    the range environment for a [Read] or a [BinOp], the sign of a
    constant, and [False] for every other expression. *)
Definition dividend_native (renv : range_env) (e : expr) : bool :=
  match e with
  | Read _ _ _ _ | BinOp _ _ _ _ => check_non_neg renv e
  | Const v _ => py_gt0 v
  | _ => false
  end.

(** The strides that a window keeps: those of the coordinates given as
    intervals, in the order of the dimensions. *)
Definition kept_strides (all_strides_s : list string) (idx : list w_access)
    : list string :=
  map fst (filter (fun sw => is_interval sw.2) (zip all_strides_s idx)).
End compiler.

(** The type of the range environment is read off the compiler object. *)
Arguments get {range_env}.
Arguments modify {range_env}.
Arguments raise {range_env}.
Arguments lift {range_env}.
Arguments set_env {range_env}.
Arguments set_range {range_env}.
Arguments set_names {range_env}.
Arguments set_envtyp {range_env}.
Arguments set_mems {range_env}.
Arguments set_tab {range_env}.
Arguments set_lines {range_env}.
Arguments set_needed_helpers {range_env}.
Arguments set_window_defns {range_env}.
Arguments add_line {range_env}.
Arguments push_env {range_env}.
Arguments push_tab {range_env}.
Arguments push {range_env}.
Arguments pop {range_env}.
Arguments new_varname {range_env}.
Arguments lift_to_cir {range_env}.
Arguments _call_static_helper {range_env}.
Arguments comp_cir {range_env}.
Arguments mapM {range_env}.
Arguments tensor_strides {range_env}.
Arguments get_strides {range_env}.
Arguments get_idx_offset {range_env}.
Arguments envtyp_of {range_env}.
Arguments env_of {range_env}.
Arguments mem_of {range_env}.
Arguments comp_simplified {range_env}.
Arguments access_str {range_env}.
Arguments get_window_type {range_env}.
Arguments window_struct_fields {range_env}.
Arguments comp_e {range_env}.
Arguments ctype_of {range_env}.
Arguments comp_s_assign_reduce {range_env}.
Arguments add_helpers {range_env}.
Arguments dividend_native {range_env}.

(** *** Specification of the two scans of the static-memory check *)

Section scan_specs.
Import LoopIR.

(** The scan for static allocations on one statement whose
    allocations all name a memory class. *)
Definition static_scan_ok (s : stmt) : Prop :=
  allocs_have_memory [s] ->
  exists b, allocates_static_memory_s s = Ok b /\ (b = true <-> has_static_alloc [s]).

(** The scan for calls of plain procedures on one statement whose
    callees are all in the heap. *)
Definition leaf_scan_ok (h : heap) (s : stmt) : Prop :=
  calls_resolve h [s] ->
  exists b, is_leaf_proc_s h s = Ok b /\ (b = false <-> has_plain_call h [s]).

End scan_specs.

(** ** The call graph: LoopIR_SubProcs and find_all_subprocs *)

Section call_graph.
Import LoopIR.

(** Modelled from the spec: the traversal skeleton [LoopIR_Do]
    ("a uniform traversal skeleton", section 9) visits the statements
    of a body and of the blocks nested in them; [LoopIR_SubProcs]
    overrides it to collect the callee of every [Call]. *)
Fixpoint subprocs_s (s : stmt) : gset proc_ref :=
  let fix go (stmts : list stmt) : gset proc_ref :=
    match stmts with
    | [] => ∅
    | s :: stmts' => subprocs_s s ∪ go stmts'
    end in
  match s with
  | Call f _ => {[ f ]}
  | For _ _ _ _ body => go body
  | If _ body orelse => go body ∪ go orelse
  | _ => ∅
  end.

Fixpoint subprocs_stmts (stmts : list stmt) : gset proc_ref :=
  match stmts with
  | [] => ∅
  | s :: stmts' => subprocs_s s ∪ subprocs_stmts stmts'
  end.

Definition LoopIR_SubProcs (p : proc) : gset proc_ref :=
  match instr p with
  | None => subprocs_stmts (body p)
  | Some _ => ∅
  end.

(** The order in which Python iterates over a [set] of procedures is
    not fixed by the language; it is a parameter. *)
Variable set_order : gset proc_ref -> list proc_ref.

(** [walk] with the two variables it closes over, [all_procs] and
    [seen], passed along.  Each nested call first adds a procedure
    that was not seen, so the depth of the recursion is bounded by
    the number of procedures; the fuel counts that depth. *)
Fixpoint walk (fuel : nat) (h : heap) (proc : proc_ref) (visited : gset proc_ref)
    (st : list proc_ref * gset proc_ref) : result (list proc_ref * gset proc_ref) :=
  match fuel with
  | O => Raise Diverged
  | S fuel' =>
      let '(all_procs, seen) := st in
      if bool_decide (proc ∈ seen) then Ok st
      else
        p ← callee h proc;
        (fix each (sps : list proc_ref) (st : list proc_ref * gset proc_ref) :=
           match sps with
           | [] => Ok st
           | sp :: sps' =>
               if bool_decide (sp ∈ visited) then
                 q ← callee h sp;
                 Raise (ValueError ("found call cycle involving " +:+ name q))
               else
                 st' ← walk fuel' h sp ({[ proc ]} ∪ visited) st;
                 each sps' st'
           end)
          (set_order (LoopIR_SubProcs p))
          (all_procs ++ [proc], {[ proc ]} ∪ seen)
  end.

Fixpoint walk_all (fuel : nat) (h : heap) (proc_list : list proc_ref)
    (st : list proc_ref * gset proc_ref) : result (list proc_ref * gset proc_ref) :=
  match proc_list with
  | [] => Ok st
  | proc :: rest =>
      st' ← walk fuel h proc ∅ st;
      walk_all fuel h rest st'
  end.

Definition find_all_subprocs (h : heap) (proc_list : list proc_ref)
    : result (list proc_ref) :=
  st ← walk_all (S (size h)) h proc_list ([], ∅);
  Ok (rev st.1).

End call_graph.

(** ** Static helpers *)

(** The text of the one static helper. *)
Definition exo_floor_div_text : string :=
  String LF EmptyString +:+
  "static int exo_floor_div(int num, int quot) {" +:+ String LF EmptyString +:+
  "  int off = (num>=0)? 0 : quot-1;" +:+ String LF EmptyString +:+
  "  return (num-off)/quot;" +:+ String LF EmptyString +:+
  "}" +:+ String LF EmptyString.

Definition _static_helpers : gmap string string :=
  {[ "exo_floor_div" := exo_floor_div_text ]}.

(** [[_static_helpers[v] for v in needed_helpers]], for an iteration
    order of the set. *)
Definition helper_code (order : gset string -> list string) (needed : gset string)
    : result (list string) :=
  (fix each (l : list string) : result (list string) :=
     match l with
     | [] => Ok []
     | v :: l' =>
         match _static_helpers !! v with
         | Some text => rest ← each l'; Ok (text :: rest)
         | None => Raise (KeyError v)
         end
     end) (order needed).

(** *** What the helper computes

    C's [int] is taken 32 bits wide; an operation whose result does not
    fit has no defined value ([None]).  [/] on [int] truncates towards
    zero. *)

Definition INT_MIN : Z := - 2 ^ 31.
Definition INT_MAX : Z := 2 ^ 31 - 1.

Definition c_int (z : Z) : option Z :=
  if (INT_MIN <=? z) && (z <=? INT_MAX) then Some z else None.

Definition c_sub (a b : Z) : option Z := c_int (a - b).

Definition c_div (a b : Z) : option Z :=
  if b =? 0 then None else c_int (Z.quot a b).

Definition exo_floor_div (num quot : Z) : option Z :=
  num ← c_int num;
  quot ← c_int quot;
  off ← (if 0 <=? num then Some 0 else c_sub quot 1);
  d ← c_sub num off;
  c_div d quot.

(** The same body on a machine whose [int] wraps around (two's
    complement, 32 bits). *)
Definition wrap32 (z : Z) : Z := (z + 2 ^ 31) mod 2 ^ 32 - 2 ^ 31.

Definition exo_floor_div_wrap (num quot : Z) : Z :=
  let off := if 0 <=? num then 0 else wrap32 (quot - 1) in
  wrap32 (Z.quot (wrap32 (num - off)) quot).

(** Some [/] node of the index expression has a dividend that fails
    the test for C's own division. *)
Fixpoint needs_floor_div (e : CIR.expr) : bool :=
  match e with
  | CIR.BinOp op l r _ =>
      needs_floor_div l || needs_floor_div r ||
      (bool_decide (op = Div) && negb (native_div_ok l))
  | CIR.USub a _ => needs_floor_div a
  | _ => false
  end.

(** The helpers that compiling the index expression [e] asks for. *)
Definition helpers_of (e : CIR.expr) : gset string :=
  if needs_floor_div e then {[ "exo_floor_div" ]} else ∅.
(** *** What is said of a call graph *)

(** [f] holds a call of [g], and [f] is not an instruction. *)
Definition calls (h : heap) (f g : LoopIR.proc_ref) : Prop :=
  exists p, h !! f = Some p /\ g ∈ LoopIR_SubProcs p.

(** Every procedure that is called is an object of the heap. *)
Definition closed_heap (h : heap) : Prop :=
  forall f g, calls h f g -> g ∈ dom h.

(** Two different procedures call each other through a chain of calls. *)
Definition call_cycle (h : heap) : Prop :=
  exists f g, f <> g /\ rtc (calls h) f g /\ calls h g f.

(** [f] is one of the [roots] or is called, through a chain of calls,
    from one of them. *)
Definition reach_from (h : heap) (roots : list LoopIR.proc_ref)
    (f : LoopIR.proc_ref) : Prop :=
  exists r, r ∈ roots /\ rtc (calls h) r f.

(** The state of the walk: the list and the set hold the same
    procedures, once each, all of the heap and all reached from the
    roots, and each of them is still being visited or has all its
    callees in the set. *)
Definition walk_inv (h : heap) (roots : list LoopIR.proc_ref)
    (visited : gset LoopIR.proc_ref)
    (st : list LoopIR.proc_ref * gset LoopIR.proc_ref) : Prop :=
  NoDup st.1 /\ list_to_set st.1 = st.2 /\ visited ⊆ st.2 /\ st.2 ⊆ dom h /\
  (forall f g, f ∈ st.2 -> calls h f g -> f ∈ visited \/ g ∈ st.2) /\
  (forall f, f ∈ st.2 -> reach_from h roots f).

(** What a call of [walk] on [proc] from the state [st] answers: a
    state that extends [st], with [proc] as the first new procedure if
    it is new, or an error for a cycle. *)
Definition walk_post (h : heap) (roots : list LoopIR.proc_ref)
    (visited : gset LoopIR.proc_ref)
    (proc : LoopIR.proc_ref) (st : list LoopIR.proc_ref * gset LoopIR.proc_ref)
    (r : result (list LoopIR.proc_ref * gset LoopIR.proc_ref)) : Prop :=
  match r with
  | Ok st' =>
      walk_inv h roots visited st' /\ st.2 ⊆ st'.2 /\ proc ∈ st'.2 /\
      exists l, st'.1 = st.1 ++ l /\ (proc ∉ st.2 -> exists l', l = proc :: l')
  | Raise (ValueError _) => call_cycle h
  | Raise _ => False
  end.

(** ** The pretty-printer's names (SYS_ATL/LoopIR_pprint.py) *)

Module PPrint.

(** Modelled from the spec: [Environment] of the prelude, "layered
    name environments supporting push/pop scopes" (section 2): a
    stack of dictionaries, read through all layers and written in the
    innermost one. *)
Definition Environment := list (gmap string string).

Definition new_Environment : Environment := chain_new.
Definition push (env : Environment) : Environment := new_child env.
Definition pop (env : Environment) : Environment := parents env.

(** [new_name] of [UAST_PPrinter] and of [LoopIR_PPrinter] (the two
    methods are the same text). *)
Definition new_name (nm : Sym) (env : Environment) : result (string * Environment) :=
  let strnm := sym_name nm in
  match chain_lookup strnm env with
  | None => Ok (strnm, chain_set strnm strnm env)
  | Some s =>
      s' ← bump_name s;
      Ok (s', chain_set strnm s' env)
  end.

(** The names given to a sequence of symbols introduced in turn. *)
Fixpoint new_names (nms : list Sym) (env : Environment)
    : result (list string * Environment) :=
  match nms with
  | [] => Ok ([], env)
  | nm :: nms' =>
      '(s, env') ← new_name nm env;
      '(ss, env'') ← new_names nms' env';
      Ok (s :: ss, env'')
  end.

(** [get_name]: the printed name of a symbol that was introduced,
    and [repr] of the symbol otherwise. *)
Definition get_name (repr : Sym -> string) (nm : Sym) (env : Environment) : string :=
  match chain_lookup (sym_name nm) env with
  | Some s => s
  | None => repr nm
  end.

(** The names [x], [x_1], [x_2], ... up to [x_n], after the first. *)
Definition counted (x : string) (n : nat) : list string :=
  map (fun i => x +:+ "_" +:+ pretty (Z.of_nat i)) (seq 1 n).

End PPrint.

(** ** Collective algebra (src/exo/spork/coll_algebra.py) *)

Module CollAlgebra.

(** [base_expr] is a target-language expression or a constant. *)
Inductive base : Type :=
| BaseStr (s : string)
| BaseInt (z : Z).

Record CollIndexExpr : Type := mkCollIndexExpr {
  base_expr : base;
  ops : list (string * Z)
}.

(** [CollIndexExpr.__init__]: operators are only allowed on a string. *)
Definition new_CollIndexExpr (b : base) (ops : list (string * Z))
    : result CollIndexExpr :=
  match b, ops with
  | BaseInt _, _ :: _ => Raise (AssertionError EmptyString)
  | _, _ => Ok (mkCollIndexExpr b ops)
  end.

(** [self.ops and self.ops[-1][0] == "-"] *)
Definition last_is_sub (ops : list (string * Z)) : bool :=
  match last ops with
  | Some (op, _) => String.eqb op "-"
  | None => false
  end.

(** [CollIndexExpr.__sub__].  The value is [Some e] when a [return]
    statement is reached and [None] when the body runs off its end,
    which is how a Python function returns [None]. *)
Definition sub (self : CollIndexExpr) (v : Z) : result (option CollIndexExpr) :=
  match base_expr self with
  | BaseInt b =>
      e ← new_CollIndexExpr (BaseInt (b - v)) [];
      Ok (Some e)
  | BaseStr _ =>
      if v =? 0 then Ok (Some self)
      else
        let new_ops :=
          if last_is_sub (ops self)
          then match last (ops self) with
               | Some (_, u) => removelast (ops self) ++ [("-", u + v)]
               | None => ops self
               end
          else ops self ++ [("-", v)] in
        result ← new_CollIndexExpr (base_expr self) new_ops;
        Ok None
  end.

(** [CollIndexExpr.__truediv__], the sibling that does return. *)
Definition truediv (self : CollIndexExpr) (v : Z) : result CollIndexExpr :=
  match base_expr self with
  | BaseInt b =>
      if v =? 0 then Raise ZeroDivisionError
      else new_CollIndexExpr (BaseInt (b / v)) []
  | BaseStr _ =>
      if v =? 1 then Ok self
      else
        let new_ops :=
          match last (ops self) with
          | Some (op, u) =>
              if String.eqb op "/"
              then removelast (ops self) ++ [("/", u * v)]
              else ops self ++ [("/", v)]
          | None => ops self ++ [("/", v)]
          end in
        new_CollIndexExpr (base_expr self) new_ops
  end.

(** The names bound at the top level of the module. *)
Definition module_names : list string :=
  [ "annotations"; "Fraction"; "Dict"; "Optional"; "Tuple";
    "CollParam"; "CollSizeExpr"; "blockDim_param"; "blockDim";
    "clusterDim_param"; "clusterDim"; "int_tuple"; "CollUnit";
    "CollSpecialize"; "CollIndexExpr"; "CollTiling"; "DomainCompletionOp" ].

Section specialized.
(** Python objects, the tilings and the specializations are kept
    abstract; so is what [specialized] would do with the method and
    with [env]. *)
Variable pyobj : Type.
Variable CollTiling CollSpecialize : Type.
Variable builtins : gmap string pyobj.
Variable globals : gmap string pyobj.
Variable getattr : CollSpecialize -> string -> option pyobj.
Variable rest : CollTiling -> CollSpecialize -> pyobj -> pyobj -> result unit.

(** A name that is neither a parameter nor assigned in the body of
    a function is a global of its module: it is looked up in the
    globals and then in the builtins. *)
Definition load_global (x : string) : result pyobj :=
  match globals !! x with
  | Some v => Ok v
  | None =>
      match builtins !! x with
      | Some v => Ok v
      | None => Raise (NameError x)
      end
  end.

(** [o.a]: the attribute of an object, whatever its class. *)
Definition load_attr (o : CollSpecialize) (a : string) : result pyobj :=
  match getattr o a with
  | Some v => Ok v
  | None => Raise (AttributeError a)
  end.

(** [CollTiling.specialized]: its first statement is the call
    [spec.int_partial_domain(env)], which loads the method of [spec]
    and then evaluates the argument, the name [env], which is not
    among its parameters [self] and [spec] and is never assigned in
    its body. *)
Definition specialized (self : CollTiling) (spec : CollSpecialize) : result unit :=
  method ← load_attr spec "int_partial_domain";
  env ← load_global "env";
  rest self spec method env.

End specialized.

(** [CollIndexExpr.__mod__].  Python's [%] raises on a zero divisor,
    also in the two tests for a merge with a prior modulo. *)
Definition mod_ (self : CollIndexExpr) (v : Z) : result CollIndexExpr :=
  match base_expr self with
  | BaseInt b =>
      if v =? 0 then Raise ZeroDivisionError
      else new_CollIndexExpr (BaseInt (b mod v)) []
  | BaseStr _ =>
      if v =? 1 then new_CollIndexExpr (BaseInt 0) []
      else
        let appended := new_CollIndexExpr (base_expr self) (ops self ++ [("%", v)]) in
        match last (ops self) with
        | Some (op, u) =>
            if String.eqb op "%" then
              if v =? 0 then Raise ZeroDivisionError
              else if u mod v =? 0 then
                new_CollIndexExpr (base_expr self) (removelast (ops self) ++ [("%", v)])
              else if u =? 0 then Raise ZeroDivisionError
              else if v mod u =? 0 then
                new_CollIndexExpr (base_expr self) (removelast (ops self) ++ [("%", u)])
              else appended
            else appended
        | None => appended
        end
  end.

(** [CollIndexExpr.__floordiv__] *)
Definition floordiv (self : CollIndexExpr) (v : Z) : result CollIndexExpr :=
  truediv self v.

(** *** The value of an index expression

    [_codegen_impl] writes the operators one after the other, from left
    to right, each applied to the text so far (which it parenthesizes
    after a subtraction); in C, [/] and [%] on [int] truncate and are
    undefined on a zero divisor.  A constant stands for itself. *)
Definition apply_op (acc : option Z) (o : string * Z) : option Z :=
  match acc with
  | None => None
  | Some x =>
      let '(op, v) := o in
      if String.eqb op "-" then Some (x - v)
      else if String.eqb op "/" then (if v =? 0 then None else Some (Z.quot x v))
      else if String.eqb op "%" then (if v =? 0 then None else Some (Z.rem x v))
      else None
  end.

Definition eval (rho : string -> Z) (e : CollIndexExpr) : option Z :=
  match base_expr e with
  | BaseInt b => fold_left apply_op (ops e) (Some b)
  | BaseStr s => fold_left apply_op (ops e) (Some (rho s))
  end.

(** *** CollSizeExpr

    [fractions.Fraction] keeps a fraction in lowest terms with a
    positive denominator. *)
Record Fraction : Type := mkFraction_raw { numerator : Z; denominator : Z }.

(** [Fraction(n, d)] *)
Definition mkFraction (n d : Z) : result Fraction :=
  if d =? 0 then Raise ZeroDivisionError
  else
    let g := Z.gcd n d in
    let g := if d <? 0 then - g else g in
    Ok (mkFraction_raw (n / g) (d / g)).

(** [Fraction(n)] of an [int] *)
Definition Fraction_of_int (n : Z) : Fraction := mkFraction_raw n 1.

Definition Fraction_mul (a b : Fraction) : result Fraction :=
  mkFraction (numerator a * numerator b) (denominator a * denominator b).

Definition Fraction_div (a b : Fraction) : result Fraction :=
  mkFraction (numerator a * denominator b) (denominator a * numerator b).

(** A parameter is an object with a name; as a key of a dictionary
    it is itself, whatever its name. *)
Record CollParam : Type := mkCollParam { param_name : string; param_id : positive }.

Record CollSizeExpr : Type := mkCollSizeExpr {
  scalar : Fraction;
  coll_params : list CollParam
}.

(** [CollSizeExpr.__call__]: the numerator times the values of the
    parameters must be a multiple of the denominator. *)
Fixpoint scale (env : gmap positive Z) (ps : list CollParam) (n : Z) : result Z :=
  match ps with
  | [] => Ok n
  | p :: ps' =>
      match env !! param_id p with
      | Some v => scale env ps' (n * v)
      | None => Raise (KeyError (param_name p +:+ "_param"))
      end
  end.

Definition call (self : CollSizeExpr) (env : gmap positive Z) : result Z :=
  n ← scale env (coll_params self) (numerator (scalar self));
  if negb (n mod denominator (scalar self) =? 0)
  then Raise (AssertionError EmptyString)
  else Ok (n / denominator (scalar self)).

(** [CollSizeExpr.__mul__], on another size expression and on a number. *)
Definition mul (self other : CollSizeExpr) : result CollSizeExpr :=
  f ← Fraction_mul (scalar self) (scalar other);
  Ok (mkCollSizeExpr f (coll_params self ++ coll_params other)).

Definition mul_int (self : CollSizeExpr) (other : Z) : result CollSizeExpr :=
  f ← Fraction_mul (Fraction_of_int other) (scalar self);
  Ok (mkCollSizeExpr f (coll_params self)).

(** [CollSizeExpr.__truediv__] and [__floordiv__], which are the same
    exact division. *)
Definition size_truediv (self : CollSizeExpr) (other : Z) : result CollSizeExpr :=
  f ← Fraction_div (scalar self) (Fraction_of_int other);
  Ok (mkCollSizeExpr f (coll_params self)).

Definition size_floordiv (self : CollSizeExpr) (other : Z) : result CollSizeExpr :=
  f ← Fraction_div (scalar self) (Fraction_of_int other);
  Ok (mkCollSizeExpr f (coll_params self)).

(** A fraction as [Fraction] keeps it. *)
Definition lowest_terms (f : Fraction) : Prop :=
  0 < denominator f /\ Z.gcd (numerator f) (denominator f) = 1.

End CollAlgebra.
(** *** Row-major layout *)

(** The strides of a dense tensor of the given sizes, innermost
    dimension last: each is the product of the sizes after it. *)
Fixpoint row_major (ns : list Z) : list Z :=
  match ns with
  | [] => []
  | _ :: ns' => fold_right Z.mul 1 ns' :: row_major ns'
  end.

(** The sum of the products of two lists, term by term. *)
Fixpoint dot (xs ys : list Z) : Z :=
  match xs, ys with
  | x :: xs', y :: ys' => x * y + dot xs' ys'
  | _, _ => 0
  end.

(** The index expressions of a list have the given integer values. *)
Definition denote_all (rho : valuation) (es : list CIR.expr) (vs : list Z) : Prop :=
  Forall2 (fun e v => denote rho e = Some v) es vs.
(** ** sanitize_str

    [re.sub] with the pattern for one non-word character: every
    character that is not a letter, a digit or an underscore is
    replaced by an underscore.  The text is taken to be ASCII: whether
    a character beyond code 127 is a word character is decided by the
    Unicode tables, so the function has no answer on such a text. *)

Definition is_word_char (c : ascii) : bool :=
  let n := nat_of_ascii c in
  ((48 <=? n) && (n <=? 57) || (65 <=? n) && (n <=? 90) ||
   (97 <=? n) && (n <=? 122) || (n =? 95))%nat.

Definition is_ascii_char (c : ascii) : bool := (nat_of_ascii c <? 128)%nat.

Fixpoint sanitize_str (s : string) : option string :=
  match s with
  | EmptyString => Some EmptyString
  | String c s' =>
      if is_ascii_char c then
        r ← sanitize_str s';
        Some (String (if is_word_char c then c else underscore) r)
      else None
  end.

(** The characters of a string are all word characters. *)
Fixpoint all_word (s : string) : bool :=
  match s with
  | EmptyString => true
  | String c s' => is_word_char c && all_word s'
  end.

Fixpoint all_ascii (s : string) : bool :=
  match s with
  | EmptyString => true
  | String c s' => is_ascii_char c && all_ascii s'
  end.
(** *** Index expressions without division

    Expressions built from reads, strides and [int] constants with
    [+], [-] (binary and unary) and [*]. *)
Fixpoint ring_expr (e : CIR.expr) : bool :=
  match e with
  | CIR.Read _ _ | CIR.Stride _ _ => true
  | CIR.Const (PyInt _) => true
  | CIR.Const _ => false
  | CIR.BinOp op l r _ =>
      match op with
      | Add | Sub | Mul => ring_expr l && ring_expr r
      | _ => false
      end
  | CIR.USub a _ => ring_expr a
  end.
(** ** Loop modes (src/exo/spork/loop_mode.py) *)

Module LoopModes.

(** A loop mode: its name, its place in the nesting of the CUDA
    programming model if it has one, and its other attributes. *)
Record LoopMode : Type := mkLoopMode {
  loop_mode_name : string;
  cuda_nesting : option Z;
  attrs : list (string * Z)
}.

Definition Seq : LoopMode := mkLoopMode "seq" None [].
Definition Par : LoopMode := mkLoopMode "par" None [].
Definition CudaClusters (blocks : Z) : LoopMode :=
  mkLoopMode "cuda_clusters" (Some 2) [("blocks", blocks)].
Definition CudaBlocks (warps : Z) : LoopMode :=
  mkLoopMode "cuda_blocks" (Some 3) [("warps", warps)].
Definition CudaWarpgroups : LoopMode := mkLoopMode "cuda_warpgroups" (Some 4) [].
Definition CudaWarps : LoopMode := mkLoopMode "cuda_warps" (Some 5) [].
Definition CudaThreads : LoopMode := mkLoopMode "cuda_threads" (Some 6) [].

(** [LoopMode.cuda_can_nest_in] *)
Definition cuda_can_nest_in (self other : LoopMode) : result bool :=
  match cuda_nesting self with
  | None => Raise (AssertionError EmptyString)
  | Some a =>
      Ok (match cuda_nesting other with
          | Some b => b <? a
          | None => false
          end)
  end.

(** [format_loop_cond] *)
Definition format_loop_cond (lo_str hi_str : string) (loop_mode : LoopMode) : string :=
  String.concat EmptyString
    ([loop_mode_name loop_mode; "("; lo_str; ","; hi_str] ++
     map (fun '(attr, v) => "," +:+ attr +:+ "=" +:+ pretty v) (attrs loop_mode) ++
     [")"]).

(** The CUDA loop modes, outermost first. *)
Definition cuda_modes (blocks warps : Z) : list LoopMode :=
  [CudaClusters blocks; CudaBlocks warps; CudaWarpgroups; CudaWarps; CudaThreads].

End LoopModes.
(** ** The entry points: _compile_context_struct, ext_compile_to_strings
     and run_compile *)

(** [sorted(l, key=...)] on keys that are strings: a stable sort by
    the order of the code points. *)
Section sorted_by.
Context {A : Type} (key : A -> string).

Fixpoint insert_by (x : A) (l : list A) : list A :=
  match l with
  | [] => [x]
  | y :: l' =>
      if String.ltb (key x) (key y) then x :: y :: l' else y :: insert_by x l'
  end.

Definition sorted_by (l : list A) : list A :=
  fold_left (fun acc x => insert_by x acc) l [].

End sorted_by.

(** [str.upper] is [upper]; [chr(10).join] is [from_lines]. *)
Definition from_lines (x : list string) : string := String.concat NL x.

(** A configuration: its name, whether it is materialized in the
    context struct, and the lines of its C struct. *)
Record Config : Type := mkConfig {
  config_name : string;
  is_allow_rw : bool;
  c_struct_def : list string
}.

(** The loop of [_compile_context_struct] over the sorted configs. *)
Fixpoint context_lines (configs : list Config) (seen : gset string)
    (ctxt_def : list string) : result (list string) :=
  match configs with
  | [] => Ok ctxt_def
  | c :: configs' =>
      let name := config_name c in
      if bool_decide (name ∈ seen)
      then Raise (TypeError ("multiple configs named " +:+ name))
      else
        context_lines configs' ({[ name ]} ∪ seen)
          (if is_allow_rw c
           then ctxt_def ++ map (fun line => "    " +:+ line) (c_struct_def c)
                         ++ [EmptyString]
           else ctxt_def ++ ["// config '" +:+ name +:+ "' not materialized";
                             EmptyString])
  end.

Definition _compile_context_struct (configs : list Config) (lib_name : string)
    : result (string * list string) :=
  match configs with
  | [] => Ok ("void", [])
  | _ =>
      let ctxt_name := lib_name +:+ "_Context" in
      ctxt_def ← context_lines (sorted_by config_name configs) ∅
                   ["typedef struct " +:+ ctxt_name +:+ " { "; EmptyString];
      Ok (ctxt_name, ctxt_def ++ ["} " +:+ ctxt_name +:+ ";"])
  end.

(** What the compilation of one procedure leaves for the library: the
    declaration and the definition of [comp_top], the window structs,
    the helpers, the kernels of the spork backend and the lines for
    the other files. *)
Record CompOut : Type := mkCompOut {
  cpu_d : string;
  cpu_b : string;
  out_struct_defns : gset WindowStruct;
  out_needed_helpers : gset string;
  spork_decls : list string;
  spork_defs : list string;
  out_ext_lines : list (string * list string)
}.

(** The state of the loop of [ext_compile_to_strings] over the
    procedures; [comp] is the variable of that name, unbound until a
    procedure is compiled. *)
Record LibState : Type := mkLibState {
  seen_procs : gset string;
  struct_defns : gset WindowStruct;
  public_fwd_decls : list string;
  private_fwd_decls : list string;
  proc_bodies : list string;
  instrs_global : list string;
  analyzed_proc_list : list LoopIR.proc;
  lib_needed_helpers : gset string;
  comp : option CompOut
}.

Definition lib_init : LibState := mkLibState ∅ ∅ [] [] [] [] [] ∅ None.

(** The fixed part of the header; character 92 is the backslash that
    continues a line of the preprocessor. *)
Definition header_prelude : list string :=
  [ EmptyString;
    "#include <stdint.h>";
    "#include <stdbool.h>";
    EmptyString;
    "// Compiler feature macros adapted from Hedley (public domain)";
    "// https://github.com/nemequ/hedley";
    EmptyString;
    "#if defined(__has_builtin)";
    "#  define EXO_HAS_BUILTIN(builtin) __has_builtin(builtin)";
    "#else";
    "#  define EXO_HAS_BUILTIN(builtin) (0)";
    "#endif";
    EmptyString;
    "#if EXO_HAS_BUILTIN(__builtin_assume)";
    "#  define EXO_ASSUME(expr) __builtin_assume(expr)";
    "#elif EXO_HAS_BUILTIN(__builtin_unreachable)";
    "#  define EXO_ASSUME(expr) " +:+ String (ascii_of_nat 92) EmptyString;
    "      ((void)((expr) ? 1 : (__builtin_unreachable(), 1)))";
    "#else";
    "#  define EXO_ASSUME(expr) ((void)(expr))";
    "#endif";
    EmptyString ].

Section entry.
Import LoopIR.

(** The order of iteration over a set, for the procedures and for the
    helpers. *)
Variable set_order : gset proc_ref -> list proc_ref.
Variable helper_order : gset string -> list string.
Variable struct_order : gset WindowStruct -> list WindowStruct.

(** The procedures are objects of a heap. *)
Variable h : heap.

(** [find_all_configs], [_compile_memories] of [find_all_mems], and
    [_compile_externs] of [find_all_externs], on lists of procedures. *)
Variable find_all_configs : list proc -> list Config.
Variable memory_code_of : list proc -> list string.
Variable extern_code_of : list proc -> list string.

(** The four analyses and the compiler, run on one procedure: the
    analyzed procedure and what the compiler leaves, or an error. *)
Variable compile_proc : string -> proc -> bool -> result (proc * CompOut).

(** The body of the loop over the procedures. *)
Definition lib_step (ctxt_name : string) (orig_procs : list proc_ref)
    (st : LibState) (rp : proc_ref * proc) : result LibState :=
  let '(r, p) := rp in
  if bool_decide (name p ∈ seen_procs st)
  then Raise (TypeError ("multiple procs named " +:+ name p))
  else
    let seen := {[ name p ]} ∪ seen_procs st in
    match instr p with
    | Some i =>
        let argstr := String.concat "," (map (fun a => sym_name (arg_name a)) (args p)) in
        Ok (mkLibState seen (struct_defns st) (public_fwd_decls st)
              (private_fwd_decls st)
              (proc_bodies st ++
               [ EmptyString;
                 "/* relying on the following instruction..."
                   +:+ String (ascii_of_nat 34) EmptyString;
                 name p +:+ "(" +:+ argstr +:+ ")";
                 c_instr i;
                 "*/" ])
              (match c_global i with
               | EmptyString => instrs_global st
               | g => instrs_global st ++ [g]
               end)
              (analyzed_proc_list st) (lib_needed_helpers st) (comp st))
    | None =>
        let is_public_decl := bool_decide (r ∈ orig_procs) in
        '(p', c) ← compile_proc ctxt_name p is_public_decl;
        Ok (mkLibState seen
              (struct_defns st ∪ out_struct_defns c)
              (if is_public_decl then public_fwd_decls st ++ [cpu_d c]
               else public_fwd_decls st)
              ((if is_public_decl then private_fwd_decls st
                else private_fwd_decls st ++ [cpu_d c]) ++ spork_decls c)
              (proc_bodies st ++ [cpu_b c] ++
               flat_map (fun gpu_b => ["namespace {"; gpu_b; "}"]) (spork_defs c))
              (instrs_global st)
              (analyzed_proc_list st ++ [p'])
              (lib_needed_helpers st ∪ out_needed_helpers c)
              (Some c))
    end.

Fixpoint lib_loop (ctxt_name : string) (orig_procs : list proc_ref)
    (procs : list (proc_ref * proc)) (st : LibState) : result LibState :=
  match procs with
  | [] => Ok st
  | rp :: procs' =>
      st' ← lib_step ctxt_name orig_procs st rp;
      lib_loop ctxt_name orig_procs procs' st'
  end.

Definition ext_compile_to_strings (lib_name : string) (proc_list : list proc_ref)
    : result (string * string * list (string * list string)) :=
  subprocs ← find_all_subprocs set_order h proc_list;
  objs ← mapR (fun r => p ← callee h r; Ok (r, p)) subprocs;
  let procs := sorted_by (fun rp => name rp.2) objs in
  '(ctxt_name, ctxt_def) ←
    _compile_context_struct (find_all_configs (map snd procs)) lib_name;
  let memory_code := memory_code_of (map snd procs) in
  st ← lib_loop ctxt_name proc_list procs lib_init;
  let struct_lines :=
    map definition (sorted_by ws_name (struct_order (struct_defns st))) in
  let header_contents :=
    from_lines (header_prelude ++
                [from_lines ctxt_def; from_lines struct_lines;
                 from_lines (public_fwd_decls st); EmptyString]) in
  let extern_code := extern_code_of (analyzed_proc_list st) in
  helper_code ← helper_code helper_order (lib_needed_helpers st);
  let body_contents :=
    filter (fun x => x <> [])
      [helper_code; instrs_global st; memory_code; extern_code;
       private_fwd_decls st; proc_bodies st] in
  let body_contents := from_lines (map from_lines body_contents) +:+ NL in
  match comp st with
  | None => Raise (NameError "comp")
  | Some c => Ok (header_contents, body_contents, out_ext_lines c)
  end.

End entry.

(** *** run_compile *)

Section run_compile.

(** [ext_compile_to_strings], as above or any other. *)
Variable ext_compile :
  string -> list LoopIR.proc_ref ->
  result (string * string * list (string * list string)).

(** [ext_lines.get(ext)] on the dictionary, kept as the list of its
    items in the order of insertion. *)
Fixpoint ext_get (ext_lines : list (string * list string)) (ext : string)
    : option (list string) :=
  match ext_lines with
  | [] => None
  | (e, lines) :: rest => if String.eqb e ext then Some lines else ext_get rest ext
  end.

Definition join_ext_lines (ext_lines : list (string * list string)) (ext : string)
    : string :=
  match ext_get ext_lines ext with
  | Some (l :: lines) => String.concat NL ([NL] ++ (l :: lines) ++ [NL])
  | _ => EmptyString
  end.

Definition dquote : string := String (ascii_of_nat 34) EmptyString.

(** The loop that gathers the files other than [.c] and [.h]; [text]
    is the variable of that name, unbound until an extension sets it.
    The [assert] of the last arm is on a string that is not empty, so
    it never fails. *)
Fixpoint gather (file_stem : string) (all_lines items : list (string * list string))
    (text : option string) (ext_snippets : gmap string string)
    : result (gmap string string) :=
  match items with
  | [] => Ok ext_snippets
  | (ext, _) :: rest =>
      if String.eqb ext "c" || String.eqb ext "h"
      then gather file_stem all_lines rest text ext_snippets
      else
        let text :=
          if String.eqb ext "cuh" then
            Some ("#pragma once" +:+ NL +:+ "#include " +:+ dquote +:+ file_stem
                  +:+ ".h" +:+ dquote +:+ NL +:+ join_ext_lines all_lines "cuh")
          else if String.eqb ext "cu" then
            Some ("#include " +:+ dquote +:+ file_stem +:+ ".cuh" +:+ dquote +:+ NL
                  +:+ join_ext_lines all_lines "cu")
          else text in
        match text with
        | None => Raise (NameError "text")
        | Some t => gather file_stem all_lines rest text (<[ ext := t ]> ext_snippets)
        end
  end.

(** [run_compile] on a file stem whose sanitized name is [lib_name]. *)
Definition run_compile_as (lib_name : string) (proc_list : list LoopIR.proc_ref)
    (file_stem : string) : result (gmap string string) :=
  '(fwd_decls, body, ext_lines) ← ext_compile lib_name proc_list;
  let source :=
    "#include " +:+ dquote +:+ file_stem +:+ ".h" +:+ dquote +:+ NL +:+
    join_ext_lines ext_lines "c" +:+ NL +:+ body in
  let header_guard := upper (lib_name +:+ "_H") in
  let header :=
    from_lines
      [ EmptyString;
        "#pragma once";
        "#ifndef " +:+ header_guard;
        "#define " +:+ header_guard;
        EmptyString;
        "#ifdef __cplusplus";
        "extern " +:+ dquote +:+ "C" +:+ dquote +:+ " {";
        "#endif";
        join_ext_lines ext_lines "h";
        fwd_decls;
        EmptyString;
        "#ifdef __cplusplus";
        "}";
        "#endif";
        "#endif  // " +:+ header_guard;
        EmptyString ] in
  gather file_stem ext_lines ext_lines None
    (<[ "h" := header ]> {[ "c" := source ]}).

(** [run_compile]; it has no answer here on a file stem that is not
    ASCII, on which [sanitize_str] has none. *)
Definition run_compile (proc_list : list LoopIR.proc_ref) (file_stem : string)
    : option (result (gmap string string)) :=
  lib_name ← sanitize_str file_stem;
  Some (run_compile_as lib_name proc_list file_stem).

End run_compile.

(** ** An index range environment

    Modelled from the spec: the index-range environment of section 4.2
    ([rewrite/range_analysis.py]): stacked scopes keyed by symbol, each
    recording the bounds of a loop iterator or size; an expression is
    evaluated to an interval by interval arithmetic over affine terms,
    and it is provably non-negative when the lower end of its interval
    is.  The compiler takes the environment as a parameter; this one
    is used to instantiate it on examples. *)

Module IntervalRange.
Import LoopIR.

(** Inclusive bounds; [None] stands for no bound on that side. *)
Definition interval : Type := option Z * option Z.

Definition t : Type := list (gmap positive interval).

Definition enter_scope (r : t) : t := new_child r.
Definition exit_scope (r : t) : t := parents r.

(** [for i in [lo, hi)] with constant ends. *)
Definition add_range (x : Sym) (lo hi : Z) (r : t) : t :=
  chain_set (sym_id x) (Some lo, Some (hi - 1)) r.

Definition unbounded : interval := (None, None).

Definition opp_interval (i : interval) : interval :=
  (Z.opp <$> i.2, Z.opp <$> i.1).

Definition add_interval (a b : interval) : interval :=
  (l1 ← a.1; l2 ← b.1; Some (l1 + l2), h1 ← a.2; h2 ← b.2; Some (h1 + h2)).

(** Scaling by a constant, and flooring division by a positive one. *)
Definition scale_interval (k : Z) (i : interval) : interval :=
  if 0 <=? k
  then ((fun l => k * l) <$> i.1, (fun h => k * h) <$> i.2)
  else ((fun h => k * h) <$> i.2, (fun l => k * l) <$> i.1).

Definition div_interval (i : interval) (k : Z) : interval :=
  if 0 <? k
  then ((fun l => l / k) <$> i.1, (fun h => h / k) <$> i.2)
  else unbounded.

Definition const_of (e : expr) : option Z :=
  match e with
  | Const (PyInt z) _ => Some z
  | _ => None
  end.

Fixpoint bounds (r : t) (e : expr) : interval :=
  match e with
  | Read x _ _ _ => default unbounded (chain_lookup (sym_id x) r)
  | Const (PyInt z) _ => (Some z, Some z)
  | USub a _ => opp_interval (bounds r a)
  | BinOp Add a b _ => add_interval (bounds r a) (bounds r b)
  | BinOp Sub a b _ => add_interval (bounds r a) (opp_interval (bounds r b))
  | BinOp Mul a b _ =>
      match const_of a, const_of b with
      | Some k, _ => scale_interval k (bounds r b)
      | _, Some k => scale_interval k (bounds r a)
      | _, _ => unbounded
      end
  | BinOp Div a b _ =>
      match const_of b with
      | Some k => div_interval (bounds r a) k
      | None => unbounded
      end
  | _ => unbounded
  end.

(** [check_expr_bound(0, leq, e)]: zero is at most [e]. *)
Definition check_non_neg (r : t) (e : expr) : bool :=
  match (bounds r e).1 with
  | Some l => 0 <=? l
  | None => false
  end.

End IntervalRange.

(** ** What compiling an expression leaves untouched

    Two states of the compiler that differ at most in the helpers and
    in the window structs that were asked for. *)
Definition same_but_needed {range_env : Type} (st st' : Compiler range_env) : Prop :=
  exists hs ws, st' = set_window_defns ws (set_needed_helpers hs st).

(** ** Example programs

    Small concrete inputs on which the theorems are instantiated. *)

Module Examples.
Import LoopIR.

Definition i32_const (z : Z) : expr := Const (PyInt z) (Prim Index).

(** A static memory, in the manner of a register file. *)
Definition AVX_REG : Memory := mkMemory "AVX_REG" true true false.

Definition sym_x : Sym := mkSym "x" 1.
Definition sym_i : Sym := mkSym "i" 2.

(** [leaf] is a plain procedure with an empty body; [caller] allocates
    a static buffer and calls [leaf] from inside a loop. *)
Definition leaf : proc := mkProc "leaf" [] [] [Pass] None.

Definition caller : proc :=
  mkProc "caller" [] []
    [ Alloc sym_x (Prim F32) (Some AVX_REG) "caller.py:3";
      For sym_i (i32_const 0) (i32_const 8) Seq [ Call 2%positive [] ] ]
    None.

Definition caller_heap : heap := {[ 1%positive := caller; 2%positive := leaf ]}.

(** A compiler object before any name is introduced. *)
Definition new_compiler {R : Type} (r : R) : Compiler R :=
  mkCompiler R chain_new r chain_new ∅ ∅ EmptyString [] ∅ ∅ ∅ ∅ ∅.

(** The state after [m], or [st] itself when [m] raises. *)
Definition exec {R A} (m : M R A) (st : Compiler R) : Compiler R :=
  match m st with
  | Ok (_, st') => st'
  | Raise _ => st
  end.

(** Example capabilities: the printing of floats is not exercised, the
    C names of the types are the usual ones, and the memory hooks are
    those of plain C arrays. *)
Definition float_repr (f : float) : string := "<float>".

Definition ctype (p : prim) : string :=
  match p with
  | F16 => "_Float16" | F32 => "float" | F64 => "double"
  | I8 => "int8_t" | UI8 => "uint8_t" | UI16 => "uint16_t" | I32 => "int32_t"
  | Bool => "bool"
  | _ => "int_fast32_t"
  end.

Definition mem_write (m : Memory) (s : stmt) (lhs rhs : string) : result string :=
  Ok (lhs +:+ " = " +:+ rhs +:+ ";").

Definition mem_reduce (m : Memory) (s : stmt) (lhs rhs : string) : result string :=
  Ok (lhs +:+ " += " +:+ rhs +:+ ";").

Definition mem_window (m : Memory) (basetyp : typ) (baseptr : string)
    (indices strides : list string) (srcinfo : string) : result string :=
  let offset :=
    String.concat " + "
      (map (fun '(i, s) => paren i +:+ " * " +:+ paren s) (zip indices strides)) in
  let baseptr := if is_win basetyp then baseptr +:+ ".data" else baseptr in
  Ok (baseptr +:+ "[" +:+ offset +:+ "]").

Definition extern_compile (f : string) (a : list string) (ct : string) : result string :=
  Ok (f +:+ "(" +:+ String.concat ", " a +:+ ")").

Definition config_allow_rw (c : string) : bool := true.

(** [x] ranges over [-8, 0]; the compiler object knows it as an index. *)
Definition range_x : IntervalRange.t :=
  IntervalRange.add_range sym_x (-8) 1 chain_new.

Definition compiler_x : Compiler IntervalRange.t :=
  exec (new_varname sym_x (Some (Prim Index)) None) (new_compiler range_x).

Definition read_x : expr := Read sym_x [] (Prim Index) "ex.py:1".
Definition neg_x : expr := USub read_x (Prim Index).
Definition neg_x_div_8 : expr := BinOp Div neg_x (i32_const 8) (Prim Index).

(** [A] is an 8 by 16 tensor of floats in DRAM; [window_A] is the
    window [A[0:8, 4]], of rank one. *)
Definition sym_A : Sym := mkSym "A" 3.

Definition tensor_A : typ := Tensor [i32_const 8; i32_const 16] false F32.

Definition compiler_A : Compiler IntervalRange.t :=
  exec (new_varname sym_A (Some tensor_A) None) (new_compiler range_x).

Definition slice_A : list w_access :=
  [ Interval (i32_const 0) (i32_const 8); Point (i32_const 4) ].

Definition window_A_type : typ :=
  Window tensor_A (Tensor [i32_const 8] true F32) sym_A slice_A.

Definition window_A : expr := WindowExpr sym_A slice_A window_A_type "ex.py:2".

(** [w] is a vector in a memory that cannot be read. *)
Definition WRITE_ONLY : Memory := mkMemory "WRITE_ONLY" false false false.

Definition sym_w : Sym := mkSym "w" 4.

Definition compiler_w : Compiler IntervalRange.t :=
  exec (new_varname sym_w (Some (Tensor [i32_const 8] false F32)) (Some WRITE_ONLY))
       (new_compiler range_x).

Definition read_w : expr := Read sym_w [i32_const 0] (Prim F32) "ex.py:3".

(** The statement [A[2, 3] = 1.0]. *)
Definition assign_A : stmt :=
  Assign sym_A (Prim F32) [i32_const 2; i32_const 3] (Const (PyFloat 1%float) (Prim F32)).

(** The read of [A[2, 3]]. *)
Definition read_A : expr := Read sym_A [i32_const 2; i32_const 3] (Prim F32) "ex.py:5".

(** A memory that is [CudaRmem] and does not allow reads, and a vector
    [r] in it. *)
Definition CUDA_RMEM : Memory := mkMemory "CudaRmem" false false true.

Definition sym_r : Sym := mkSym "r" 6.

Definition compiler_r : Compiler IntervalRange.t :=
  exec (new_varname sym_r (Some (Tensor [i32_const 8] false F32)) (Some CUDA_RMEM))
       (new_compiler range_x).

Definition read_r : expr := Read sym_r [i32_const 0] (Prim F32) "ex.py:4".

(** Capabilities that fail whenever they are called. *)
Definition no_window (m : Memory) (basetyp : typ) (baseptr : string)
    (indices strides : list string) (srcinfo : string) : result string :=
  Raise (NotImplementedError "window").

Definition no_extern (f : string) (a : list string) (ct : string) : result string :=
  Raise (NotImplementedError "compile").

(** A procedure that calls itself. *)
Definition recursive : proc := mkProc "recursive" [] [] [ Call 1%positive [] ] None.

Definition recursive_heap : heap := {[ 1%positive := recursive ]}.

(** [main] calls [rec_step], and [rec_step] calls itself. *)
Definition main : proc := mkProc "main" [] [] [ Call 2%positive [] ] None.

Definition rec_step : proc := mkProc "rec_step" [] [] [ Call 2%positive [] ] None.

Definition main_heap : heap := {[ 1%positive := main; 2%positive := rec_step ]}.

(** Three symbols, two of them of one name and the third of the name
    that the second is given; and two symbols of a name that ends in
    an underscore. *)
Definition syms_x_x_x1 : list Sym := [ mkSym "x" 1; mkSym "x" 2; mkSym "x_1" 3 ].

Definition sym_u1 : Sym := mkSym "x_" 8.
Definition sym_u2 : Sym := mkSym "x_" 9.

(** A stand-in for the compiler of one procedure: a declaration, a
    body, and one line for a file [cuh]. *)
Definition compile_stub (ctxt_name : string) (p : proc) (is_public : bool)
    : result (proc * CompOut) :=
  Ok (p, mkCompOut ("void " +:+ name p +:+ "( " +:+ ctxt_name +:+ " *ctxt );")
                   ("void " +:+ name p +:+ "( " +:+ ctxt_name +:+ " *ctxt ) {}")
                   ∅ ∅ [] [] [("cuh", ["// " +:+ name p])]).

Definition library : result (string * string * list (string * list string)) :=
  ext_compile_to_strings elements elements elements caller_heap
    (fun _ => []) (fun _ => []) (fun _ => []) compile_stub "lib" [1%positive].

Definition library_out : string * string * list (string * list string) :=
  Eval vm_compute in
    match library with
    | Ok r => r
    | Raise _ => (EmptyString, EmptyString, [])
    end.

(** A library with a file of an extension that is not known. *)
Definition ext_compile_ptx (lib_name : string) (proc_list : list proc_ref)
    : result (string * string * list (string * list string)) :=
  Ok ("void f();", "void f() {}", [("ptx", ["// f"])]).

End Examples.

(** * Theorems *)

(** ** Running a computation of the compiler on an example *)

Lemma exec_ok {R A} (m : M R A) (st : Compiler R) (a : A) :
  fst <$> m st = Ok a -> m st = Ok (a, Examples.exec m st).
Proof.
  unfold Examples.exec. destruct (m st) as [[a' st']|e]; simpl; congruence.
Qed.

(** ** simplify_cir *)

Section simplify_facts.
Import CIR.

Ltac split_chain :=
  repeat match goal with
         | |- context [if ?c then _ else _] => destruct c eqn:?
         | |- context [match ?o with Add => _ | _ => _ end] => destruct o
         end.

(** Whatever [simplify_binop] returns is a constant, one of the two
    operands, or the rebuilt node. *)
Lemma simplify_binop_cases op lhs rhs nn e' :
  simplify_binop op lhs rhs nn = Ok e' ->
  (exists v, e' = Const v) \/ e' = lhs \/ e' = rhs \/ e' = BinOp op lhs rhs nn.
Proof.
  unfold simplify_binop, falls.
  destruct (const_val lhs) as [a|] eqn:Ha; [destruct (const_val rhs) as [b|] eqn:Hb|].
  - destruct (operations op) as [f|]; simpl; [|discriminate].
    destruct (f a b); simpl; [intros [= <-]; eauto | discriminate].
  - split_chain; intros H; inversion H; eauto.
  - split_chain; intros H; inversion H; eauto.
Qed.

Lemma simplify_usub_plain arg nn :
  plain arg = true -> simplify_usub arg nn = Ok (USub arg nn).
Proof. destruct arg; simpl; congruence. Qed.

Lemma bind_ok_inv {A B} (m : result A) (f : A -> result B) b :
  m ≫= f = Ok b -> exists a, m = Ok a /\ f a = Ok b.
Proof. destruct m; simpl; [eauto | discriminate]. Qed.

(** Simplification never grows an expression. *)
Lemma simplify_cir_size e e' :
  simplify_cir e = Ok e' -> (cir_size e' <= cir_size e)%nat.
Proof.
  revert e'. induction e as [x nn|x d|v|op l IHl r IHr nn|a IHa nn]; intros e' H;
    try (injection H as <-; simpl; lia).
  - simpl in H.
    apply bind_ok_inv in H as (lhs & Hl & H).
    apply bind_ok_inv in H as (rhs & Hr & H).
    specialize (IHl _ Hl). specialize (IHr _ Hr).
    destruct (simplify_binop_cases _ _ _ _ _ H) as [ [v ->] | [ -> | [ -> | -> ] ] ];
      simpl; lia.
  - simpl in H.
    apply bind_ok_inv in H as (arg & Ha & H).
    specialize (IHa _ Ha).
    destruct arg; simpl in H; injection H as <-; simpl in *; lia.
Qed.

Lemma simplify_cir_settled e e' : simplify_cir e = Ok e' -> settled e'.
Proof.
  revert e'. induction e as [x nn|x d|v|op l IHl r IHr nn|a IHa nn]; intros e' H.
  - injection H as <-. split; reflexivity.
  - injection H as <-. split; reflexivity.
  - injection H as <-. split; reflexivity.
  - simpl in H.
    apply bind_ok_inv in H as (lhs & Hl & H).
    apply bind_ok_inv in H as (rhs & Hr & H).
    destruct (IHl _ Hl) as [Fl Pl], (IHr _ Hr) as [Fr Pr].
    destruct (simplify_binop_cases _ _ _ _ _ H) as [ [v ->] | [ -> | [ -> | -> ] ] ].
    + split; reflexivity.
    + split; assumption.
    + split; assumption.
    + split; [|exact I]. simpl. rewrite Fl, Fr. simpl. exact H.
  - simpl in H.
    apply bind_ok_inv in H as (arg & Ha & H).
    destruct (IHa _ Ha) as [Fa Pa].
    destruct arg as [x n|x d|v|op l r n|b n]; simpl in H; injection H as <-.
    + split; reflexivity.
    + split; reflexivity.
    + split; reflexivity.
    + split; [|reflexivity]. simpl. simpl in Fa. rewrite Fa. reflexivity.
    + (* the operand simplified to [USub b n]: the result is [b] *)
      simpl in Fa.
      apply bind_ok_inv in Fa as (b' & Hb & Fa).
      pose proof (simplify_cir_size _ _ Hb) as Hsz.
      assert (b' = b) as ->.
      { destruct b'; simpl in Fa; try congruence.
        injection Fa as ->. simpl in Hsz. lia. }
      split; [exact Hb|]. destruct b; try exact I; discriminate Pa.
Qed.

(** C9.  [simplify_cir] is idempotent: simplifying its result again
    returns that result unchanged, and an input on which it raises
    raises again; so [simplify_cir(simplify_cir(e))] and
    [simplify_cir(e)] are the same outcome for every expression. *)
Theorem simplify_cir_idempotent (e : CIR.expr) :
  simplify_cir e ≫= simplify_cir = simplify_cir e.
Proof.
  destruct (simplify_cir e) as [e'|err] eqn:H; simpl; [|reflexivity].
  apply simplify_cir_settled in H. apply H.
Qed.

(** *** Meaning of the simplified expression *)

Ltac bool_hyps :=
  repeat match goal with
         | H0 : _ && _ = true |- _ => apply andb_prop in H0; destruct H0
         | H0 : _ || _ = true |- _ => apply orb_prop in H0; destruct H0
         | H0 : bool_decide (?x = ?y) = true |- _ =>
             apply bool_decide_eq_true in H0; first [discriminate H0 | subst x]
         end.

Lemma is_const0_denote rho e a :
  is_const0 e = true -> denote rho e = Some a -> a = 0.
Proof.
  destruct e as [| |[bb|z|f]| |]; simpl; try discriminate.
  intros Hz [= <-]. apply Z.eqb_eq in Hz. subst. auto.
Qed.

Lemma is_const1_denote rho e a :
  is_const1 e = true -> denote rho e = Some a -> a = 1.
Proof.
  destruct e as [| |[bb|z|f]| |]; simpl; try discriminate.
  intros Hz [= <-]. apply Z.eqb_eq in Hz. subst. auto.
Qed.

Lemma const_val_denote rho e v a :
  const_val e = Some v -> denote rho e = Some a -> e = Const (PyInt a).
Proof.
  destruct e as [| |[bb|z|f]| |]; simpl; try discriminate. congruence.
Qed.

Ltac use_const_facts rho lhs rhs a b Ha Hb :=
  repeat match goal with
         | H0 : is_const0 lhs = true |- _ =>
             apply (is_const0_denote rho _ a) in H0; [subst a|exact Ha]
         | H0 : is_const0 rhs = true |- _ =>
             apply (is_const0_denote rho _ b) in H0; [subst b|exact Hb]
         | H0 : is_const1 lhs = true |- _ =>
             apply (is_const1_denote rho _ a) in H0; [subst a|exact Ha]
         | H0 : is_const1 rhs = true |- _ =>
             apply (is_const1_denote rho _ b) in H0; [subst b|exact Hb]
         end.

Lemma simplify_binop_denote rho op lhs rhs nn e' a b v :
  (op = Div -> const_val lhs = None \/ const_val rhs = None) ->
  simplify_binop op lhs rhs nn = Ok e' ->
  denote rho lhs = Some a -> denote rho rhs = Some b ->
  int_op op a b = Some v ->
  denote rho e' = Some v.
Proof.
  intros Hdiv H Ha Hb Hv. unfold simplify_binop, falls in H.
  assert (forall x y : Z, Some x = Some v -> x = y -> Some y = Some v) as close
    by (intros; congruence).
  destruct (const_val lhs) as [va|] eqn:Hcl; [destruct (const_val rhs) as [vb|] eqn:Hcr|].
  - pose proof (const_val_denote _ _ _ _ Hcl Ha) as ->.
    pose proof (const_val_denote _ _ _ _ Hcr Hb) as ->.
    simpl in Hcl, Hcr. injection Hcl as <-. injection Hcr as <-.
    destruct op; simpl in H, Hv; try discriminate.
    + injection H as <-. exact Hv.
    + injection H as <-. exact Hv.
    + injection H as <-. exact Hv.
    + destruct (Hdiv eq_refl); discriminate.
    + unfold py_mod, py_arith in H. simpl in H.
      destruct (b =? 0); [discriminate|]. injection H as <-. exact Hv.
  - revert H. clear Hdiv.
    split_chain; bool_hyps; use_const_facts rho lhs rhs a b Ha Hb;
      intros [= <-]; simpl; rewrite ?Ha, ?Hb; simpl in Hv |- *;
      repeat match type of Hv with context [if ?c then _ else _] => destruct c eqn:? end;
      try discriminate; try exact Hv;
      try (eapply close; [exact Hv|]; rewrite ?Zdiv_0_l, ?Z.div_1_r; lia).
  - revert H. clear Hdiv.
    split_chain; bool_hyps; use_const_facts rho lhs rhs a b Ha Hb;
      intros [= <-]; simpl; rewrite ?Ha, ?Hb; simpl in Hv |- *;
      repeat match type of Hv with context [if ?c then _ else _] => destruct c eqn:? end;
      try discriminate; try exact Hv;
      try (eapply close; [exact Hv|]; rewrite ?Zdiv_0_l, ?Z.div_1_r; lia).
Qed.

(** As long as no division is folded, the simplified expression has
    the integer meaning of the input under every valuation. *)
Theorem simplify_cir_denote rho e e' v :
  no_folded_division e = true ->
  simplify_cir e = Ok e' ->
  denote rho e = Some v ->
  denote rho e' = Some v.
Proof.
  revert e' v. induction e as [x nn|x d|c|op l IHl r IHr nn|a IHa nn];
    intros e' v Hnf H Hv; try (injection H as <-; exact Hv).
  - simpl in H, Hv, Hnf.
    apply bind_ok_inv in H as (lhs & Hl & H).
    apply bind_ok_inv in H as (rhs & Hr & H).
    rewrite Hl, Hr in Hnf.
    apply andb_prop in Hnf as [Hnf Hfold]. apply andb_prop in Hnf as [Hnl Hnr].
    destruct (denote rho l) as [a|] eqn:Ha; [|discriminate].
    destruct (denote rho r) as [b|] eqn:Hb; [|discriminate].
    eapply simplify_binop_denote; eauto.
    intros ->. rewrite bool_decide_eq_true_2 in Hfold by reflexivity.
    destruct lhs; try (left; reflexivity).
    destruct rhs; try (right; reflexivity). discriminate Hfold.
  - simpl in H, Hv, Hnf.
    apply bind_ok_inv in H as (arg & Ha & H).
    destruct (denote rho a) as [w|] eqn:Hw; [|discriminate].
    injection Hv as <-.
    specialize (IHa _ _ Hnf Ha eq_refl).
    destruct arg as [x n|x d|[bb|z|f]|op l r n|b n]; simpl in H; injection H as <-;
      simpl in IHa |- *; try (rewrite IHa; reflexivity); try congruence.
    destruct (denote rho b) as [u|]; [|discriminate].
    injection IHa as <-. f_equal. lia.
Qed.

(** The identities [0+x = x], [x-0 = x], [0*x = 0], [1*x = x],
    [x/1 = x] and [-(-x) = x] on an operand that simplifies to a
    non-constant [x], and the fusion of [USub] into a constant. *)
Theorem simplify_cir_identities e x nn :
  simplify_cir e = Ok x -> const_val x = None ->
  simplify_cir (BinOp Add (Const (PyInt 0)) e nn) = Ok x /\
  simplify_cir (BinOp Sub e (Const (PyInt 0)) nn) = Ok x /\
  simplify_cir (BinOp Mul (Const (PyInt 0)) e nn) = Ok (Const (PyInt 0)) /\
  simplify_cir (BinOp Mul (Const (PyInt 1)) e nn) = Ok x /\
  simplify_cir (BinOp Div e (Const (PyInt 1)) nn) = Ok x /\
  (plain x = true -> forall n1, simplify_cir (USub (USub e n1) nn) = Ok x) /\
  (forall v, simplify_cir (USub (Const v) nn) = Ok (Const (py_neg v))).
Proof.
  intros H Hc. simpl. rewrite H. simpl.
  unfold simplify_binop, falls. simpl. rewrite Hc.
  assert (is_const0 x = false) as -> by (destruct x; try reflexivity; discriminate).
  assert (is_const1 x = false) as -> by (destruct x; try reflexivity; discriminate).
  simpl. repeat split.
  intros Hp n1. rewrite simplify_usub_plain by exact Hp. reflexivity.
Qed.

(** C8.  Folding [7 / 2] applies Python's true division to the two
    payloads: the result is the constant [3.5], which is not an
    [int] and has no integer meaning, while the input denotes the
    floored quotient [3]. *)
Theorem simplify_cir_folds_true_division (rho : valuation) :
  let e := BinOp Div (Const (PyInt 7)) (Const (PyInt 2)) true in
  simplify_cir e = Ok (Const (PyFloat 3.5%float)) /\
  denote rho e = Some 3 /\
  denote rho (Const (PyFloat 3.5%float)) = None.
Proof. repeat split. Qed.

(** A zero dividend of [%] on a non-constant divisor hits the
    [assert False] of the zero-lhs block. *)
Lemma simplify_cir_zero_mod_raises x nn1 nn2 :
  simplify_cir (BinOp Mod (Const (PyInt 0)) (Read x nn1) nn2)
  = Raise (AssertionError EmptyString).
Proof. reflexivity. Qed.

End simplify_facts.

Lemma simplify_cir_denote_witness :
  denote (mkValuation (fun _ => 5) (fun _ _ => 1))
         (CIR.BinOp Mul (CIR.Read Examples.sym_x false) (CIR.Const (PyInt 1)) true)
  = Some 5 /\
  denote (mkValuation (fun _ => 5) (fun _ _ => 1)) (CIR.Read Examples.sym_x false)
  = Some 5.
Proof.
  split; [reflexivity|].
  apply (simplify_cir_denote (mkValuation (fun _ => 5) (fun _ _ => 1))
           (CIR.BinOp Mul (CIR.Read Examples.sym_x false) (CIR.Const (PyInt 1)) true));
    reflexivity.
Defined.

Lemma simplify_cir_identities_witness :
  simplify_cir (CIR.BinOp Mul (CIR.Const (PyInt 1))
                  (CIR.BinOp Add (CIR.Read Examples.sym_x false)
                     (CIR.Const (PyInt 0)) true) true)
  = Ok (CIR.Read Examples.sym_x false).
Proof.
  apply (simplify_cir_identities
           (CIR.BinOp Add (CIR.Read Examples.sym_x false) (CIR.Const (PyInt 0)) true)
           (CIR.Read Examples.sym_x false) true); reflexivity.
Defined.

(** *** Expressions without division *)

Section simplify_ring_facts.
Import CIR.

Lemma ring_expr_denote rho e : ring_expr e = true -> exists v, denote rho e = Some v.
Proof.
  induction e as [x nn|x d|c|op l IHl r IHr nn|a IHa nn]; simpl; intros H.
  - eauto.
  - eauto.
  - destruct c; try discriminate. eauto.
  - destruct op; try discriminate; apply andb_prop in H as [Hl Hr];
      destruct (IHl Hl) as [a ->]; destruct (IHr Hr) as [b ->]; simpl; eauto.
  - destruct (IHa H) as [v ->]. eauto.
Qed.

Lemma simplify_binop_ring op lhs rhs nn :
  match op with Add | Sub | Mul => True | _ => False end ->
  ring_expr lhs = true -> ring_expr rhs = true ->
  exists e', simplify_binop op lhs rhs nn = Ok e' /\ ring_expr e' = true.
Proof.
  intros Hop Hl Hr. unfold simplify_binop, falls.
  destruct lhs as [x n|x d|[b|z|f]|o l r n|a n]; try discriminate Hl;
    destruct rhs as [x' n'|x' d'|[b'|z'|f']|o' l' r' n'|a' n']; try discriminate Hr;
    destruct op; try contradiction; simpl;
    repeat match goal with
           | |- context [if ?c then _ else _] => destruct c
           end;
    eexists; (split; [reflexivity|]); simpl in *; rewrite ?Hl, ?Hr;
    first [reflexivity | assumption].
Qed.

(** On an expression without division or remainder, [simplify_cir]
    never raises: it answers with an expression of the same kind that
    has, under every valuation, the integer value of the input. *)
Theorem simplify_cir_ring e :
  ring_expr e = true ->
  exists e', simplify_cir e = Ok e' /\ ring_expr e' = true /\
             forall rho, denote rho e' = denote rho e.
Proof.
  induction e as [x nn|x d|c|op l IHl r IHr nn|a IHa nn]; intros H.
  - eexists. repeat split.
  - eexists. repeat split.
  - eexists. split; [reflexivity|]. split; [exact H|reflexivity].
  - assert (match op with Add | Sub | Mul => True | _ => False end /\
            ring_expr l = true /\ ring_expr r = true) as (Hop & Hl & Hr).
    { simpl in H. destruct op; try discriminate; apply andb_prop in H; tauto. }
    destruct (IHl Hl) as (l' & Hsl & Hrl & Hdl).
    destruct (IHr Hr) as (r' & Hsr & Hrr & Hdr).
    destruct (simplify_binop_ring op l' r' nn Hop Hrl Hrr) as (e' & He' & Hre').
    exists e'. simpl. rewrite Hsl, Hsr. simpl. split; [exact He'|]. split; [exact Hre'|].
    intros rho. rewrite <- Hdl, <- Hdr.
    destruct (ring_expr_denote rho l' Hrl) as [a Ha].
    destruct (ring_expr_denote rho r' Hrr) as [b Hb].
    rewrite Ha, Hb.
    assert (exists v, int_op op a b = Some v) as [v Hv]
      by (destruct op; try contradiction; simpl; eauto).
    rewrite Hv. eapply simplify_binop_denote; eauto.
    intros ->. contradiction.
  - simpl in H. destruct (IHa H) as (a' & Hsa & Hra & Hda).
    simpl. rewrite Hsa. simpl.
    destruct a' as [x n|x d|[b|z|f]|o l r n|b n]; try discriminate Hra;
      simpl; eexists; (split; [reflexivity|]); (split; [exact Hra|]);
      intros rho; rewrite <- Hda; simpl; try reflexivity.
    destruct (ring_expr_denote rho b Hra) as [v ->]. f_equal. lia.
Qed.

End simplify_ring_facts.

Lemma simplify_cir_ring_witness :
  exists e',
    simplify_cir (CIR.BinOp Mul (CIR.Const (PyInt 4))
                    (CIR.BinOp Add (CIR.Read Examples.sym_x false)
                       (CIR.Const (PyInt 0)) true) true) = Ok e' /\
    ring_expr e' = true /\
    forall rho,
      denote rho e'
      = denote rho (CIR.BinOp Mul (CIR.Const (PyInt 4))
                      (CIR.BinOp Add (CIR.Read Examples.sym_x false)
                         (CIR.Const (PyInt 0)) true) true).
Proof. apply simplify_cir_ring. reflexivity. Defined.

(** ** Collective algebra *)

Module CollAlgebraFacts.
Import CollAlgebra.

Lemma new_CollIndexExpr_str s ops :
  new_CollIndexExpr (BaseStr s) ops = Ok (mkCollIndexExpr (BaseStr s) ops).
Proof. destruct ops; reflexivity. Qed.

(** The text of the module binds no name [env] at its top level. *)
Lemma env_not_module_name : "env" ∉ (list_to_set module_names : gset string).
Proof.
  rewrite elem_of_list_to_set. unfold module_names. intros Hin.
  repeat (apply elem_of_cons in Hin as [Hin|Hin]; [discriminate Hin|]).
  apply elem_of_nil in Hin. exact Hin.
Qed.

(** [__sub__] returns a value only from its first two branches: on
    an [int] base it returns the difference and on [v = 0] it returns
    [self]; on a string base and a nonzero [v] it builds the new
    expression and evaluates to [None], whether or not the last
    recorded operator is a [-]. *)
Lemma sub_cases :
  (forall self v s,
      base_expr self = BaseStr s -> v <> 0 -> sub self v = Ok None) /\
  (forall self s,
      base_expr self = BaseStr s -> sub self 0 = Ok (Some self)) /\
  (forall self v b,
      base_expr self = BaseInt b ->
      sub self v = Ok (Some (mkCollIndexExpr (BaseInt (b - v)) []))).
Proof.
  repeat split.
  - intros self v s Hb Hv. unfold sub. rewrite Hb.
    apply Z.eqb_neq in Hv. rewrite Hv.
    rewrite new_CollIndexExpr_str. reflexivity.
  - intros self s Hb. unfold sub. rewrite Hb. reflexivity.
  - intros self v b Hb. unfold sub. rewrite Hb. reflexivity.
Qed.

(** [specialized] never gets past its first statement when neither
    the globals of the module nor the builtins hold a name [env]: it
    raises [AttributeError] on an argument without the method
    [int_partial_domain], and [NameError] for [env] otherwise. *)
Lemma specialized_raises
    (pyobj CollTiling CollSpecialize : Type)
    (builtins globals : gmap string pyobj)
    (getattr : CollSpecialize -> string -> option pyobj)
    (rest : CollTiling -> CollSpecialize -> pyobj -> pyobj -> result unit)
    (self : CollTiling) (spec : CollSpecialize) :
  globals !! "env" = None ->
  builtins !! "env" = None ->
  specialized pyobj CollTiling CollSpecialize builtins globals getattr rest self spec
  = match getattr spec "int_partial_domain" with
    | Some _ => Raise (NameError "env")
    | None => Raise (AttributeError "int_partial_domain")
    end.
Proof.
  intros Hg Hb. unfold specialized, load_attr, load_global.
  destruct (getattr spec "int_partial_domain"); [|reflexivity].
  cbn [mbind result_bind]. rewrite Hg, Hb. reflexivity.
Qed.

(** C10.  [threadIdx - 1 - 2] is a subtraction from a string base, of
    a nonzero [v], after a recorded [-].  The branch that merges the
    two subtractions builds the expression [threadIdx - 3], and then
    the body runs off its end: the call evaluates to [None] and the
    merged expression is lost.  The sibling [__truediv__] returns the
    expression it merges, [threadIdx / 2 / 3] being [threadIdx / 6]. *)
Theorem sub_merge_returns_none :
  sub (mkCollIndexExpr (BaseStr "threadIdx") [("-", 1)]) 2 = Ok None /\
  new_CollIndexExpr (BaseStr "threadIdx") [("-", 1 + 2)]
  = Ok (mkCollIndexExpr (BaseStr "threadIdx") [("-", 3)]) /\
  truediv (mkCollIndexExpr (BaseStr "threadIdx") [("/", 2)]) 3
  = Ok (mkCollIndexExpr (BaseStr "threadIdx") [("/", 6)]).
Proof. repeat split. Qed.

End CollAlgebraFacts.

(** ** The static-memory check *)

Section static_memory_facts.
Import LoopIR.

Lemma occurs_nil s : ~ occurs s [].
Proof. intros H. inversion H; subst; eapply not_elem_of_nil; eauto. Qed.

Lemma occurs_block s s0 b stmts :
  s0 ∈ stmts -> b ∈ blocks s0 -> occurs s b -> occurs s stmts.
Proof.
  intros Hin Hb Hocc. destruct s0; simpl in Hb; try (by apply elem_of_nil in Hb).
  - apply elem_of_cons in Hb as [->|Hb].
    + eapply occurs_if_body; eauto.
    + apply elem_of_cons in Hb as [->|Hb]; [|by apply elem_of_nil in Hb].
      eapply occurs_if_orelse; eauto.
  - apply elem_of_cons in Hb as [->|Hb]; [|by apply elem_of_nil in Hb].
    eapply occurs_for; eauto.
Qed.

Lemma occurs_inv s stmts :
  occurs s stmts ->
  s ∈ stmts \/ exists s0 b, s0 ∈ stmts /\ b ∈ blocks s0 /\ occurs s b.
Proof.
  intros H. inversion H; subst; [left; assumption|right..].
  - eexists _, _. split; [eassumption|]. split; [|eassumption]. simpl. set_solver.
  - eexists _, _. split; [eassumption|]. split; [|eassumption]. simpl. set_solver.
  - eexists _, _. split; [eassumption|]. split; [|eassumption]. simpl. set_solver.
Qed.

Lemma occurs_cons s s0 stmts :
  occurs s (s0 :: stmts) <->
  s = s0 \/ (exists b, b ∈ blocks s0 /\ occurs s b) \/ occurs s stmts.
Proof.
  split.
  - intros H. apply occurs_inv in H as [H|(s1 & b & H1 & Hb & H)].
    + apply elem_of_cons in H as [->|H]; [auto|]. right; right. by constructor.
    + apply elem_of_cons in H1 as [->|H1]; [eauto|].
      right; right. eapply occurs_block; eauto.
  - intros [->|[(b & Hb & H)|H]].
    + constructor. set_solver.
    + eapply occurs_block; eauto. set_solver.
    + apply occurs_inv in H as [H|(s1 & b & H1 & Hb & H)].
      * constructor. set_solver.
      * eapply occurs_block; [|eassumption..]. set_solver.
Qed.

(** The inner loops of the two scans are the scans of a block. *)
Lemma allocates_static_memory_s_For x lo hi m body :
  allocates_static_memory_s (For x lo hi m body) = allocates_static_memory body.
Proof. simpl. induction body as [|s l IH]; simpl; [reflexivity|]. by rewrite IH. Qed.

Lemma allocates_static_memory_s_If c body orelse :
  allocates_static_memory_s (If c body orelse) =
  a ← allocates_static_memory body; b ← allocates_static_memory orelse; Ok (a || b).
Proof.
  simpl.
  assert (forall l,
    (fix go (stmts : list stmt) : result bool :=
       match stmts with
       | [] => Ok false
       | s :: stmts' =>
           a ← allocates_static_memory_s s; b ← go stmts'; Ok (a || b)
       end) l = allocates_static_memory l) as Hgo.
  { induction l as [|s l IH]; simpl; [reflexivity|]. by rewrite IH. }
  by rewrite !Hgo.
Qed.

Lemma is_leaf_proc_s_For h x lo hi m body :
  is_leaf_proc_s h (For x lo hi m body) = is_leaf_proc h body.
Proof. simpl. induction body as [|s l IH]; simpl; [reflexivity|]. by rewrite IH. Qed.

Lemma is_leaf_proc_s_If h c body orelse :
  is_leaf_proc_s h (If c body orelse) =
  a ← is_leaf_proc h body; b ← is_leaf_proc h orelse; Ok (a && b).
Proof.
  simpl.
  assert (forall l,
    (fix go (stmts : list stmt) : result bool :=
       match stmts with
       | [] => Ok true
       | s :: stmts' =>
           a ← is_leaf_proc_s h s; b ← go stmts'; Ok (a && b)
       end) l = is_leaf_proc h l) as Hgo.
  { induction l as [|s l IH]; simpl; [reflexivity|]. by rewrite IH. }
  by rewrite !Hgo.
Qed.

Lemma occurs_split s s0 stmts :
  occurs s (s0 :: stmts) <-> occurs s [s0] \/ occurs s stmts.
Proof.
  rewrite !occurs_cons. pose proof (occurs_nil s). tauto.
Qed.

Lemma occurs_single_For s x lo hi m body :
  occurs s [For x lo hi m body] <-> s = For x lo hi m body \/ occurs s body.
Proof.
  rewrite occurs_cons. pose proof (occurs_nil s). simpl. split.
  - intros [?|[(b & Hb & ?)|?]]; [auto| |tauto].
    apply list_elem_of_singleton in Hb as ->. auto.
  - intros [?|?]; [auto|]. right; left. exists body. split; [set_solver|done].
Qed.

Lemma occurs_single_If s c body orelse :
  occurs s [If c body orelse] <->
  s = If c body orelse \/ occurs s body \/ occurs s orelse.
Proof.
  rewrite occurs_cons. pose proof (occurs_nil s). simpl. split.
  - intros [?|[(b & Hb & ?)|?]]; [auto| |tauto].
    apply elem_of_cons in Hb as [->|Hb]; [auto|].
    apply list_elem_of_singleton in Hb as ->. auto.
  - intros [?|[?|?]]; [auto|right; left..].
    + exists body. split; [set_solver|done].
    + exists orelse. split; [set_solver|done].
Qed.

Lemma occurs_single_leaf s s0 :
  blocks s0 = [] -> occurs s [s0] <-> s = s0.
Proof.
  intros Hb. rewrite occurs_cons, Hb. pose proof (occurs_nil s). split.
  - intros [?|[(b & Hin & _)|?]]; [done| |tauto]. by apply elem_of_nil in Hin.
  - auto.
Qed.

Lemma has_static_alloc_cons s stmts :
  has_static_alloc (s :: stmts) <-> has_static_alloc [s] \/ has_static_alloc stmts.
Proof.
  unfold has_static_alloc. split.
  - intros (x & ty & m & si & H & Hs). apply occurs_split in H as [H|H]; eauto 10.
  - intros [(x & ty & m & si & H & Hs)|(x & ty & m & si & H & Hs)];
      exists x, ty, m, si; (split; [|done]); apply occurs_split; auto.
Qed.

Lemma allocs_have_memory_cons s stmts :
  allocs_have_memory (s :: stmts) ->
  allocs_have_memory [s] /\ allocs_have_memory stmts.
Proof.
  unfold allocs_have_memory. intros H.
  split; intros x ty si Ho; apply (H x ty si); apply occurs_split; auto.
Qed.

Lemma static_scan_list stmts :
  Forall static_scan_ok stmts ->
  allocs_have_memory stmts ->
  exists b, allocates_static_memory stmts = Ok b /\ (b = true <-> has_static_alloc stmts).
Proof.
  induction 1 as [|s l Hs _ IH]; intros Hwf.
  - exists false. split; [done|]. split; [done|].
    intros (x & ty & m & si & H & _). by apply occurs_nil in H.
  - apply allocs_have_memory_cons in Hwf as [Hw1 Hw2].
    destruct (Hs Hw1) as (a & Ha & Hia), (IH Hw2) as (b & Hb & Hib).
    exists (a || b). simpl. rewrite Ha, Hb. split; [done|].
    rewrite has_static_alloc_cons, orb_true_iff. tauto.
Qed.

Lemma static_scan_stmt s : static_scan_ok s.
Proof.
  induction s as [ | c si | x t i r | x t i r | c f r si | x r
                 | c bd oe Hbd Hoe | x lo hi m bd Hbd
                 | x t m si | x t m si | f a ] using stmt_nested_ind; intros Hwf;
    try (exists false; split; [reflexivity|]; split; [discriminate|];
         intros (x' & ty' & m' & si' & H & _);
         apply occurs_single_leaf in H; [discriminate H|reflexivity]).
  - (* If *)
    rewrite allocates_static_memory_s_If.
    assert (allocs_have_memory bd /\ allocs_have_memory oe) as [Hw1 Hw2].
    { split; intros x' ty' si' Ho; apply (Hwf x' ty' si'), occurs_single_If; auto. }
    destruct (static_scan_list _ Hbd Hw1) as (a & Ha & Hia).
    destruct (static_scan_list _ Hoe Hw2) as (b & Hb & Hib).
    exists (a || b). rewrite Ha, Hb. split; [done|].
    rewrite orb_true_iff, Hia, Hib. unfold has_static_alloc. split.
    + intros [(x' & ty' & m' & si' & Ho & Hs)|(x' & ty' & m' & si' & Ho & Hs)];
        exists x', ty', m', si'; (split; [|done]); apply occurs_single_If; auto.
    + intros (x' & ty' & m' & si' & Ho & Hs).
      apply occurs_single_If in Ho as [Ho|[Ho|Ho]]; [discriminate Ho|eauto 10..].
  - (* For *)
    rewrite allocates_static_memory_s_For.
    assert (allocs_have_memory bd) as Hw.
    { intros x' ty' si' Ho; apply (Hwf x' ty' si'), occurs_single_For; auto. }
    destruct (static_scan_list _ Hbd Hw) as (a & Ha & Hia).
    exists a. split; [done|]. rewrite Hia. unfold has_static_alloc. split.
    + intros (x' & ty' & m' & si' & Ho & Hs).
      exists x', ty', m', si'. split; [|done]. apply occurs_single_For; auto.
    + intros (x' & ty' & m' & si' & Ho & Hs).
      apply occurs_single_For in Ho as [Ho|Ho]; [discriminate Ho|eauto 10].
  - (* Alloc *)
    destruct m as [m|].
    + exists (is_static m). split; [reflexivity|]. split.
      * intros Hs. exists x, t, m, si. split; [|done]. constructor. set_solver.
      * intros (x' & ty' & m' & si' & Ho & Hs).
        apply occurs_single_leaf in Ho; [|reflexivity]. by injection Ho as -> -> -> ->.
    + exfalso. apply (Hwf x t si). constructor. set_solver.
Qed.

Lemma allocates_static_memory_spec stmts :
  allocs_have_memory stmts ->
  exists b, allocates_static_memory stmts = Ok b /\ (b = true <-> has_static_alloc stmts).
Proof.
  apply static_scan_list. apply stmts_nested_ind; intros;
    match goal with |- static_scan_ok ?s => apply (static_scan_stmt s) end.
Qed.

Lemma has_plain_call_cons h s stmts :
  has_plain_call h (s :: stmts) <-> has_plain_call h [s] \/ has_plain_call h stmts.
Proof.
  unfold has_plain_call. split.
  - intros (f & a & q & H & Hq). apply occurs_split in H as [H|H]; eauto 10.
  - intros [(f & a & q & H & Hq)|(f & a & q & H & Hq)];
      exists f, a, q; (split; [|done]); apply occurs_split; auto.
Qed.

Lemma calls_resolve_cons h s stmts :
  calls_resolve h (s :: stmts) -> calls_resolve h [s] /\ calls_resolve h stmts.
Proof.
  unfold calls_resolve. intros H.
  split; intros f a Ho; apply (H f a); apply occurs_split; auto.
Qed.

Lemma leaf_scan_list h stmts :
  Forall (leaf_scan_ok h) stmts ->
  calls_resolve h stmts ->
  exists b, is_leaf_proc h stmts = Ok b /\ (b = false <-> has_plain_call h stmts).
Proof.
  induction 1 as [|s l Hs _ IH]; intros Hwf.
  - exists true. split; [done|]. split; [done|].
    intros (f & a & q & H & _). by apply occurs_nil in H.
  - apply calls_resolve_cons in Hwf as [Hw1 Hw2].
    destruct (Hs Hw1) as (a & Ha & Hia), (IH Hw2) as (b & Hb & Hib).
    exists (a && b). simpl. rewrite Ha, Hb. split; [done|].
    rewrite has_plain_call_cons, andb_false_iff. tauto.
Qed.

Lemma leaf_scan_stmt h s : leaf_scan_ok h s.
Proof.
  induction s as [ | c si | x t i r | x t i r | c f r si | x r
                 | c bd oe Hbd Hoe | x lo hi m bd Hbd
                 | x t m si | x t m si | f a ] using stmt_nested_ind; intros Hwf;
    try (exists true; split; [reflexivity|]; split; [discriminate|];
         intros (f' & a' & q' & H & _);
         apply occurs_single_leaf in H; [discriminate H|reflexivity]).
  - (* If *)
    rewrite is_leaf_proc_s_If.
    assert (calls_resolve h bd /\ calls_resolve h oe) as [Hw1 Hw2].
    { split; intros f' a' Ho; apply (Hwf f' a'), occurs_single_If; auto. }
    destruct (leaf_scan_list _ _ Hbd Hw1) as (a & Ha & Hia).
    destruct (leaf_scan_list _ _ Hoe Hw2) as (b & Hb & Hib).
    exists (a && b). rewrite Ha, Hb. split; [done|].
    rewrite andb_false_iff, Hia, Hib. unfold has_plain_call. split.
    + intros [(f' & a' & q' & Ho & Hq)|(f' & a' & q' & Ho & Hq)];
        exists f', a', q'; (split; [|done]); apply occurs_single_If; auto.
    + intros (f' & a' & q' & Ho & Hq).
      apply occurs_single_If in Ho as [Ho|[Ho|Ho]]; [discriminate Ho|eauto 10..].
  - (* For *)
    rewrite is_leaf_proc_s_For.
    assert (calls_resolve h bd) as Hw.
    { intros f' a' Ho; apply (Hwf f' a'), occurs_single_For; auto. }
    destruct (leaf_scan_list _ _ Hbd Hw) as (a & Ha & Hia).
    exists a. split; [done|]. rewrite Hia. unfold has_plain_call. split.
    + intros (f' & a' & q' & Ho & Hq).
      exists f', a', q'. split; [|done]. apply occurs_single_For; auto.
    + intros (f' & a' & q' & Ho & Hq).
      apply occurs_single_For in Ho as [Ho|Ho]; [discriminate Ho|eauto 10].
  - (* Call *)
    destruct (Hwf f a) as [q Hq]; [constructor; set_solver|].
    exists (bool_decide (is_Some (instr q))). split.
    { simpl. unfold callee. rewrite Hq. reflexivity. }
    rewrite bool_decide_eq_false, <- eq_None_not_Some. split.
    + intros Hi. exists f, a, q. split; [|done]. constructor. set_solver.
    + intros (f' & a' & q' & Ho & Hq' & Hi).
      apply occurs_single_leaf in Ho; [|reflexivity]. injection Ho as -> ->.
      congruence.
Qed.

Lemma is_leaf_proc_spec h stmts :
  calls_resolve h stmts ->
  exists b, is_leaf_proc h stmts = Ok b /\ (b = false <-> has_plain_call h stmts).
Proof.
  apply leaf_scan_list. apply stmts_nested_ind; intros;
    match goal with |- leaf_scan_ok _ ?s => apply (leaf_scan_stmt h s) end.
Qed.

(** C6.  On a body whose allocations all name a memory class and
    whose callees are all procedures of the heap, the check of
    [Compiler.__init__] raises [MemGenError] with the message
    [Cannot generate static memory in non-leaf procs] exactly when the
    body holds, at any depth, an [Alloc] in a static memory and a
    [Call] of a procedure without an instruction record; a body that
    calls instruction procedures only (or nothing) passes. *)
Theorem static_memory_check_iff (h : heap) (p : proc) :
  allocs_have_memory (body p) ->
  calls_resolve h (body p) ->
  (init_static_memory_check h p
   = Raise (MemGenError "Cannot generate static memory in non-leaf procs")
   <-> has_static_alloc (body p) /\ has_plain_call h (body p)) /\
  (~ has_plain_call h (body p) -> init_static_memory_check h p = Ok tt).
Proof.
  intros Hwa Hwc.
  destruct (allocates_static_memory_spec _ Hwa) as (a & Ha & Hia).
  destruct (is_leaf_proc_spec h _ Hwc) as (l & Hl & Hil).
  unfold init_static_memory_check, static_memory_check. rewrite Ha. simpl.
  destruct a; simpl.
  - rewrite Hl. simpl. destruct l; simpl.
    + split.
      * split; [discriminate|]. intros [_ Hp]. apply Hil in Hp. discriminate Hp.
      * reflexivity.
    + split.
      * split; [|reflexivity]. intros _. split; [by apply Hia|by apply Hil].
      * intros Hn. exfalso. apply Hn. by apply Hil.
  - split.
    + split; [discriminate|]. intros [Hs _]. apply Hia in Hs. discriminate Hs.
    + reflexivity.
Qed.

Lemma static_memory_check_iff_witness :
  init_static_memory_check Examples.caller_heap Examples.caller
  = Raise (MemGenError "Cannot generate static memory in non-leaf procs").
Proof.
  apply (static_memory_check_iff Examples.caller_heap Examples.caller).
  - intros x ty si H. simpl in H.
    apply occurs_split in H as [H|H].
    + apply occurs_single_leaf in H; [discriminate H|reflexivity].
    + apply occurs_single_For in H as [H|H]; [discriminate H|].
      apply occurs_single_leaf in H; [discriminate H|reflexivity].
  - intros f a H. simpl in H.
    apply occurs_split in H as [H|H].
    + apply occurs_single_leaf in H; [discriminate H|reflexivity].
    + apply occurs_single_For in H as [H|H]; [discriminate H|].
      apply occurs_single_leaf in H; [|reflexivity]. injection H as -> ->.
      exists Examples.leaf. reflexivity.
  - split.
    + exists Examples.sym_x, (Prim F32), Examples.AVX_REG, "caller.py:3".
      split; [|reflexivity]. constructor. simpl. set_solver.
    + exists 2%positive, [], Examples.leaf. split; [|split; reflexivity].
      simpl. apply occurs_split. right. apply occurs_single_For. right.
      constructor. set_solver.
Defined.

End static_memory_facts.

(** ** The floor-division helper *)

Section floor_div_facts.

Lemma c_int_in_range z : INT_MIN <= z <= INT_MAX -> c_int z = Some z.
Proof.
  intros [Hl Hu]. unfold c_int.
  apply Z.leb_le in Hl, Hu. rewrite Hl, Hu. reflexivity.
Qed.

(** Truncating the shifted dividend is flooring the dividend. *)
Lemma quot_shifted_is_floor n q :
  0 < q -> n < 0 -> Z.quot (n - (q - 1)) q = n / q.
Proof.
  intros Hq Hn.
  replace (n - (q - 1)) with (- (q - 1 - n)) by lia.
  rewrite Z.quot_opp_l by lia.
  rewrite Z.quot_div_nonneg by lia.
  assert ((q - 1 - n) / q = - (n / q)) as ->; [|lia].
  symmetry. apply Z.div_unique with (r := q - 1 - n mod q).
  - left. pose proof (Z.mod_pos_bound n q Hq). lia.
  - pose proof (Z.div_mod n q ltac:(lia)). lia.
Qed.

Lemma floor_in_range n q :
  0 < q -> INT_MIN <= n <= INT_MAX -> INT_MIN <= n / q <= INT_MAX.
Proof.
  intros Hq [Hl Hu]. unfold INT_MIN, INT_MAX in *. split.
  - apply Z.div_le_lower_bound; [lia|]. nia.
  - apply Z.div_le_upper_bound; [lia|]. nia.
Qed.

Lemma exo_floor_div_floor n q :
  INT_MIN <= n <= INT_MAX -> 0 < q <= INT_MAX ->
  (0 <= n \/ INT_MIN <= n - (q - 1)) ->
  exo_floor_div n q = Some (n / q).
Proof.
  intros Hn Hq Hsafe. unfold exo_floor_div.
  assert (INT_MIN <= INT_MAX) as Hmm by (unfold INT_MIN, INT_MAX; lia).
  assert (INT_MIN <= 0) as Hm0 by (unfold INT_MIN; lia).
  rewrite (c_int_in_range n) by assumption. simpl.
  rewrite (c_int_in_range q) by lia. simpl.
  pose proof (floor_in_range n q ltac:(lia) Hn) as Hfl.
  unfold c_div. assert ((q =? 0) = false) as Hq0 by (apply Z.eqb_neq; lia).
  destruct (0 <=? n) eqn:Hsign; simpl.
  - apply Z.leb_le in Hsign. unfold c_sub.
    rewrite (c_int_in_range (n - 0)) by lia. simpl. rewrite Hq0.
    replace (n - 0) with n by lia.
    rewrite Z.quot_div_nonneg by lia. apply c_int_in_range, Hfl.
  - apply Z.leb_gt in Hsign. unfold c_sub.
    rewrite (c_int_in_range (q - 1)) by lia. simpl.
    rewrite (c_int_in_range (n - (q - 1))) by lia. simpl. rewrite Hq0.
    rewrite quot_shifted_is_floor by lia. apply c_int_in_range, Hfl.
Qed.

(** *** Which runs of comp_cir record the helper *)

Context {range_env : Type} (float_repr : float -> string).

Abbreviation Compiler := (Compiler range_env).
Abbreviation M := (M range_env).

Lemma bindM_ok_inv {A B} (m : M A) (f : A -> M B) (st st' : Compiler) b :
  (m ≫= f) st = Ok (b, st') ->
  exists a st1, m st = Ok (a, st1) /\ f a st1 = Ok (b, st').
Proof.
  unfold mbind, M_bind. destruct (m st) as [[a st1]|]; [eauto|discriminate].
Qed.

Lemma add_helpers_empty (st : Compiler) : add_helpers ∅ st = st.
Proof.
  destruct st. unfold add_helpers, set_needed_helpers. simpl.
  f_equal. apply union_empty_l_L.
Qed.

Lemma add_helpers_add (h1 h2 : gset string) (st : Compiler) :
  add_helpers h2 (add_helpers h1 st) = add_helpers (h1 ∪ h2) st.
Proof.
  destruct st. unfold add_helpers, set_needed_helpers. simpl.
  f_equal. rewrite (union_comm_L h1 h2). apply union_assoc_L.
Qed.

Lemma helpers_of_BinOp op l r nn :
  helpers_of (CIR.BinOp op l r nn) =
  helpers_of l ∪ helpers_of r ∪
  (if bool_decide (op = Div) && negb (native_div_ok l)
   then {[ "exo_floor_div" ]} else ∅).
Proof.
  unfold helpers_of. simpl.
  destruct (needs_floor_div l), (needs_floor_div r),
    (bool_decide (op = Div) && negb (native_div_ok l)); simpl; set_solver.
Qed.

Lemma comp_cir_helpers e env prec (st st' : Compiler) s :
  comp_cir float_repr e env prec st = Ok (s, st') ->
  st' = add_helpers (helpers_of e) st.
Proof.
  revert prec st st' s.
  induction e as [x nn|x d|v|op l IHl r IHr nn|a IHa nn]; intros prec st st' s H.
  - simpl in H. unfold lift in H. destruct (chain_get_sym _ _); [|discriminate].
    injection H as _ <-. symmetry. apply add_helpers_empty.
  - injection H as _ <-. symmetry. apply add_helpers_empty.
  - injection H as _ <-. symmetry. apply add_helpers_empty.
  - simpl in H.
    apply bindM_ok_inv in H as (ls & st1 & Hl & H).
    apply bindM_ok_inv in H as (rs & st2 & Hr & H).
    apply IHl in Hl as ->. apply IHr in Hr as ->.
    rewrite add_helpers_add in H. rewrite helpers_of_BinOp.
    destruct (bool_decide (op = Div)); simpl in H |- *.
    + destruct (native_div_ok l); simpl in H |- *.
      * injection H as _ <-. f_equal. set_solver.
      * unfold _call_static_helper in H.
        apply bindM_ok_inv in H as ([] & st3 & Hm & H).
        injection Hm as <-. injection H as _ <-.
        destruct st. unfold add_helpers, set_needed_helpers. simpl.
        f_equal. set_solver.
    + injection H as _ <-. f_equal. set_solver.
  - simpl in H.
    apply bindM_ok_inv in H as (sa & st1 & Ha & H).
    injection H as _ <-. apply IHa in Ha as ->. reflexivity.
Qed.

(** *** The helper in the translation unit *)

Lemma helper_code_once (order : gset string -> list string) (needed : gset string) :
  (forall S, order S ≡ₚ elements S) ->
  needed ⊆ {[ "exo_floor_div" ]} ->
  helper_code order needed
  = Ok (if bool_decide ("exo_floor_div" ∈ needed) then [exo_floor_div_text] else []).
Proof.
  intros Hperm Hsub. unfold helper_code.
  destruct (decide ("exo_floor_div" ∈ needed)) as [Hin|Hout].
  - rewrite bool_decide_eq_true_2 by assumption.
    assert (needed = {[ "exo_floor_div" ]}) as -> by set_solver.
    pose proof (Hperm {[ "exo_floor_div" ]}) as Hp.
    rewrite elements_singleton in Hp.
    apply Permutation_singleton_r in Hp as ->. reflexivity.
  - rewrite bool_decide_eq_false_2 by assumption.
    assert (needed = ∅) as -> by set_solver.
    pose proof (Hperm ∅) as Hp. rewrite elements_empty in Hp.
    apply Permutation_nil_r in Hp as ->. reflexivity.
Qed.



End floor_div_facts.


(** ** Lowering of divisions *)

Section division_facts.
Import LoopIR.

Context {range_env : Type}.
Variable check_non_neg : range_env -> expr -> bool.
Variable float_repr : float -> string.
Variable ctype : prim -> string.
Variable mem_window :
  Memory -> typ -> string -> list string -> list string -> string -> result string.
Variable extern_compile : string -> list string -> string -> result string.
Variable config_allow_rw : string -> bool.

Abbreviation Compiler := (Compiler range_env).
Abbreviation comp_e' :=
  (comp_e check_non_neg float_repr ctype mem_window extern_compile config_allow_rw).

Lemma comp_cir_division l r nn env prec (st st1 st2 : Compiler) ls rs :
  comp_cir float_repr l env (op_prec Div) st = Ok (ls, st1) ->
  comp_cir float_repr r env (op_prec Div) st1 = Ok (rs, st2) ->
  comp_cir float_repr (CIR.BinOp Div l r nn) env prec st =
  let rs' := if is_cir_binop r then paren rs else rs in
  if native_div_ok l
  then Ok (paren (ls +:+ " / " +:+ rs'), st2)
  else Ok ("exo_floor_div(" +:+ (ls +:+ ", " +:+ rs') +:+ ")",
           add_helpers {[ "exo_floor_div" ]} st2).
Proof.
  intros Hl Hr. cbn [op_prec] in Hl, Hr. simpl. unfold mbind, M_bind. rewrite Hl, Hr.
  rewrite ?orb_true_r, ?andb_true_r.
  destruct (native_div_ok l); [reflexivity|].
  unfold _call_static_helper, add_helpers. reflexivity.
Qed.

Lemma lift_to_cir_dividend renv e c :
  lift_to_cir check_non_neg e renv = Ok c ->
  native_div_ok c = dividend_native check_non_neg renv e.
Proof.
  destruct e; simpl; destruct (is_indexable _); simpl; try discriminate.
  - intros [= <-]. reflexivity.
  - intros [= <-]. reflexivity.
  - destruct (lift_to_cir _ e _); simpl; [|discriminate]. intros [= <-]. reflexivity.
  - destruct (lift_to_cir _ e1 _); simpl; [|discriminate].
    destruct (lift_to_cir _ e2 _); simpl; [|discriminate]. intros [= <-]. reflexivity.
Qed.

Lemma comp_e_division l r ty prec (st st1 st2 : Compiler) ls rs :
  is_numeric ty = false ->
  comp_e' l 0 st = Ok (ls, st1) ->
  comp_e' r 1 st1 = Ok (rs, st2) ->
  comp_e' (BinOp Div l r ty) prec st =
  if check_non_neg (range _ st2) (BinOp Div l r ty)
  then Ok ("((" +:+ ls +:+ ") / (" +:+ rs +:+ "))", st2)
  else Ok ("exo_floor_div(" +:+ (ls +:+ ", " +:+ rs) +:+ ")",
           add_helpers {[ "exo_floor_div" ]} st2).
Proof.
  intros Hty Hl Hr. simpl. rewrite Hty. simpl.
  unfold mbind, M_bind. rewrite Hl. change (0 + 1) with 1. rewrite Hr. simpl.
  destruct (check_non_neg _ _); [reflexivity|].
  unfold _call_static_helper, add_helpers. reflexivity.
Qed.


End division_facts.



(** ** Window structs *)

Section window_facts.
Import LoopIR.

Lemma pretty_N_char_digit x : is_digit (pretty_N_char x) = true.
Proof. unfold pretty_N_char. repeat case_match; reflexivity. Qed.

Lemma pretty_N_go_digits x s :
  all_digits s = true -> all_digits (pretty_N_go x s) = true.
Proof.
  revert s. induction (N.lt_wf_0 x) as [x _ IH]; intros s Hs.
  destruct (decide (x = 0)%N) as [->|Hx]; [exact Hs|].
  rewrite pretty_N_go_step by lia.
  apply IH; [apply N.div_lt; lia|].
  simpl. rewrite pretty_N_char_digit. exact Hs.
Qed.

Lemma pretty_nat_digits (n : nat) : all_digits (pretty n) = true.
Proof.
  unfold pretty, pretty_nat, pretty, pretty_N.
  case_decide; [reflexivity|]. by apply pretty_N_go_digits.
Qed.

(** A run of digits followed by a text that starts with another
    character splits in one way only. *)
Lemma digits_prefix_inj a1 a2 b1 b2 :
  all_digits a1 = true -> all_digits a2 = true ->
  starts_nondigit b1 = true -> starts_nondigit b2 = true ->
  a1 +:+ b1 = a2 +:+ b2 -> a1 = a2 /\ b1 = b2.
Proof.
  revert a2. induction a1 as [|c a1 IH]; intros [|d a2] H1 H2 Hb1 Hb2 Heq.
  - auto.
  - exfalso. change (b1 = String d (a2 +:+ b2)) in Heq. subst b1.
    simpl in Hb1, H2. apply andb_prop in H2 as [Hd _].
    rewrite Hd in Hb1. discriminate.
  - exfalso. change (String c (a1 +:+ b1) = b2) in Heq. subst b2.
    simpl in Hb2, H1. apply andb_prop in H1 as [Hc _].
    rewrite Hc in Hb2. discriminate.
  - change (String c (a1 +:+ b1) = String d (a2 +:+ b2)) in Heq.
    injection Heq as -> Heq. simpl in H1, H2.
    apply andb_prop in H1 as [_ H1]. apply andb_prop in H2 as [_ H2].
    destruct (IH a2 H1 H2 Hb1 Hb2 Heq) as [-> ->]. auto.
Qed.

Lemma string_app_assoc (a b c : string) : (a +:+ b) +:+ c = a +:+ (b +:+ c).
Proof.
  induction a as [|x a IH]; [reflexivity|].
  change (String x ((a +:+ b) +:+ c) = String x (a +:+ (b +:+ c))). by rewrite IH.
Qed.

Variable ctype : prim -> string.

Lemma window_struct_name base_type n is_const w :
  window_struct ctype base_type n is_const = Ok w ->
  exists typename,
    _window_struct_shorthand base_type = Ok typename /\
    (1 <= n)%nat /\
    w = _window_struct typename (ctype base_type) n is_const /\
    ws_name w = "exo_win_" +:+ pretty n +:+ typename +:+
                (if is_const then "c" else EmptyString).
Proof.
  unfold window_struct. destruct (1 <=? n)%nat eqn:Hn; simpl; [|discriminate].
  destruct (_window_struct_shorthand base_type) as [t|]; simpl; [|discriminate].
  intros [= <-]. exists t. apply Nat.leb_le in Hn. auto.
Qed.

(** Two structs with one name come from one (type, rank, constness). *)
Lemma window_struct_name_inj b1 n1 c1 b2 n2 c2 w1 w2 :
  window_struct ctype b1 n1 c1 = Ok w1 ->
  window_struct ctype b2 n2 c2 = Ok w2 ->
  ws_name w1 = ws_name w2 ->
  b1 = b2 /\ n1 = n2 /\ c1 = c2.
Proof.
  intros H1 H2 Heq.
  apply window_struct_name in H1 as (t1 & Ht1 & _ & _ & Hn1).
  apply window_struct_name in H2 as (t2 & Ht2 & _ & _ & Hn2).
  rewrite Hn1, Hn2 in Heq. apply (inj (String.app "exo_win_")) in Heq.
  assert (starts_nondigit (t1 +:+ (if c1 then "c" else EmptyString)) = true) as Hs1
    by (destruct b1; try discriminate; injection Ht1 as <-; destruct c1; reflexivity).
  assert (starts_nondigit (t2 +:+ (if c2 then "c" else EmptyString)) = true) as Hs2
    by (destruct b2; try discriminate; injection Ht2 as <-; destruct c2; reflexivity).
  apply digits_prefix_inj in Heq as [Hn Ht];
    [|apply pretty_nat_digits|apply pretty_nat_digits|assumption..].
  apply (inj pretty) in Hn as ->.
  destruct b1; try discriminate; injection Ht1 as <-;
    destruct b2; try discriminate; injection Ht2 as <-;
    destruct c1, c2; vm_compute in Ht; try discriminate Ht; auto.
Qed.

(** [window_struct] answers exactly for a rank of at least one and one
    of the seven numeric types that have a shorthand; a rank of zero
    fails the assertion, and any other base type is a missing key of
    the shorthand table. *)
Lemma window_struct_errors base_type n is_const :
  match window_struct ctype base_type n is_const with
  | Ok w => (1 <= n)%nat /\ base_type ∈ [F16; F32; F64; I8; UI8; UI16; I32]
  | Raise (AssertionError _) => n = 0%nat
  | Raise (KeyError _) =>
      (1 <= n)%nat /\ base_type ∉ [F16; F32; F64; I8; UI8; UI16; I32]
  | Raise _ => False
  end.
Proof.
  unfold window_struct. destruct (1 <=? n)%nat eqn:Hn; simpl.
  - apply Nat.leb_le in Hn.
    destruct base_type; simpl; (split; [exact Hn|]);
      apply (bool_decide_unpack _); reflexivity.
  - apply Nat.leb_gt in Hn. lia.
Qed.

(** The text of a window struct: the include guard is the name in
    upper case, the data pointer is a constant pointer whose pointee is
    constant for a constant window only, and the strides are [rank]
    constants of type [int_fast32_t]. *)
Lemma window_struct_text base_type n is_const w :
  window_struct ctype base_type n is_const = Ok w ->
  definition w =
    "#ifndef " +:+ upper (ws_name w) +:+ NL +:+
    "#define " +:+ upper (ws_name w) +:+ NL +:+
    "struct " +:+ ws_name w +:+ "{" +:+ NL +:+
    "    " +:+ (if is_const then "const " else EmptyString) +:+
      ctype base_type +:+ " * const data;" +:+ NL +:+
    "    const int_fast32_t strides[" +:+ pretty n +:+ "];" +:+ NL +:+
    "};" +:+ NL +:+
    "#endif".
Proof.
  intros H. apply window_struct_name in H as (t & _ & _ & -> & _).
  unfold _window_struct, definition, ws_name.
  rewrite !string_app_assoc. reflexivity.
Qed.

End window_facts.

Section window_literal_facts.
Import LoopIR.

Context {range_env : Type}.
Variable check_non_neg : range_env -> expr -> bool.
Variable float_repr : float -> string.
Variable ctype : prim -> string.
Variable mem_window :
  Memory -> typ -> string -> list string -> list string -> string -> result string.
Variable extern_compile : string -> list string -> string -> result string.
Variable config_allow_rw : string -> bool.

Abbreviation Compiler := (Compiler range_env).
Abbreviation comp_e' :=
  (comp_e check_non_neg float_repr ctype mem_window extern_compile config_allow_rw).

Lemma comp_e_WindowExpr_eq x idx ty si prec :
  comp_e' (WindowExpr x idx ty si) prec =
  (win_struct ← get_window_type ctype (inl ty) None;
   '(data, strides) ← window_struct_fields check_non_neg float_repr mem_window x idx si;
   mret (window_literal win_struct data strides)).
Proof. reflexivity. Qed.

Lemma get_ok (st st1 st' : Compiler) {A} (f : Compiler -> M range_env A) a :
  (get ≫= f) st = Ok (a, st') -> f st st = Ok (a, st').
Proof. intros H. exact H. Qed.

(** What [get_window_type] returns and records. *)
Lemma get_window_type_ok t is_const (st st' : Compiler) win :
  get_window_type ctype t is_const st = Ok (win, st') ->
  exists w,
    win = ws_name w /\
    st' = set_window_defns ({[ w ]} ∪ window_defns _ st) st /\
    exists base n c, window_struct ctype base n c = Ok w.
Proof.
  unfold get_window_type. intros H.
  apply bindM_ok_inv in H as (st0 & st1 & Hg & H). injection Hg as <- <-.
  apply bindM_ok_inv in H as ([[base n] c] & st1 & Hsel & H).
  apply bindM_ok_inv in H as (w & st2 & Hw & H).
  apply bindM_ok_inv in H as ([] & st3 & Hm & H).
  injection H as <- <-. injection Hm as <-.
  unfold lift in Hw. destruct (window_struct ctype base n c) as [w'|] eqn:Hws;
    [|discriminate]. injection Hw as <- <-.
  assert (st1 = st) as ->.
  { destruct t as [[]|a]; simpl in Hsel; try discriminate.
    - by injection Hsel as _ _ _ <-.
    - destruct (is_win (arg_type a)); [|discriminate]. by injection Hsel as _ _ _ <-. }
  exists w'. split; [reflexivity|]. split; [reflexivity|]. eauto.
Qed.

Lemma lift_ok {A} (r : result A) (st st' : Compiler) a :
  @lift _ A r st = Ok (a, st') -> r = Ok a /\ st' = st.
Proof. unfold lift. destruct r; [|discriminate]. by intros [= <- <-]. Qed.

Lemma env_of_ok x (st st' : Compiler) base :
  env_of x st = Ok (base, st') ->
  chain_lookup (sym_id x) (env _ st) = Some base /\ st' = st.
Proof.
  unfold env_of. intros H.
  apply bindM_ok_inv in H as (st0 & st1 & Hg & H). injection Hg as <- <-.
  apply lift_ok in H as [H ->]. split; [|reflexivity].
  unfold chain_get_sym in H. destruct (chain_lookup _ _); [|discriminate].
  by injection H as <-.
Qed.

Lemma envtyp_of_ok x (st st' : Compiler) ty :
  envtyp_of x st = Ok (ty, st') ->
  envtyp _ st !! sym_id x = Some (Some ty) /\ st' = st.
Proof.
  unfold envtyp_of. intros H.
  apply bindM_ok_inv in H as (st0 & st1 & Hg & H). injection Hg as <- <-.
  apply bindM_ok_inv in H as (oty & st1 & Hl & H).
  apply lift_ok in Hl as [Hl ->].
  unfold lookup_sym in Hl. destruct (envtyp _ st !! sym_id x) as [o|]; [|discriminate].
  injection Hl as <-. destruct o; [|discriminate]. by injection H as <- <-.
Qed.

Lemma mem_of_ok x (st st' : Compiler) mem :
  mem_of x st = Ok (mem, st') ->
  mems _ st !! sym_id x = Some mem /\ st' = st.
Proof.
  unfold mem_of. intros H.
  apply bindM_ok_inv in H as (st0 & st1 & Hg & H). injection Hg as <- <-.
  apply lift_ok in H as [H ->]. split; [|reflexivity].
  unfold lookup_sym in H. destruct (mems _ st !! sym_id x); [|discriminate].
  by injection H as <-.
Qed.

(** What [window_struct_fields] returns: the data pointer is the
    answer of the [window] hook of the memory of the buffer for the
    base, the compiled lower ends of the coordinates and the compiled
    strides of the buffer; the strides are those of the interval
    coordinates. *)
Lemma window_struct_fields_ok x idx si (st st' : Compiler) data strides :
  window_struct_fields check_non_neg float_repr mem_window x idx si st
  = Ok ((data, strides), st') ->
  exists base basetyp mem cirs idxs all_strides all_strides_s st1 st2 st3,
    chain_lookup (sym_id x) (env _ st) = Some base /\
    envtyp _ st !! sym_id x = Some (Some basetyp) /\
    mems _ st !! sym_id x = Some mem /\
    mapR (fun w => lift_to_cir check_non_neg (w_lo w) (range _ st)) idx = Ok cirs /\
    mapM _ _ (comp_simplified float_repr) cirs st = Ok (idxs, st1) /\
    get_strides check_non_neg x basetyp st1 = Ok (all_strides, st2) /\
    mapM _ _ (comp_simplified float_repr) all_strides st2 = Ok (all_strides_s, st3) /\
    length all_strides_s = length idx /\
    mem_window mem basetyp base idxs all_strides_s si = Ok data /\
    strides = String.concat ", " (kept_strides all_strides_s idx) /\
    st' = st3.
Proof.
  unfold window_struct_fields. intros H.
  apply bindM_ok_inv in H as (base & s1 & Hbase & H).
  apply env_of_ok in Hbase as [Hbase ->].
  apply bindM_ok_inv in H as (basetyp & s1 & Hbt & H).
  apply envtyp_of_ok in Hbt as [Hbt ->].
  apply bindM_ok_inv in H as (mem & s1 & Hmem & H).
  apply mem_of_ok in Hmem as [Hmem ->].
  apply bindM_ok_inv in H as (st0 & s1 & Hg & H). injection Hg as <- <-.
  apply bindM_ok_inv in H as (cirs & s1 & Hcirs & H).
  apply lift_ok in Hcirs as [Hcirs ->].
  apply bindM_ok_inv in H as (idxs & st1 & Hidxs & H).
  apply bindM_ok_inv in H as (all_strides & st2 & Hall & H).
  apply bindM_ok_inv in H as (all_strides_s & st3 & Halls & H).
  destruct ((0 <? length all_strides_s)%nat && (length all_strides_s =? length idx)%nat)
    eqn:Hlen; simpl in H; [|discriminate].
  apply andb_prop in Hlen as [_ Hlen]. apply Nat.eqb_eq in Hlen.
  apply bindM_ok_inv in H as (dataptr & s4 & Hd & H).
  apply lift_ok in Hd as [Hd ->]. injection H as <- <- <-.
  exists base, basetyp, mem, cirs, idxs, all_strides, all_strides_s, st1, st2, st3.
  repeat (split; [assumption || reflexivity|]). reflexivity.
Qed.

Lemma kept_strides_Interval s ss lo hi idx :
  kept_strides (s :: ss) (Interval lo hi :: idx) = s :: kept_strides ss idx.
Proof. reflexivity. Qed.

Lemma kept_strides_Point s ss pt idx :
  kept_strides (s :: ss) (Point pt :: idx) = kept_strides ss idx.
Proof. reflexivity. Qed.

Lemma comp_simplified_window_defns c (st st' : Compiler) s :
  comp_simplified float_repr c st = Ok (s, st') ->
  window_defns _ st' = window_defns _ st.
Proof.
  unfold comp_simplified. intros H.
  apply bindM_ok_inv in H as (c' & st1 & Hc & H).
  apply lift_ok in Hc as [_ ->].
  apply bindM_ok_inv in H as (st0 & st1 & Hg & H). injection Hg as <- <-.
  apply comp_cir_helpers in H as ->. reflexivity.
Qed.

Lemma mapM_comp_simplified_window_defns l (st st' : Compiler) r :
  mapM _ _ (comp_simplified float_repr) l st = Ok (r, st') ->
  window_defns _ st' = window_defns _ st.
Proof.
  revert st st' r. induction l as [|c l IH]; intros st st' r H.
  - by injection H as _ <-.
  - simpl in H.
    apply bindM_ok_inv in H as (b & st1 & Hb & H).
    apply bindM_ok_inv in H as (bs & st2 & Hbs & H).
    injection H as _ <-.
    rewrite (IH _ _ _ Hbs). by apply comp_simplified_window_defns in Hb.
Qed.

Lemma get_strides_state x ty (st st' : Compiler) r :
  get_strides check_non_neg x ty st = Ok (r, st') -> st' = st.
Proof.
  unfold get_strides. destruct (is_win ty).
  - by intros [= _ <-].
  - unfold tensor_strides. intros H.
    apply bindM_ok_inv in H as (st0 & st1 & Hg & H). injection Hg as <- <-.
    apply bindM_ok_inv in H as (szs & st1 & Hs & H).
    apply lift_ok in Hs as [_ ->].
    destruct (last szs); [|discriminate].
    destruct (fold_left _ _ _). by injection H as _ <-.
Qed.

(** What [get_window_type] selects for a window type when the
    constness is left open: the base type and the rank of the window
    seen as a tensor, constant unless the source buffer is written. *)
Lemma get_window_type_Window_ok ty (st st' : Compiler) win :
  get_window_type ctype (inl ty) None st = Ok (win, st') ->
  exists src_type as_tensor src_buf widx w,
    ty = Window src_type as_tensor src_buf widx /\
    window_struct ctype (basetype as_tensor) (length (shape as_tensor))
      (bool_decide (sym_id src_buf ∉ non_const _ st)) = Ok w /\
    win = ws_name w /\
    st' = set_window_defns ({[ w ]} ∪ window_defns _ st) st.
Proof.
  unfold get_window_type. intros H.
  apply bindM_ok_inv in H as (st0 & st1 & Hg & H). injection Hg as <- <-.
  apply bindM_ok_inv in H as ([[base n] c] & st1 & Hsel & H).
  apply bindM_ok_inv in H as (w & st2 & Hw & H).
  apply bindM_ok_inv in H as ([] & st3 & Hm & H).
  injection H as <- <-. injection Hm as <-.
  apply lift_ok in Hw as [Hw ->].
  destruct ty as [p|shp isw p|src_type as_tensor src_buf widx]; try discriminate.
  injection Hsel as <- <- <- <-.
  exists src_type, as_tensor, src_buf, widx, w. repeat split. exact Hw.
Qed.

(** What [comp_e] emits for a window expression: the literal of the
    struct of the window type, whose data is the answer of the
    [window] hook of the memory of the buffer on the name of the
    buffer, the compiled lower ends of the coordinates and the
    compiled strides of the buffer, and whose strides are the compiled
    strides of the coordinates given as intervals. *)
Lemma comp_e_WindowExpr_ok x idx ty si prec (st st' : Compiler) s :
  comp_e' (WindowExpr x idx ty si) prec st = Ok (s, st') ->
  exists src_type as_tensor src_buf widx w base basetyp mem
         cirs idxs all_strides all_strides_s data st1,
    ty = Window src_type as_tensor src_buf widx /\
    window_struct ctype (basetype as_tensor) (length (shape as_tensor))
      (bool_decide (sym_id src_buf ∉ non_const _ st)) = Ok w /\
    window_defns _ st' = {[ w ]} ∪ window_defns _ st /\
    chain_lookup (sym_id x) (env _ st) = Some base /\
    envtyp _ st !! sym_id x = Some (Some basetyp) /\
    mems _ st !! sym_id x = Some mem /\
    mapR (fun w => lift_to_cir check_non_neg (w_lo w) (range _ st)) idx = Ok cirs /\
    mapM _ _ (comp_simplified float_repr) cirs
      (set_window_defns ({[ w ]} ∪ window_defns _ st) st) = Ok (idxs, st1) /\
    get_strides check_non_neg x basetyp st1 = Ok (all_strides, st1) /\
    mapM _ _ (comp_simplified float_repr) all_strides st1 = Ok (all_strides_s, st') /\
    length all_strides_s = length idx /\
    mem_window mem basetyp base idxs all_strides_s si = Ok data /\
    s = window_literal (ws_name w) data
          (String.concat ", " (kept_strides all_strides_s idx)).
Proof.
  rewrite comp_e_WindowExpr_eq. intros H.
  apply bindM_ok_inv in H as (win & st1 & Hwin & H).
  apply get_window_type_Window_ok in Hwin
    as (src_type & as_tensor & src_buf & widx & w & -> & Hw & -> & ->).
  apply bindM_ok_inv in H as ([data strides] & st2 & Hf & H).
  injection H as <- <-.
  apply window_struct_fields_ok in Hf
    as (base & basetyp & mem & cirs & idxs & all_strides & all_strides_s
        & s1 & s2 & s3 & Hbase & Hbt & Hmem & Hcirs & Hidxs & Hall & Halls
        & Hlen & Hdata & -> & ->).
  pose proof (get_strides_state _ _ _ _ _ Hall) as ->.
  exists src_type, as_tensor, src_buf, widx, w, base, basetyp, mem,
         cirs, idxs, all_strides, all_strides_s, data, s1.
  split; [reflexivity|]. split; [exact Hw|]. split.
  { apply mapM_comp_simplified_window_defns in Hidxs, Halls.
    rewrite Halls, Hidxs. reflexivity. }
  repeat (split; [assumption|]). reflexivity.
Qed.


End window_literal_facts.

Lemma window_struct_name_inj_witness :
  LoopIR.F32 = LoopIR.F32 /\ 2%nat = 2%nat /\ true = true.
Proof.
  apply (window_struct_name_inj Examples.ctype LoopIR.F32 2 true LoopIR.F32 2 true
           (_window_struct "f32" "float" 2 true)
           (_window_struct "f32" "float" 2 true)); reflexivity.
Defined.

Lemma window_struct_text_witness :
  definition (_window_struct "f32" "float" 2 false) =
    "#ifndef " +:+ upper "exo_win_2f32" +:+ NL +:+
    "#define " +:+ upper "exo_win_2f32" +:+ NL +:+
    "struct " +:+ "exo_win_2f32" +:+ "{" +:+ NL +:+
    "    " +:+ EmptyString +:+ "float" +:+ " * const data;" +:+ NL +:+
    "    const int_fast32_t strides[" +:+ pretty 2%nat +:+ "];" +:+ NL +:+
    "};" +:+ NL +:+
    "#endif".
Proof.
  apply (window_struct_text Examples.ctype LoopIR.F32 2 false
           (_window_struct "f32" "float" 2 false)).
  reflexivity.
Defined.

Lemma comp_e_WindowExpr_ok_witness :
  exists src_type as_tensor src_buf widx w base basetyp mem
         cirs idxs all_strides all_strides_s data st1,
    Examples.window_A_type = LoopIR.Window src_type as_tensor src_buf widx /\
    window_struct Examples.ctype (basetype as_tensor)
      (length (shape as_tensor))
      (bool_decide (sym_id src_buf ∉ non_const _ Examples.compiler_A)) = Ok w /\
    window_defns _
      (Examples.exec
         (comp_e IntervalRange.check_non_neg Examples.float_repr Examples.ctype
            Examples.mem_window Examples.extern_compile Examples.config_allow_rw
            Examples.window_A 0) Examples.compiler_A)
    = {[ w ]} ∪ window_defns _ Examples.compiler_A /\
    chain_lookup (sym_id Examples.sym_A) (env _ Examples.compiler_A) = Some base /\
    envtyp _ Examples.compiler_A !! sym_id Examples.sym_A = Some (Some basetyp) /\
    mems _ Examples.compiler_A !! sym_id Examples.sym_A = Some mem /\
    mapR (fun w => lift_to_cir IntervalRange.check_non_neg (w_lo w)
                     (range _ Examples.compiler_A)) Examples.slice_A = Ok cirs /\
    mapM _ _ (comp_simplified Examples.float_repr) cirs
      (set_window_defns ({[ w ]} ∪ window_defns _ Examples.compiler_A)
         Examples.compiler_A) = Ok (idxs, st1) /\
    get_strides IntervalRange.check_non_neg Examples.sym_A basetyp st1
    = Ok (all_strides, st1) /\
    mapM _ _ (comp_simplified Examples.float_repr) all_strides st1
    = Ok (all_strides_s,
          Examples.exec
            (comp_e IntervalRange.check_non_neg Examples.float_repr Examples.ctype
               Examples.mem_window Examples.extern_compile Examples.config_allow_rw
               Examples.window_A 0) Examples.compiler_A) /\
    length all_strides_s = length Examples.slice_A /\
    Examples.mem_window mem basetyp base idxs all_strides_s "ex.py:2" = Ok data /\
    "(struct exo_win_1f32c){ &A[(0) * (16) + (4) * (1)], { 16 } }"
    = window_literal (ws_name w) data
        (String.concat ", " (kept_strides all_strides_s Examples.slice_A)).
Proof.
  assert (comp_e IntervalRange.check_non_neg Examples.float_repr Examples.ctype
            Examples.mem_window Examples.extern_compile Examples.config_allow_rw
            Examples.window_A 0 Examples.compiler_A
          = Ok ("(struct exo_win_1f32c){ &A[(0) * (16) + (4) * (1)], { 16 } }",
                Examples.exec
                  (comp_e IntervalRange.check_non_neg Examples.float_repr
                     Examples.ctype Examples.mem_window Examples.extern_compile
                     Examples.config_allow_rw Examples.window_A 0)
                  Examples.compiler_A)) as H
    by (apply exec_ok; vm_compute; reflexivity).
  exact (comp_e_WindowExpr_ok IntervalRange.check_non_neg Examples.float_repr
           Examples.ctype Examples.mem_window Examples.extern_compile
           Examples.config_allow_rw Examples.sym_A Examples.slice_A
           Examples.window_A_type "ex.py:2" 0 Examples.compiler_A _ _ H).
Defined.



(** ** Fresh names: new_varname *)

Section name_facts.

Lemma list_ascii_app (a b : string) :
  list_ascii_of_string (a +:+ b) = list_ascii_of_string a ++ list_ascii_of_string b.
Proof.
  induction a as [|c a IH]; [reflexivity|].
  change (c :: list_ascii_of_string (a +:+ b) =
          c :: (list_ascii_of_string a ++ list_ascii_of_string b)).
  by rewrite IH.
Qed.

Lemma string_length_list (s : string) :
  String.length s = length (list_ascii_of_string s).
Proof. induction s as [|c s IH]; simpl; congruence. Qed.

Lemma all_digits_forallb (s : string) :
  all_digits s = forallb is_digit (list_ascii_of_string s).
Proof. induction s as [|c s IH]; simpl; congruence. Qed.

Lemma existsb_rev {A} (f : A -> bool) (l : list A) :
  existsb f (rev l) = existsb f l.
Proof.
  induction l as [|a l IH]; [reflexivity|].
  simpl. rewrite existsb_app, IH. simpl. rewrite orb_false_r. apply orb_comm.
Qed.

Lemma forallb_rev {A} (f : A -> bool) (l : list A) :
  forallb f (rev l) = forallb f l.
Proof.
  induction l as [|a l IH]; [reflexivity|].
  simpl. rewrite forallb_app, IH. simpl. rewrite andb_true_r. apply andb_comm.
Qed.

Lemma is_digit_not_underscore c : is_digit c = true -> Ascii.eqb c underscore = false.
Proof.
  destruct (Ascii.eqb_spec c underscore) as [->|]; [discriminate|reflexivity].
Qed.

Lemma is_digit_not_LF c : is_digit c = true -> Ascii.eqb c LF = false.
Proof. destruct (Ascii.eqb_spec c LF) as [->|]; [discriminate|reflexivity]. Qed.

(** A run of digits before an underscore is split off. *)
Lemma split_suffix_digits (ds r acc : list ascii) :
  forallb is_digit ds = true ->
  split_suffix (ds ++ underscore :: r) acc = Some (r, rev ds ++ acc).
Proof.
  revert acc. induction ds as [|c ds IH]; intros acc Hd; simpl.
  - reflexivity.
  - simpl in Hd. apply andb_prop in Hd as [Hc Hd].
    rewrite (is_digit_not_underscore _ Hc), Hc, IH by exact Hd.
    by rewrite <- app_assoc.
Qed.

(** What a match says about the name. *)
Lemma match_suffix_Some s p d :
  match_suffix s = Some (p, d) ->
  existsb (Ascii.eqb LF) (list_ascii_of_string p) = false.
Proof.
  unfold match_suffix. intros H.
  destruct (split_suffix _ _) as [[rp ds]|]; [|discriminate].
  destruct (existsb (Ascii.eqb LF) rp) eqn:Hlf; [discriminate|].
  injection H as <- _. rewrite list_ascii_of_string_of_list_ascii.
  rewrite existsb_rev. exact Hlf.
Qed.

(** What [split_suffix] has read before the underscore. *)
Lemma split_suffix_inv (rs acc rp ds : list ascii) :
  split_suffix rs acc = Some (rp, ds) ->
  exists d0, ds = d0 ++ acc /\ rs = rev d0 ++ underscore :: rp.
Proof.
  revert acc. induction rs as [|c rs IH]; intros acc H; [discriminate|].
  simpl in H. destruct (Ascii.eqb_spec c underscore) as [->|Hc].
  - injection H as <- <-. by exists [].
  - destruct (is_digit c); [|discriminate].
    apply IH in H as (d0 & -> & ->). exists (d0 ++ [c]).
    rewrite <- app_assoc, rev_app_distr. split; reflexivity.
Qed.

(** A match with an empty counter: the name ends in an underscore, up
    to one final line feed. *)
Lemma match_suffix_empty s p :
  match_suffix s = Some (p, EmptyString) ->
  s = p +:+ "_" \/ s = p +:+ "_" +:+ NL.
Proof.
  unfold match_suffix. intros H.
  destruct (split_suffix _ _) as [[rp ds]|] eqn:Hsp; [|discriminate].
  destruct (existsb (Ascii.eqb LF) rp); [discriminate|].
  injection H as <- Hds.
  assert (ds = []) as -> by (by destruct ds).
  apply split_suffix_inv in Hsp as (d0 & Hd0 & Hrs).
  symmetry in Hd0. apply app_eq_nil in Hd0 as [-> _]. simpl in Hrs.
  assert (forall l : list ascii, rev (list_ascii_of_string s) = l ->
            s = string_of_list_ascii (rev l)) as Hback.
  { intros l <-. by rewrite rev_involutive, string_of_list_ascii_of_string. }
  assert (forall a b : list ascii,
            string_of_list_ascii (a ++ b) = string_of_list_ascii a +:+ string_of_list_ascii b)
    as Happ.
  { intros a b. induction a as [|x a IHa]; [reflexivity|].
    simpl. by rewrite IHa. }
  destruct (rev (list_ascii_of_string s)) as [|c rs] eqn:Hrev; [discriminate|].
  destruct (Ascii.eqb_spec c LF) as [->|Hc].
  - right. subst rs. rewrite (Hback _ eq_refl). simpl.
    rewrite <- !app_assoc, !Happ. reflexivity.
  - left. rewrite Hrs in Hback. rewrite (Hback _ eq_refl). simpl.
    rewrite Happ. reflexivity.
Qed.

(** A name made of a prefix without line feed, an underscore and a
    non-empty run of digits matches, and splits there. *)
Lemma match_suffix_counter p d :
  existsb (Ascii.eqb LF) (list_ascii_of_string p) = false ->
  all_digits d = true -> d <> EmptyString ->
  match_suffix (p +:+ "_" +:+ d) = Some (p, d).
Proof.
  intros Hp Hd Hne. unfold match_suffix.
  rewrite !list_ascii_app. change (list_ascii_of_string "_") with [underscore].
  rewrite all_digits_forallb in Hd.
  assert (list_ascii_of_string d <> []) as Hne'.
  { destruct d; [congruence|discriminate]. }
  set (ld := list_ascii_of_string d) in *.
  rewrite rev_app_distr. simpl. rewrite <- app_assoc. simpl.
  assert (forallb is_digit (rev ld) = true) as Hrd by (by rewrite forallb_rev).
  destruct (rev ld) as [|c rl] eqn:Hrl.
  { exfalso. apply Hne'. apply (f_equal (@rev _)) in Hrl.
    by rewrite rev_involutive in Hrl. }
  simpl in Hrd. apply andb_prop in Hrd as [Hc Hrd'].
  rewrite <- !app_comm_cons. cbv beta iota.
  rewrite (is_digit_not_LF _ Hc). rewrite app_comm_cons.
  rewrite split_suffix_digits by (simpl; by rewrite Hc, Hrd').
  rewrite existsb_rev, Hp. rewrite <- Hrl, rev_involutive, app_nil_r.
  rewrite rev_involutive. unfold ld.
  by rewrite !string_of_list_ascii_of_string.
Qed.

(** Appending [_1] to a name gives a match on the whole of it, unless
    it holds a line feed. *)
Lemma match_suffix_append s :
  match_suffix (s +:+ "_1") =
  if existsb (Ascii.eqb LF) (list_ascii_of_string s) then None else Some (s, "1").
Proof.
  unfold match_suffix. rewrite list_ascii_app, rev_app_distr. simpl.
  rewrite existsb_rev, rev_involutive, string_of_list_ascii_of_string.
  reflexivity.
Qed.

(** *** Decimal numerals *)

Lemma pretty_N_char_val x :
  (x < 10)%N ->
  Z.of_nat (default 0%nat (Ascii.is_nat (pretty_N_char x))) = Z.of_N x.
Proof.
  intros Hx.
  assert (x = 0 \/ x = 1 \/ x = 2 \/ x = 3 \/ x = 4 \/ x = 5 \/ x = 6 \/
          x = 7 \/ x = 8 \/ x = 9)%N as H by lia.
  repeat (destruct H as [->|H]; [reflexivity|]). by subst.
Qed.

Lemma pretty_N_go_val x s :
  digits_val 0 (list_ascii_of_string (pretty_N_go x s))
  = digits_val (Z.of_N x) (list_ascii_of_string s).
Proof.
  revert s. induction (N.lt_wf_0 x) as [x _ IH]; intros s.
  destruct (decide (x = 0)%N) as [->|Hx]; [by rewrite pretty_N_go_0|].
  rewrite pretty_N_go_step by lia.
  rewrite IH by (apply N.div_lt; lia).
  simpl. unfold digits_val at 1. simpl. fold (digits_val
    (10 * Z.of_N (x `div` 10) +
     Z.of_nat (default 0%nat (Ascii.is_nat (pretty_N_char (x `mod` 10)))))
    (list_ascii_of_string s)).
  rewrite pretty_N_char_val by (apply N.mod_lt; lia).
  f_equal. rewrite (N.div_mod x 10) at 3 by lia. lia.
Qed.

Lemma pretty_N_go_nonempty x s :
  (0 < x)%N \/ s <> EmptyString -> pretty_N_go x s <> EmptyString.
Proof.
  revert s. induction (N.lt_wf_0 x) as [x _ IH]; intros s Hs.
  destruct (decide (x = 0)%N) as [->|Hx].
  - rewrite pretty_N_go_0. destruct Hs; [lia|assumption].
  - rewrite pretty_N_go_step by lia. apply IH; [apply N.div_lt; lia|].
    right. discriminate.
Qed.

Lemma pretty_N_digits (x : N) : all_digits (pretty x) = true.
Proof.
  unfold pretty, pretty_N. case_decide; [reflexivity|].
  by apply pretty_N_go_digits.
Qed.

Lemma pretty_N_nonempty (x : N) : pretty x <> EmptyString.
Proof.
  unfold pretty, pretty_N. case_decide; [discriminate|].
  apply pretty_N_go_nonempty. left. lia.
Qed.

Lemma pretty_N_val (x : N) :
  digits_val 0 (list_ascii_of_string (pretty x)) = Z.of_N x.
Proof.
  unfold pretty, pretty_N. case_decide as Hx; [by subst|].
  by rewrite pretty_N_go_val.
Qed.

Lemma pretty_Z_nonneg (z : Z) : 0 <= z -> pretty z = pretty (Z.to_N z).
Proof. destruct z; [reflexivity|reflexivity|lia]. Qed.

(** [int(str(z)) = z] for a natural number. *)
Lemma int_of_digits_pretty (z : Z) : 0 <= z -> int_of_digits (pretty z) = Ok z.
Proof.
  intros Hz. rewrite pretty_Z_nonneg by exact Hz.
  unfold int_of_digits.
  destruct (pretty (Z.to_N z)) eqn:Hp; [by apply pretty_N_nonempty in Hp|].
  rewrite <- Hp. f_equal.
  change (digits_val 0 (list_ascii_of_string (pretty (Z.to_N z))) = z).
  rewrite pretty_N_val. lia.
Qed.

Lemma digits_val_nonneg a l : 0 <= a -> 0 <= digits_val a l.
Proof.
  revert a. induction l as [|x l IH]; intros a Ha; [exact Ha|].
  apply IH. lia.
Qed.

Lemma int_of_digits_nonneg d n : int_of_digits d = Ok n -> 0 <= n.
Proof.
  unfold int_of_digits. destruct d as [|c d]; [discriminate|].
  intros [= <-]. apply (digits_val_nonneg _ (list_ascii_of_string d)). lia.
Qed.

Lemma string_length_app (a b : string) :
  String.length (a +:+ b) = (String.length a + String.length b)%nat.
Proof. induction a as [|c a IH]; simpl; [reflexivity|]. by rewrite <- IH. Qed.

(** *** One round of the loop raises the rank *)

Lemma bump_name_rank s s' :
  bump_name s = Ok s' -> rank_lt (name_rank s) (name_rank s').
Proof.
  unfold bump_name, name_rank.
  destruct (match_suffix s) as [[p d]|] eqn:Hm.
  - destruct (int_of_digits d) as [n|] eqn:Hn; [|discriminate].
    simpl. intros [= <-].
    pose proof (int_of_digits_nonneg _ _ Hn) as Hn0.
    rewrite match_suffix_counter.
    + rewrite int_of_digits_pretty by lia. right. simpl. lia.
    + by apply match_suffix_Some in Hm.
    + rewrite pretty_Z_nonneg by lia. apply pretty_N_digits.
    + rewrite pretty_Z_nonneg by lia. apply pretty_N_nonempty.
  - intros [= <-]. rewrite match_suffix_append.
    destruct (existsb _ _).
    + left. simpl. rewrite string_length_app. simpl. lia.
    + right. simpl. lia.
Qed.

Lemma rank_lt_le_trans a b c : rank_lt a b -> rank_le b c -> rank_lt a c.
Proof.
  intros Hab [<-|Hbc]; [exact Hab|].
  destruct a, b, c. unfold rank_lt in *. simpl in *. lia.
Qed.

Lemma rank_lt_irrefl a : ~ rank_lt a a.
Proof. unfold rank_lt. lia. Qed.

(** *** The names of a chain *)

Lemma chain_mem_keys (x : string) (nms : list (gmap string string)) :
  chain_mem x nms = true <-> x ∈ chain_keys nms.
Proof.
  unfold chain_mem, chain_keys. rewrite bool_decide_eq_true.
  induction nms as [|m nms IH]; simpl.
  - split; [intros [? [=]]|set_solver].
  - rewrite elem_of_union, elem_of_dom, <- IH.
    destruct (m !! x) eqn:Hx; split; eauto.
    intros [[? [=]]|H]; exact H.
Qed.

(** A loop that runs out of fuel has seen as many names as its fuel,
    all in the chain and no two the same. *)
Lemma rename_loop_diverged fuel nms s :
  rename_loop fuel nms s = Raise Diverged ->
  exists l : list string,
    length l = fuel /\ NoDup l /\
    Forall (fun x => x ∈ chain_keys nms /\ rank_le (name_rank s) (name_rank x)) l.
Proof.
  revert s. induction fuel as [|fuel IH]; intros s H.
  - exists []. repeat split; constructor.
  - simpl in H. destruct (chain_mem s nms) eqn:Hs; [|discriminate].
    destruct (bump_name s) as [s'|e] eqn:Hb; simpl in H; [|].
    + destruct (IH _ H) as (l & Hlen & Hnd & Hall).
      pose proof (bump_name_rank _ _ Hb) as Hlt.
      exists (s :: l). split; [simpl; congruence|]. split.
      * constructor; [|exact Hnd]. intros Hin.
        rewrite Forall_forall in Hall. destruct (Hall _ Hin) as [_ Hle].
        exact (rank_lt_irrefl _ (rank_lt_le_trans _ _ _ Hlt Hle)).
      * constructor.
        -- split; [by apply chain_mem_keys|by left].
        -- eapply Forall_impl; [exact Hall|].
           intros x [Hx Hle]. split; [exact Hx|]. right.
           exact (rank_lt_le_trans _ _ _ Hlt Hle).
    + injection H as ->. unfold bump_name in Hb.
      destruct (match_suffix s) as [[p d]|]; [|discriminate].
      unfold int_of_digits in Hb. destruct d; discriminate.
Qed.

(** The loop of [new_varname] ends: with one round more than there
    are names in the chain it never runs out of fuel. *)
Lemma rename_loop_fuel nms s :
  rename_loop (S (size (chain_keys nms))) nms s <> Raise Diverged.
Proof.
  intros H. apply rename_loop_diverged in H as (l & Hlen & Hnd & Hall).
  assert (list_to_set l ⊆ chain_keys nms) as Hsub.
  { intros x Hx. apply elem_of_list_to_set in Hx.
    rewrite Forall_forall in Hall. by destruct (Hall _ Hx). }
  apply subseteq_size in Hsub. rewrite size_list_to_set in Hsub by exact Hnd. lia.
Qed.

(** What the loop returns is not a name of the chain. *)
Lemma rename_loop_fresh fuel nms s s' :
  rename_loop fuel nms s = Ok s' -> chain_mem s' nms = false.
Proof.
  revert s. induction fuel as [|fuel IH]; intros s H; [discriminate|].
  simpl in H. destruct (chain_mem s nms) eqn:Hs.
  - destruct (bump_name s) as [s1|]; [|discriminate]. simpl in H. eauto.
  - by injection H as <-.
Qed.

Lemma rename_loop_raises fuel nms s e :
  rename_loop fuel nms s = Raise e -> e = Diverged \/ exists m, e = ValueError m.
Proof.
  revert s. induction fuel as [|fuel IH]; intros s H; simpl in H.
  - injection H as <-. by left.
  - destruct (chain_mem s nms); [|discriminate].
    destruct (bump_name s) as [s1|e1] eqn:Hb; simpl in H; [eauto|].
    injection H as <-. right. unfold bump_name in Hb.
    destruct (match_suffix s) as [[p d]|]; [|discriminate].
    unfold int_of_digits in Hb. destruct d; [|discriminate].
    simpl in Hb. injection Hb as <-. eauto.
Qed.

(** The one error of a round of the loop. *)
Lemma bump_name_raises s e :
  bump_name s = Raise e ->
  e = ValueError int_empty_msg /\ exists p, match_suffix s = Some (p, EmptyString).
Proof.
  unfold bump_name. destruct (match_suffix s) as [[p d]|]; [|discriminate].
  unfold int_of_digits. destruct d; [|discriminate].
  simpl. intros [= <-]. eauto.
Qed.

(** The rounds of the loop: every name it leaves behind is a name of
    the chain, and it stops at the first that is not, or at the first
    that [int] refuses. *)
Lemma rename_loop_trace fuel nms s :
  match rename_loop fuel nms s with
  | Ok s' =>
      exists k,
        bump_iter k s = Ok s' /\
        forall j, (j < k)%nat ->
          exists sj, bump_iter j s = Ok sj /\ chain_mem sj nms = true
  | Raise e =>
      e = Diverged \/
      exists k sk,
        bump_iter k s = Ok sk /\ chain_mem sk nms = true /\
        bump_name sk = Raise e
  end.
Proof.
  revert s. induction fuel as [|fuel IH]; intros s; simpl; [by left|].
  destruct (chain_mem s nms) eqn:Hs.
  - destruct (bump_name s) as [s1|e1] eqn:Hb; simpl.
    + specialize (IH s1). destruct (rename_loop fuel nms s1) as [s'|e].
      * destruct IH as (k & Hk & Hall). exists (S k). split.
        -- simpl. by rewrite Hb.
        -- intros [|j] Hj; [exists s; by split|].
           destruct (Hall j ltac:(lia)) as (sj & Hsj & Hin).
           exists sj. split; [simpl; by rewrite Hb|exact Hin].
      * destruct IH as [->|(k & sk & Hk & Hin & He)]; [by left|].
        right. exists (S k), sk. split; [simpl; by rewrite Hb|by split].
    + right. exists 0%nat, s. by repeat split.
  - exists 0%nat. split; [reflexivity|]. intros j Hj. lia.
Qed.

Lemma chain_lookup_set `{Countable K} {V} (k : K) (v : V) c :
  chain_lookup k (chain_set k v c) = Some v.
Proof.
  destruct c as [|m c]; simpl.
  - by rewrite lookup_singleton_eq.
  - by rewrite lookup_insert_eq.
Qed.

Lemma chain_lookup_set_ne `{Countable K} {V} (k k' : K) (v : V) c :
  k <> k' -> chain_lookup k' (chain_set k v c) = chain_lookup k' c.
Proof.
  intros Hne. destruct c as [|m c]; simpl.
  - by rewrite lookup_singleton_ne.
  - by rewrite lookup_insert_ne.
Qed.

Lemma chain_keys_set (k v : string) c :
  chain_keys (chain_set k v c) = {[ k ]} ∪ chain_keys c.
Proof.
  unfold chain_keys. destruct c as [|m c]; simpl.
  - rewrite dom_singleton_L. set_solver.
  - rewrite dom_insert_L. set_solver.
Qed.

Context {range_env : Type}.
Implicit Types st : Compiler range_env.

Lemma new_varname_spec symbol ty mem st :
  match new_varname symbol ty mem st with
  | Ok (nm, st') =>
      chain_mem nm (names _ st) = false /\
      chain_lookup nm (names _ st') = Some nm /\
      chain_lookup (sym_id symbol) (env _ st') = Some nm /\
      envtyp _ st' !! sym_id symbol = Some ty /\
      mems _ st' !! sym_id symbol = Some (default DRAM mem) /\
      chain_keys (names _ st') = {[ nm; sym_name symbol ]} ∪ chain_keys (names _ st)
  | Raise (ValueError _) => chain_mem (sym_name symbol) (names _ st) = true
  | Raise _ => False
  end.
Proof.
  unfold new_varname, mbind, M_bind, get. cbv beta iota.
  destruct (chain_lookup (sym_name symbol) (names _ st)) as [s|] eqn:Hl.
  - unfold lift.
    pose proof (rename_loop_fuel (names _ st) s) as Hfuel.
    destruct (rename_loop _ _ s) as [s'|e] eqn:Hr.
    + simpl. apply rename_loop_fresh in Hr.
      rewrite !chain_lookup_set, !lookup_insert_eq, !chain_keys_set.
      repeat split; try assumption. set_solver.
    + apply rename_loop_raises in Hr as [->|[m ->]]; [congruence|].
      unfold chain_mem. rewrite Hl. by apply bool_decide_eq_true_2.
  - simpl. rewrite !chain_lookup_set, !lookup_insert_eq, !chain_keys_set.
    repeat split.
    + unfold chain_mem. rewrite Hl. apply bool_decide_eq_false_2. by intros [? [=]].
    + set_solver.
Qed.

(** What [new_varname] does.  Its loop always ends, and its one
    error is that [int] refuses the empty counter of a name of the
    chain that ends in an underscore (up to one final line feed), met
    while renaming.  When it answers, the name it returns was not a
    name of the chain.  It is the text of the symbol when no name is
    recorded for that text; otherwise it comes from the recorded name
    by rounds of renaming, every name passed over being a name of the
    chain.  The name is recorded for itself, for the text of the
    symbol and as the name of the symbol, with the type and the memory
    given ([DRAM] by default), and no name is forgotten. *)
Theorem new_varname_fresh symbol ty mem st :
  (forall nm st',
      new_varname symbol ty mem st = Ok (nm, st') ->
      chain_mem nm (names _ st) = false /\
      match chain_lookup (sym_name symbol) (names _ st) with
      | None => nm = sym_name symbol
      | Some s0 =>
          exists k,
            bump_iter k s0 = Ok nm /\
            forall j, (j < k)%nat ->
              exists sj, bump_iter j s0 = Ok sj /\ chain_mem sj (names _ st) = true
      end /\
      chain_lookup nm (names _ st') = Some nm /\
      chain_lookup (sym_name symbol) (names _ st') = Some nm /\
      chain_lookup (sym_id symbol) (env _ st') = Some nm /\
      envtyp _ st' !! sym_id symbol = Some ty /\
      mems _ st' !! sym_id symbol = Some (default DRAM mem) /\
      chain_keys (names _ st') = {[ nm; sym_name symbol ]} ∪ chain_keys (names _ st)) /\
  (forall e,
      new_varname symbol ty mem st = Raise e ->
      e = ValueError int_empty_msg /\
      exists s0 k sk p,
        chain_lookup (sym_name symbol) (names _ st) = Some s0 /\
        bump_iter k s0 = Ok sk /\
        chain_mem sk (names _ st) = true /\
        (sk = p +:+ "_" \/ sk = p +:+ "_" +:+ NL)).
Proof.
  unfold new_varname, mbind, M_bind, get. cbv beta iota.
  destruct (chain_lookup (sym_name symbol) (names _ st)) as [s|] eqn:Hl.
  - unfold lift.
    pose proof (rename_loop_fuel (names _ st) s) as Hfuel.
    pose proof (rename_loop_trace (S (size (chain_keys (names _ st)))) (names _ st) s)
      as Htrace.
    destruct (rename_loop _ _ s) as [s'|e] eqn:Hr.
    + split; [|discriminate]. intros nm st' [= <- <-].
      apply rename_loop_fresh in Hr. simpl.
      destruct (decide (sym_name symbol = s')) as [Heq|Hne].
      * rewrite Heq, !chain_lookup_set, !lookup_insert_eq, !chain_keys_set.
        repeat split; try assumption. set_solver.
      * rewrite !chain_lookup_set, !lookup_insert_eq, !chain_keys_set.
        rewrite chain_lookup_set_ne, chain_lookup_set by (by apply not_eq_sym).
        repeat split; try assumption. set_solver.
    + split; [discriminate|]. intros e0 [= <-].
      destruct Htrace as [->|(k & sk & Hk & Hin & He)]; [congruence|].
      apply bump_name_raises in He as [-> [p Hp]].
      split; [reflexivity|]. exists s, k, sk, p.
      repeat split; try assumption. by apply match_suffix_empty.
  - split; [|discriminate]. intros nm st' [= <- <-]. simpl.
    rewrite !chain_lookup_set, !lookup_insert_eq, !chain_keys_set.
    repeat split.
    + unfold chain_mem. rewrite Hl. apply bool_decide_eq_false_2. by intros [? [=]].
    + set_solver.
Qed.

(** Two symbols introduced one after the other, be they one symbol
    twice, get two different names. *)
Theorem new_varname_distinct a ta ma b tb mb st st1 st2 n1 n2 :
  new_varname a ta ma st = Ok (n1, st1) ->
  new_varname b tb mb st1 = Ok (n2, st2) ->
  n1 <> n2.
Proof.
  intros H1 H2 ->.
  pose proof (new_varname_spec a ta ma st) as S1. rewrite H1 in S1.
  pose proof (new_varname_spec b tb mb st1) as S2. rewrite H2 in S2.
  destruct S1 as (_ & Hin & _). destruct S2 as (Hout & _).
  unfold chain_mem in Hout. rewrite Hin in Hout.
  apply bool_decide_eq_false_1 in Hout. apply Hout. eauto.
Qed.

End name_facts.

Lemma new_varname_fresh_witness :
  chain_mem "x_1"
    (names _ (Examples.exec (new_varname Examples.sym_x None None)
                (Examples.new_compiler tt))) = false /\
  (exists k,
      bump_iter k "x" = Ok "x_1" /\
      forall j, (j < k)%nat ->
        exists sj,
          bump_iter j "x" = Ok sj /\
          chain_mem sj
            (names _ (Examples.exec (new_varname Examples.sym_x None None)
                        (Examples.new_compiler tt))) = true) /\
  chain_lookup "x"
    (names _ (Examples.exec (new_varname (mkSym "x" 7) None None)
                (Examples.exec (new_varname Examples.sym_x None None)
                   (Examples.new_compiler tt)))) = Some "x_1".
Proof.
  assert (new_varname (mkSym "x" 7) None None
            (Examples.exec (new_varname Examples.sym_x None None)
               (Examples.new_compiler tt))
          = Ok ("x_1",
                Examples.exec (new_varname (mkSym "x" 7) None None)
                  (Examples.exec (new_varname Examples.sym_x None None)
                     (Examples.new_compiler tt)))) as H
    by (apply exec_ok; vm_compute; reflexivity).
  destruct (proj1 (new_varname_fresh (mkSym "x" 7) None None
                     (Examples.exec (new_varname Examples.sym_x None None)
                        (Examples.new_compiler tt))) _ _ H)
    as (Hfresh & Htrace & _ & Hname & _).
  split; [exact Hfresh|]. split; [exact Htrace|exact Hname].
Defined.

Lemma new_varname_distinct_witness : "x" <> "x_1".
Proof.
  apply (new_varname_distinct Examples.sym_x None None
           (mkSym "x" 7) None None
           (Examples.new_compiler tt)
           (Examples.exec (new_varname Examples.sym_x None None)
              (Examples.new_compiler tt))
           (Examples.exec (new_varname (mkSym "x" 7) None None)
              (Examples.exec (new_varname Examples.sym_x None None)
                 (Examples.new_compiler tt))));
    apply exec_ok; vm_compute; reflexivity.
Defined.

(** ** Scopes: push and pop *)

Section scope_facts.
Context {range_env : Type}.
Variable enter_scope exit_scope : range_env -> range_env.
Implicit Types st : Compiler range_env.

Lemma drop_last2_app (s : string) : drop_last2 (s +:+ "  ") = s.
Proof.
  unfold drop_last2. rewrite list_ascii_app, length_app. simpl.
  replace (length (list_ascii_of_string s) + 2 - 2)%nat
    with (length (list_ascii_of_string s)) by lia.
  rewrite take_app_length. apply string_of_list_ascii_of_string.
Qed.

Lemma parents_new_child `{Countable K} {V} (c : list (gmap K V)) :
  c <> [] -> parents (new_child c) = c.
Proof. by destruct c. Qed.

Lemma compiler_ext st st' :
  env _ st = env _ st' -> range _ st = range _ st' -> names _ st = names _ st' ->
  envtyp _ st = envtyp _ st' -> mems _ st = mems _ st' -> tab _ st = tab _ st' ->
  lines _ st = lines _ st' -> scalar_refs _ st = scalar_refs _ st' ->
  needed_helpers _ st = needed_helpers _ st' ->
  window_defns _ st = window_defns _ st' ->
  known_strides _ st = known_strides _ st' -> non_const _ st = non_const _ st' ->
  st = st'.
Proof. destruct st, st'. simpl. intros. by subst. Qed.

(** [pop] undoes [push]: a scope that is opened and closed leaves the
    compiler as it was, whenever leaving a scope of the range
    environment undoes entering it.  Opening the environment and the
    indentation one after the other is opening both at once, and any
    other value of [only] fails the assertion. *)
Theorem push_pop_roundtrip st :
  exit_scope (enter_scope (range _ st)) = range _ st ->
  env _ st <> [] -> names _ st <> [] ->
  (push enter_scope None ≫= fun _ => pop exit_scope) st = Ok (tt, st) /\
  (push enter_scope (Some "env") ≫= fun _ => push enter_scope (Some "tab")) st
  = push enter_scope None st /\
  (forall o, o <> "env" -> o <> "tab" ->
     push enter_scope (Some o) st = Raise (AssertionError ("BAD only parameter " +:+ o))).
Proof.
  intros Hscope Henv Hnames. split; [|split].
  - unfold mbind, M_bind, push, pop, modify. cbv beta iota.
    do 2 f_equal. apply compiler_ext; try reflexivity.
    + exact (parents_new_child (env _ st) Henv).
    + exact Hscope.
    + exact (parents_new_child (names _ st) Hnames).
    + exact (drop_last2_app (tab _ st)).
  - reflexivity.
  - intros o H1 H2. unfold push.
    destruct (String.eqb_spec o "env"); [contradiction|].
    destruct (String.eqb_spec o "tab"); [contradiction|]. reflexivity.
Qed.

End scope_facts.

Lemma push_pop_roundtrip_witness :
  (push IntervalRange.enter_scope None ≫= fun _ => pop IntervalRange.exit_scope)
    Examples.compiler_x
  = Ok (tt, Examples.compiler_x).
Proof.
  assert (IntervalRange.exit_scope
            (IntervalRange.enter_scope (range _ Examples.compiler_x))
          = range _ Examples.compiler_x) as H1 by (vm_compute; reflexivity).
  assert (env _ Examples.compiler_x <> []) as H2 by (vm_compute; discriminate).
  assert (names _ Examples.compiler_x <> []) as H3 by (vm_compute; discriminate).
  exact (proj1 (push_pop_roundtrip IntervalRange.enter_scope
                  IntervalRange.exit_scope Examples.compiler_x H1 H2 H3)).
Defined.

(** ** The walk over the call graph *)

Section call_graph_facts.
Import LoopIR.
Variable set_order : gset proc_ref -> list proc_ref.
Hypothesis set_order_spec : forall (S : gset proc_ref) x, x ∈ set_order S <-> x ∈ S.
Variable h : heap.
Hypothesis h_closed : closed_heap h.
Variable roots : list proc_ref.

Lemma walk_spec fuel : forall proc visited st,
  proc ∈ dom h -> walk_inv h roots visited st ->
  (size h < fuel + size visited)%nat ->
  (forall v, v ∈ visited -> rtc (calls h) v proc) ->
  reach_from h roots proc ->
  walk_post h roots visited proc st (walk set_order fuel h proc visited st).
Proof.
  induction fuel as [|fuel IH]; intros proc visited [all_procs seen] Hproc Hinv Hfuel Hreach Hroot.
  - exfalso. destruct Hinv as (_ & _ & Hvis & Hdom & _). simpl in *.
    assert (size visited <= size h)%nat; [|lia].
    rewrite <- size_dom. apply subseteq_size. set_solver.
  - simpl. case_bool_decide as Hseen.
    + simpl. split; [exact Hinv|]. split; [done|]. split; [exact Hseen|].
      exists []. split; [by rewrite app_nil_r|]. intros Hn. by destruct Hn.
    + apply elem_of_dom in Hproc as [p Hp]. unfold callee. rewrite Hp. simpl.
      destruct Hinv as (Hnd & Hset & Hvis & Hdom & Hclo & Hrch). simpl in *.
      assert (proc ∉ visited) as Hnv by set_solver.
      assert (forall sp, sp ∈ set_order (LoopIR_SubProcs p) -> calls h proc sp) as Hsps.
      { intros sp Hsp. exists p. split; [exact Hp|]. by apply set_order_spec. }
      assert (walk_inv h roots ({[ proc ]} ∪ visited) (all_procs ++ [proc], {[ proc ]} ∪ seen))
        as Hinv0.
      { split; [|split; [|split; [|split; [|split]]]]; simpl.
        - apply NoDup_app. split; [exact Hnd|]. split; [|apply NoDup_singleton].
          intros x Hx ->%list_elem_of_singleton. apply Hseen. rewrite <- Hset.
          by apply elem_of_list_to_set.
        - rewrite list_to_set_app_L, Hset. set_solver.
        - set_solver.
        - assert (proc ∈ dom h) by (apply elem_of_dom; eauto). set_solver.
        - intros f g Hf Hc. apply elem_of_union in Hf as [Hf|Hf]; [set_solver|].
          destruct (Hclo f g Hf Hc); set_solver.
        - intros f [->%elem_of_singleton|Hf]%elem_of_union; [exact Hroot|by apply Hrch]. }
      assert (forall st1,
        walk_inv h roots ({[ proc ]} ∪ visited) st1 -> {[ proc ]} ∪ seen ⊆ st1.2 ->
        (exists l, st1.1 = all_procs ++ proc :: l) ->
        forall (sps dn : list proc_ref),
        (forall sp, sp ∈ sps -> calls h proc sp) ->
        (forall sp, sp ∈ LoopIR_SubProcs p -> sp ∈ dn \/ sp ∈ sps) ->
        (forall sp, sp ∈ dn -> sp ∈ st1.2) ->
        walk_post h roots visited proc (all_procs, seen)
          ((fix each (sps : list proc_ref) (st : list proc_ref * gset proc_ref) :=
              match sps with
              | [] => Ok st
              | sp :: sps' =>
                  if bool_decide (sp ∈ visited) then
                    q ← callee h sp;
                    Raise (ValueError ("found call cycle involving " +:+ name q))
                  else
                    st' ← walk set_order fuel h sp ({[ proc ]} ∪ visited) st;
                    each sps' st'
              end) sps st1)) as Hloop.
      { intros st1 Hinv1 Hsub1 Hpre1 sps. revert st1 Hinv1 Hsub1 Hpre1.
        induction sps as [|sp sps IHs]; intros st1 Hinv1 Hsub1 Hpre1 dn Hcalls Hdone Hin.
        - simpl. destruct Hinv1 as (Hnd1 & Hset1 & Hvis1 & Hdom1 & Hclo1 & Hrch1).
          split; [|split; [set_solver|split; [set_solver|]]].
          2:{ destruct Hpre1 as [l1 Hl1]. exists (proc :: l1). split; [exact Hl1|eauto]. }
          split; [exact Hnd1|]. split; [exact Hset1|]. split; [set_solver|].
          split; [exact Hdom1|]. split; [|exact Hrch1].
          intros f g Hf Hc. destruct (Hclo1 f g Hf Hc) as [Hv|Hg]; [|by right].
          apply elem_of_union in Hv as [Hv|Hv]; [|by left].
          apply elem_of_singleton in Hv as ->. right.
          destruct Hc as (p' & Hp' & Hg). rewrite Hp in Hp'. injection Hp' as <-.
          destruct (Hdone g Hg) as [Hd|Hd]; [by apply Hin|].
          by apply elem_of_nil in Hd.
        - case_bool_decide as Hsv.
          + assert (sp ∈ dom h) as [q Hq]%elem_of_dom by set_solver.
            unfold callee. rewrite Hq. simpl.
            exists sp, proc. split; [set_solver|]. split; [by apply Hreach|].
            apply Hcalls. by left.
          + assert (calls h proc sp) as Hc by (apply Hcalls; by left).
            specialize (IH sp ({[ proc ]} ∪ visited) st1).
            destruct (walk set_order fuel h sp ({[ proc ]} ∪ visited) st1)
              as [st2|e] eqn:Hw; simpl.
            * destruct IH as (Hinv2 & Hsub2 & Hsp2 & l2 & Hl2 & _).
              -- by apply (h_closed proc sp).
              -- exact Hinv1.
              -- rewrite size_union by set_solver. rewrite size_singleton. lia.
              -- intros v [->%elem_of_singleton|Hv]%elem_of_union.
                 ++ by apply rtc_once.
                 ++ eapply rtc_r; [by apply Hreach|exact Hc].
              -- destruct Hroot as (r & Hr & Hrp). exists r. split; [exact Hr|].
                 eapply rtc_r; [exact Hrp|exact Hc].
              -- apply (IHs st2 Hinv2) with (dn := sp :: dn).
                 ++ set_solver.
                 ++ destruct Hpre1 as [l1 Hl1]. exists (l1 ++ l2).
                    rewrite Hl2, Hl1. by rewrite <- app_assoc.
                 ++ intros x Hx. apply Hcalls. by right.
                 ++ intros x Hx. destruct (Hdone x Hx) as [Hd|Hd].
                    ** left. by right.
                    ** apply elem_of_cons in Hd as [->|Hd]; [left; by left|by right].
                 ++ intros x [->|Hx]%elem_of_cons; [exact Hsp2|]. apply Hsub2. by apply Hin.
            * destruct e; try (exfalso; apply IH); try apply IH.
              all: try by apply (h_closed proc sp).
              all: try exact Hinv1.
              all: try (rewrite size_union by set_solver; rewrite size_singleton; lia).
              all: try (destruct Hroot as (r & Hr & Hrp); exists r; split; [exact Hr|];
                        eapply rtc_r; [exact Hrp|exact Hc]).
              all: intros v [->%elem_of_singleton|Hv]%elem_of_union;
                [by apply rtc_once|eapply rtc_r; [by apply Hreach|exact Hc]]. }
      apply (Hloop _ Hinv0) with (dn := []).
      * done.
      * exists []. reflexivity.
      * exact Hsps.
      * intros sp Hsp. right. by apply set_order_spec.
      * intros sp Hsp. by apply elem_of_nil in Hsp.
Qed.

Lemma walk_all_spec proc_list : forall st,
  (forall f, f ∈ proc_list -> f ∈ dom h /\ f ∈ roots) ->
  walk_inv h roots ∅ st ->
  match walk_all set_order (S (size h)) h proc_list st with
  | Ok st' =>
      walk_inv h roots ∅ st' /\ st.2 ⊆ st'.2 /\
      (forall f, f ∈ proc_list -> f ∈ st'.2) /\
      exists l, st'.1 = st.1 ++ l /\
        (st.1 = [] -> forall f fs, proc_list = f :: fs -> exists l', l = f :: l')
  | Raise (ValueError _) => call_cycle h
  | Raise _ => False
  end.
Proof.
  induction proc_list as [|proc rest IH]; intros st Hdom Hinv.
  - simpl. split; [exact Hinv|]. split; [done|]. split; [by intros f ?%elem_of_nil|].
    exists []. split; [by rewrite app_nil_r|]. intros _ f fs [=].
  - change (walk_all set_order (S (size h)) h (proc :: rest) st)
      with (walk set_order (S (size h)) h proc ∅ st ≫=
            walk_all set_order (S (size h)) h rest).
    pose proof (walk_spec (S (size h)) proc ∅ st) as Hw.
    destruct (walk set_order (S (size h)) h proc ∅ st) as [st1|e] eqn:Hwalk.
    + destruct Hw as (Hinv1 & Hsub1 & Hp1 & l1 & Hl1 & Hnew).
      * apply Hdom. by left.
      * exact Hinv.
      * rewrite size_empty. lia.
      * intros v Hv. by apply elem_of_empty in Hv.
      * exists proc. split; [apply Hdom; by left|reflexivity].
      * simpl. specialize (IH st1).
        destruct (walk_all set_order (S (size h)) h rest st1) as [st2|e] eqn:Hrest.
        -- destruct IH as (Hinv2 & Hsub2 & Hall2 & l2 & Hl2 & _).
           ++ intros f Hf. apply Hdom. by right.
           ++ exact Hinv1.
           ++ split; [exact Hinv2|]. split; [set_solver|]. split.
              ** intros f [->|Hf]%elem_of_cons; [by apply Hsub2|by apply Hall2].
              ** exists (l1 ++ l2). split; [by rewrite Hl2, Hl1, app_assoc|].
                 intros Hnil f fs [= <- <-].
                 destruct Hnew as [l' ->]; [|by eexists].
                 destruct Hinv as (_ & Hset & _). rewrite Hnil in Hset.
                 simpl in Hset. rewrite <- Hset. set_solver.
        -- destruct e; try (exfalso; apply IH); try apply IH.
           all: try exact Hinv1.
           all: intros f Hf; apply Hdom; by right.
    + simpl. destruct e; try (exfalso; apply Hw); try apply Hw.
      all: try (apply Hdom; by left).
      all: try exact Hinv.
      all: try (rewrite size_empty; lia).
      all: try (intros v Hv; by apply elem_of_empty in Hv).
      all: exists proc; split; [apply Hdom; by left|reflexivity].
Qed.

End call_graph_facts.

Section find_all_subprocs_facts.
Import LoopIR.
Variable set_order : gset proc_ref -> list proc_ref.
Hypothesis set_order_spec : forall (S : gset proc_ref) x, x ∈ set_order S <-> x ∈ S.

(** [find_all_subprocs] on procedures of a heap that holds all its
    callees.  The walk always ends.  It answers with the procedures
    that the given ones reach through calls, those and no other, once
    each, the first given one last; or it raises [ValueError], and then
    two different procedures call each other through a chain of calls.
    Calls made by instructions are not followed. *)
Theorem find_all_subprocs_closure (h : heap) (proc_list : list proc_ref) :
  closed_heap h ->
  (forall f, f ∈ proc_list -> f ∈ dom h) ->
  match find_all_subprocs set_order h proc_list with
  | Ok l =>
      NoDup l /\
      (forall f, f ∈ l <-> reach_from h proc_list f) /\
      (forall f fs, proc_list = f :: fs -> last l = Some f)
  | Raise (ValueError _) => call_cycle h
  | Raise _ => False
  end.
Proof.
  intros Hclosed Hdom. unfold find_all_subprocs.
  pose proof (walk_all_spec set_order set_order_spec h Hclosed proc_list proc_list
                ([], ∅)) as Hw.
  destruct (walk_all set_order (S (size h)) h proc_list ([], ∅)) as [[l seen]|e].
  - simpl. destruct Hw as (Hinv & _ & Hall & l' & Hl & Hfirst).
    + intros f Hf. split; [by apply Hdom|exact Hf].
    + split; [constructor|]. split; [reflexivity|]. split; [done|].
      split; [set_solver|]. split; [|set_solver].
      intros f g Hf. by apply elem_of_empty in Hf.
    + destruct Hinv as (Hnd & Hset & _ & _ & Hclo & Hrch). simpl in *.
      split; [by rewrite <- (Permutation_rev l)|]. split.
      * intros f. rewrite <- (Permutation_rev l).
        rewrite <- (elem_of_list_to_set (C := gset proc_ref)), Hset.
        split; [apply Hrch|].
        intros (r & Hr & Hpath). specialize (Hall r Hr). clear Hr.
        induction Hpath as [x|x y z Hxy _ IH]; [exact Hall|].
        apply IH. destruct (Hclo x y Hall Hxy) as [Hv|Hy]; [|exact Hy].
        by apply elem_of_empty in Hv.
      * intros f fs Hpl. destruct (Hfirst eq_refl f fs Hpl) as [l2 ->].
        subst l. simpl. by rewrite last_snoc.
  - destruct e; try (exfalso; apply Hw); try apply Hw.
    all: try (intros f Hf; split; [by apply Hdom|exact Hf]).
    all: split; [constructor|]; split; [reflexivity|]; split; [done|];
      split; [set_solver|]; split; [|set_solver];
      intros f g Hf; by apply elem_of_empty in Hf.
Qed.

(** A procedure that calls itself, and nothing else, passes the check
    for cycles: the walk answers with that one procedure. *)
Theorem find_all_subprocs_self_call (h : heap) (f : proc_ref) (p : proc) :
  h !! f = Some p ->
  LoopIR_SubProcs p = {[ f ]} ->
  calls h f f /\ find_all_subprocs set_order h [f] = Ok [f].
Proof.
  intros Hp Hsub. split.
  { exists p. split; [exact Hp|]. rewrite Hsub. by apply elem_of_singleton. }
  unfold find_all_subprocs.
  assert (exists n, size h = S n) as [n Hn].
  { destruct (size h) eqn:Hs; [|eauto].
    apply map_size_empty_inv in Hs. subst h.
    by rewrite lookup_empty in Hp. }
  rewrite Hn. simpl. rewrite bool_decide_eq_false_2 by set_solver.
  unfold callee. rewrite Hp. simpl. rewrite Hsub.
  assert (forall x, x ∈ set_order {[ f ]} -> x = f) as Hall.
  { intros x Hx. apply set_order_spec in Hx. by apply elem_of_singleton in Hx. }
  revert Hall. generalize (set_order {[ f ]}) as sps.
  induction sps as [|sp sps IH]; intros Hall; [reflexivity|].
  rewrite (Hall sp) by (by left).
  rewrite bool_decide_eq_false_2 by set_solver.
  rewrite bool_decide_eq_true_2 by set_solver. simpl.
  apply IH. intros x Hx. apply Hall. by right.
Qed.

End find_all_subprocs_facts.

Lemma caller_heap_closed : closed_heap Examples.caller_heap.
Proof.
  intros f g (p & Hp & Hg). unfold Examples.caller_heap in *.
  apply lookup_insert_Some in Hp as [[<- <-]|[_ Hp]].
  - assert (LoopIR_SubProcs Examples.caller = {[ 2%positive ]}) as Heq
      by (unfold LoopIR_SubProcs; simpl; set_solver).
    rewrite Heq in Hg. apply elem_of_singleton in Hg as ->.
    apply elem_of_dom. by exists Examples.leaf.
  - apply lookup_singleton_Some in Hp as [<- <-].
    unfold LoopIR_SubProcs in Hg. simpl in Hg. set_solver.
Qed.

Lemma find_all_subprocs_closure_witness :
  match find_all_subprocs elements Examples.caller_heap [1%positive] with
  | Ok l =>
      NoDup l /\
      (forall f, f ∈ l <-> reach_from Examples.caller_heap [1%positive] f) /\
      (forall f fs, [1%positive] = f :: fs -> last l = Some f)
  | Raise (ValueError _) => call_cycle Examples.caller_heap
  | Raise _ => False
  end.
Proof.
  apply (find_all_subprocs_closure elements).
  - intros S x. apply elem_of_elements.
  - exact caller_heap_closed.
  - intros f ->%list_elem_of_singleton. apply elem_of_dom. by exists Examples.caller.
Defined.

Lemma find_all_subprocs_self_call_witness :
  calls Examples.recursive_heap 1%positive 1%positive /\
  find_all_subprocs elements Examples.recursive_heap [1%positive] = Ok [1%positive].
Proof.
  apply (find_all_subprocs_self_call elements (fun S x => elem_of_elements S x)
           Examples.recursive_heap 1%positive Examples.recursive).
  - apply lookup_singleton_eq.
  - unfold LoopIR_SubProcs. simpl. set_solver.
Defined.

(** C7.  [main] calls [rec_step], which calls itself: a cycle of the
    call graph that is reached from the list.  When [walk] looks at
    the callee of [rec_step], the set [visited] holds [main] only
    ([rec_step] is added for the nested call), so no cycle is found;
    the nested call returns at once, [rec_step] being seen already.
    No error is raised and both procedures are returned. *)
Theorem self_call_not_rejected :
  calls Examples.main_heap 1%positive 2%positive /\
  calls Examples.main_heap 2%positive 2%positive /\
  find_all_subprocs elements Examples.main_heap [1%positive]
  = Ok [2%positive; 1%positive].
Proof.
  split; [|split].
  - exists Examples.main. split; [reflexivity|].
    unfold LoopIR_SubProcs. simpl. set_solver.
  - exists Examples.rec_step. split; [reflexivity|].
    unfold LoopIR_SubProcs. simpl. set_solver.
  - vm_compute. reflexivity.
Qed.

(** ** Strides and offsets *)

Section layout_facts.
Context {range_env : Type}.
Variable check_non_neg : range_env -> LoopIR.expr -> bool.
Implicit Types st : Compiler range_env.

Lemma strides_fold_denote rho (init : list CIR.expr) (s_last : CIR.expr) ivs v_last :
  denote_all rho init ivs -> denote rho s_last = Some v_last ->
  let '(strides, s) :=
    fold_right (fun a b => (fun '(strides, s) sz => (strides ++ [s], CIR.BinOp Mul sz s true)) b a)
      ([CIR.Const (PyInt 1)], s_last) init in
  denote rho s = Some (fold_right Z.mul 1 (ivs ++ [v_last])) /\
  denote_all rho (rev strides) (row_major (ivs ++ [v_last])).
Proof.
  intros Hinit Hlast. induction Hinit as [|a v init ivs Ha Hinit IH]; simpl.
  - rewrite Hlast. split; [f_equal; lia|]. repeat constructor.
  - destruct (fold_right _ _ init) as [strides s]. destruct IH as [Hs Hstr].
    simpl. rewrite Ha, Hs. split; [reflexivity|].
    rewrite rev_app_distr. simpl. constructor; [exact Hs|exact Hstr].
Qed.

Lemma strides_fold_length (init : list CIR.expr) (s_last : CIR.expr) :
  length (fold_right (fun a b => (fun '(strides, s) sz => (strides ++ [s], CIR.BinOp Mul sz s true)) b a)
            ([CIR.Const (PyInt 1)], s_last) init).1 = S (length init).
Proof.
  induction init as [|a init IH]; [reflexivity|].
  simpl. destruct (fold_right _ _ init) as [strides s]. simpl in *.
  rewrite length_app. simpl. lia.
Qed.

Lemma mapR_length {A B} (f : A -> result B) (l : list A) (r : list B) :
  mapR f l = Ok r -> length r = length l.
Proof.
  revert r. induction l as [|a l IH]; intros r H; simpl in H.
  - by injection H as <-.
  - destruct (f a) as [b|]; [|discriminate]. simpl in H.
    destruct (mapR f l) as [bs|]; [|discriminate]. simpl in H.
    injection H as <-. simpl. f_equal. by apply IH.
Qed.

Lemma fold_left_rev_fold_right {A B} (g : B -> A -> B) (l : list A) (b : B) :
  fold_left g (rev l) b = fold_right (fun a b => g b a) b l.
Proof.
  induction l as [|a l IH]; [reflexivity|].
  simpl. by rewrite fold_left_app, IH.
Qed.

Lemma tensor_strides_ok shp st strides st' :
  tensor_strides check_non_neg shp st = Ok (strides, st') ->
  st' = st /\ length strides = length shp /\
  exists szs,
    mapR (fun i => lift_to_cir check_non_neg i (range _ st)) shp = Ok szs /\
    forall rho ns, denote_all rho szs ns -> denote_all rho strides (row_major ns).
Proof.
  intros H. unfold tensor_strides in H.
  apply bindM_ok_inv in H as (st0 & st1 & Hg & H). injection Hg as <- <-.
  apply bindM_ok_inv in H as (szs & st1 & Hs & H).
  apply lift_ok in Hs as [Hs ->].
  destruct (last szs) as [s_last|] eqn:Hlast; [|discriminate].
  apply last_Some in Hlast as [init ->].
  rewrite removelast_last, fold_left_rev_fold_right in H.
  pose proof (strides_fold_length init s_last) as Hlen.
  pose proof (fun rho ivs v => strides_fold_denote rho init s_last ivs v) as Hden.
  destruct (fold_right _ _ init) as [rstrides s].
  injection H as <- <-.
  split; [reflexivity|]. split.
  - rewrite length_rev. simpl in Hlen. rewrite Hlen.
    apply mapR_length in Hs. rewrite <- Hs, length_app. simpl. lia.
  - exists (init ++ [s_last]). split; [exact Hs|].
    intros rho ns Hns. apply Forall2_app_inv_l in Hns as (ivs & vl & Hi & Hl & ->).
    inversion Hl as [|? v ? ? Hv Hnil]; subst. inversion Hnil; subst.
    by apply (Hden rho ivs v Hi Hv).
Qed.

(** The strides that [tensor_strides] builds for a dense tensor are
    those of the row-major layout: under every valuation, the stride
    of a dimension is the product of the sizes of the dimensions after
    it, and the last stride is one.  The compiler object is left as it
    was; an empty shape fails the assertion. *)
Theorem tensor_strides_row_major :
  (forall st, tensor_strides check_non_neg [] st = Raise (AssertionError EmptyString)) /\
  (forall shp st strides st',
     tensor_strides check_non_neg shp st = Ok (strides, st') ->
     st' = st /\ length strides = length shp /\
     exists szs,
       mapR (fun i => lift_to_cir check_non_neg i (range _ st)) shp = Ok szs /\
       forall rho ns, denote_all rho szs ns -> denote_all rho strides (row_major ns)).
Proof.
  split; [reflexivity|]. intros shp st strides st'.
  intros H. unfold tensor_strides in H.
  apply bindM_ok_inv in H as (st0 & st1 & Hg & H). injection Hg as <- <-.
  apply bindM_ok_inv in H as (szs & st1 & Hs & H).
  apply lift_ok in Hs as [Hs ->].
  destruct (last szs) as [s_last|] eqn:Hlast; [|discriminate].
  apply last_Some in Hlast as [init ->].
  rewrite removelast_last, fold_left_rev_fold_right in H.
  pose proof (strides_fold_length init s_last) as Hlen.
  pose proof (fun rho ivs v => strides_fold_denote rho init s_last ivs v) as Hden.
  destruct (fold_right _ _ init) as [rstrides s].
  injection H as <- <-.
  split; [reflexivity|]. split.
  - rewrite length_rev. simpl in Hlen. rewrite Hlen.
    apply mapR_length in Hs. rewrite <- Hs, length_app. simpl. lia.
  - exists (init ++ [s_last]). split; [exact Hs|].
    intros rho ns Hns. apply Forall2_app_inv_l in Hns as (ivs & vl & Hi & Hl & ->).
    inversion Hl as [|? v ? ? Hv Hnil]; subst. inversion Hnil; subst.
    by apply (Hden rho ivs v Hi Hv).
Qed.

Lemma offset_fold_denote rho (idx strides : list CIR.expr) ivs svs acc a :
  denote_all rho idx ivs -> denote_all rho strides svs ->
  denote rho acc = Some a ->
  denote rho
    (fold_left (fun acc '(i, s) =>
                  CIR.BinOp Add acc (CIR.BinOp Mul i s true) true)
               (zip idx strides) acc)
  = Some (a + dot ivs svs).
Proof.
  intros Hi. revert strides svs acc a.
  induction Hi as [|i iv idx ivs Hiv Hi IH]; intros strides svs acc a Hs Ha.
  - simpl. rewrite Ha. f_equal. destruct svs; simpl; lia.
  - destruct Hs as [|s sv strides svs Hsv Hs].
    + simpl. rewrite Ha. f_equal. lia.
    + simpl. erewrite IH; [|exact Hs|simpl; rewrite Ha, Hiv, Hsv; reflexivity].
      f_equal. lia.
Qed.

(** The offset that [get_idx_offset] builds is the sum of the
    products of the indices and the strides of the buffer. *)
Lemma get_idx_offset_ok name ty idx st e st' :
  get_idx_offset check_non_neg name ty idx st = Ok (e, st') ->
  exists strides,
    get_strides check_non_neg name ty st = Ok (strides, st') /\
    length strides = length idx /\ idx <> [] /\
    forall rho ivs svs, denote_all rho idx ivs -> denote_all rho strides svs ->
      denote rho e = Some (dot ivs svs).
Proof.
  unfold get_idx_offset. intros H.
  apply bindM_ok_inv in H as (strides & st1 & Hstr & H).
  destruct (length strides =? length idx)%nat eqn:Hlen; simpl in H; [|discriminate].
  apply Nat.eqb_eq in Hlen.
  destruct idx as [|i0 idx]; [discriminate|].
  destruct strides as [|s0 strides]; [discriminate|].
  injection H as <- <-. exists (s0 :: strides).
  split; [exact Hstr|]. split; [exact Hlen|]. split; [discriminate|].
  intros rho ivs svs Hi Hs.
  inversion Hi as [|? iv ? ivs' Hiv Hi']; subst.
  inversion Hs as [|? sv ? svs' Hsv Hs']; subst.
  erewrite offset_fold_denote; [|exact Hi'|exact Hs'|simpl; rewrite Hiv, Hsv; reflexivity].
  reflexivity.
Qed.

(** An access to a dense tensor is compiled to the row-major offset:
    for indices of values [ivs] and sizes of values [ns], the index
    expression that [get_idx_offset] builds has the value of the sum of
    each index times the product of the sizes after it.  The number
    of indices is the rank, and it is not zero. *)
Theorem get_idx_offset_row_major name ty idx st e st' :
  is_win ty = false ->
  get_idx_offset check_non_neg name ty idx st = Ok (e, st') ->
  st' = st /\ length idx = length (shape ty) /\ idx <> [] /\
  exists szs,
    mapR (fun i => lift_to_cir check_non_neg i (range _ st)) (shape ty) = Ok szs /\
    forall rho ivs ns, denote_all rho idx ivs -> denote_all rho szs ns ->
      denote rho e = Some (dot ivs (row_major ns)).
Proof.
  intros Hwin H.
  apply get_idx_offset_ok in H as (strides & Hstr & Hlen & Hne & Hden).
  unfold get_strides in Hstr. rewrite Hwin in Hstr.
  apply tensor_strides_ok in Hstr as (-> & Hlen' & szs & Hszs & Hrow).
  split; [reflexivity|]. split; [congruence|]. split; [exact Hne|].
  exists szs. split; [exact Hszs|].
  intros rho ivs ns Hi Hn. apply Hden; [exact Hi|]. by apply Hrow.
Qed.

(** The strides of a window are symbolic, one per dimension, unless a
    stride is known; the offset is then the sum of the products of the
    indices and these strides. *)
Theorem get_idx_offset_window name ty idx st e st' :
  is_win ty = true ->
  get_idx_offset check_non_neg name ty idx st = Ok (e, st') ->
  st' = st /\ length idx = length (shape ty) /\ idx <> [] /\
  forall rho ivs,
    denote_all rho idx ivs ->
    (forall i c, known_strides _ st !! (sym_id name, i) = Some c ->
       denote rho c = Some (stride_val rho name i)) ->
    denote rho e
    = Some (dot ivs (map (stride_val rho name) (seq 0 (length (shape ty))))).
Proof.
  intros Hwin H.
  apply get_idx_offset_ok in H as (strides & Hstr & Hlen & Hne & Hden).
  unfold get_strides in Hstr. rewrite Hwin in Hstr. injection Hstr as <- <-.
  rewrite length_map, length_seq in Hlen.
  split; [reflexivity|]. split; [congruence|]. split; [exact Hne|].
  intros rho ivs Hi Hknown. apply Hden; [exact Hi|].
  unfold denote_all. apply Forall2_fmap. apply Forall_Forall2_diag.
  apply Forall_forall. intros i _.
  destruct (known_strides _ st !! (sym_id name, i)) as [c|] eqn:Hc; simpl.
  - by apply Hknown.
  - reflexivity.
Qed.

End layout_facts.

Lemma get_idx_offset_row_major_witness :
  Examples.compiler_A = Examples.compiler_A /\
  length [CIR.Const (PyInt 2); CIR.Const (PyInt 3)]
  = length (shape Examples.tensor_A) /\
  [CIR.Const (PyInt 2); CIR.Const (PyInt 3)] <> [] /\
  exists szs,
    mapR (fun i => lift_to_cir IntervalRange.check_non_neg i
                     (range _ Examples.compiler_A))
         (shape Examples.tensor_A) = Ok szs /\
    forall rho ivs ns,
      denote_all rho [CIR.Const (PyInt 2); CIR.Const (PyInt 3)] ivs ->
      denote_all rho szs ns ->
      denote rho
        (CIR.BinOp Add
           (CIR.BinOp Mul (CIR.Const (PyInt 2)) (CIR.Const (PyInt 16)) true)
           (CIR.BinOp Mul (CIR.Const (PyInt 3)) (CIR.Const (PyInt 1)) true) true)
      = Some (dot ivs (row_major ns)).
Proof.
  apply (get_idx_offset_row_major IntervalRange.check_non_neg Examples.sym_A
           Examples.tensor_A [CIR.Const (PyInt 2); CIR.Const (PyInt 3)]
           Examples.compiler_A).
  - reflexivity.
  - vm_compute. reflexivity.
Defined.

(** ** What compiling an expression leaves untouched *)

Section frame_facts.
Import LoopIR.
Context {range_env : Type}.
Variable check_non_neg : range_env -> expr -> bool.
Variable float_repr : float -> string.
Variable ctype : prim -> string.
Variable mem_window :
  Memory -> typ -> string -> list string -> list string -> string -> result string.
Variable extern_compile : string -> list string -> string -> result string.
Variable config_allow_rw : string -> bool.
Implicit Types st : Compiler range_env.

Lemma same_but_needed_refl st : same_but_needed st st.
Proof. exists (needed_helpers _ st), (window_defns _ st). by destruct st. Qed.

Lemma same_but_needed_trans st1 st2 st3 :
  same_but_needed st1 st2 -> same_but_needed st2 st3 -> same_but_needed st1 st3.
Proof.
  intros (h1 & w1 & ->) (h2 & w2 & ->). exists h2, w2. by destruct st1.
Qed.

Lemma same_but_needed_eq st st' : st' = st -> same_but_needed st st'.
Proof. intros ->. apply same_but_needed_refl. Qed.

(** The fields that are kept. *)
Lemma same_but_needed_fields st st' :
  same_but_needed st st' ->
  env _ st' = env _ st /\ range _ st' = range _ st /\ names _ st' = names _ st /\
  envtyp _ st' = envtyp _ st /\ mems _ st' = mems _ st /\ tab _ st' = tab _ st /\
  lines _ st' = lines _ st /\ scalar_refs _ st' = scalar_refs _ st /\
  known_strides _ st' = known_strides _ st /\ non_const _ st' = non_const _ st.
Proof. intros (hs & ws & ->). by destruct st. Qed.

Lemma add_helpers_frame hs st : same_but_needed st (add_helpers hs st).
Proof.
  exists (hs ∪ needed_helpers _ st), (window_defns _ st). by destruct st.
Qed.

Lemma comp_simplified_frame c st st' s :
  comp_simplified float_repr c st = Ok (s, st') -> same_but_needed st st'.
Proof.
  unfold comp_simplified. intros H.
  apply bindM_ok_inv in H as (c' & st1 & Hc & H).
  apply lift_ok in Hc as [_ ->].
  apply bindM_ok_inv in H as (st0 & st1 & Hg & H). injection Hg as <- <-.
  apply comp_cir_helpers in H as ->. apply add_helpers_frame.
Qed.

Lemma mapM_frame {A B} (f : A -> M range_env B) l :
  (forall a st st' b, a ∈ l -> f a st = Ok (b, st') -> same_but_needed st st') ->
  forall st st' bs, mapM _ _ f l st = Ok (bs, st') -> same_but_needed st st'.
Proof.
  induction l as [|a l IH]; intros Hf st st' bs H.
  - injection H as _ <-. apply same_but_needed_refl.
  - simpl in H.
    apply bindM_ok_inv in H as (b & st1 & Hb & H).
    apply bindM_ok_inv in H as (bs' & st2 & Hbs & H).
    injection H as _ <-.
    eapply same_but_needed_trans.
    + eapply Hf; [apply list_elem_of_here|exact Hb].
    + eapply IH; [|exact Hbs]. intros a0 s0 s0' b0 Hin.
      apply Hf. by apply list_elem_of_further.
Qed.

Lemma access_str_frame x idx st st' s :
  access_str check_non_neg float_repr x idx st = Ok (s, st') ->
  same_but_needed st st'.
Proof.
  unfold access_str. intros H.
  apply bindM_ok_inv in H as (ty & st1 & Hty & H).
  apply envtyp_of_ok in Hty as [_ ->].
  apply bindM_ok_inv in H as (st0 & st1 & Hg & H). injection Hg as <- <-.
  apply bindM_ok_inv in H as (cirs & st1 & Hc & H).
  apply lift_ok in Hc as [_ ->].
  apply bindM_ok_inv in H as (off & st1 & Hoff & H).
  apply get_idx_offset_ok in Hoff as (strides & Hstr & _).
  apply get_strides_state in Hstr as ->.
  apply bindM_ok_inv in H as (offs & st2 & Hoffs & H).
  apply comp_simplified_frame in Hoffs.
  apply bindM_ok_inv in H as (buf & st3 & Hbuf & H).
  apply env_of_ok in Hbuf as [_ ->].
  destruct (is_win ty); simpl in H; injection H as _ <-; exact Hoffs.
Qed.

Lemma window_struct_fields_frame x idx si st st' r :
  window_struct_fields check_non_neg float_repr mem_window x idx si st = Ok (r, st') ->
  same_but_needed st st'.
Proof.
  destruct r as [data strides]. intros H.
  apply window_struct_fields_ok in H
    as (base & basetyp & mem & cirs & idxs & all_strides & all_strides_s
        & s1 & s2 & s3 & _ & _ & _ & _ & Hidxs & Hall & Halls & _ & _ & _ & ->).
  apply get_strides_state in Hall as ->.
  eapply same_but_needed_trans.
  - eapply mapM_frame; [|exact Hidxs]. intros a s0 s0' b _.
    apply comp_simplified_frame.
  - eapply mapM_frame; [|exact Halls]. intros a s0 s0' b _.
    apply comp_simplified_frame.
Qed.

Lemma get_window_type_frame t c st st' win :
  get_window_type ctype t c st = Ok (win, st') -> same_but_needed st st'.
Proof.
  intros H. apply get_window_type_ok in H as (w & _ & -> & _).
  exists (needed_helpers _ st), ({[ w ]} ∪ window_defns _ st). by destruct st.
Qed.

Abbreviation comp_e' :=
  (comp_e check_non_neg float_repr ctype mem_window extern_compile config_allow_rw).

(** Compiling an expression adds no line and changes neither the
    indentation nor what is known of the symbols: it can only ask for
    helpers and for window structs. *)
Lemma comp_e_frame : forall e prec st st' s,
  comp_e' e prec st = Ok (s, st') -> same_but_needed st st'.
Proof.
  fix IH 1. intros e prec st st' s H.
  destruct e as [x idx ty si|v ty|a ty|op l r ty|f args ty|x widx ty si|x dim ty
                |config field ty si]; simpl in H.
  - (* Read *)
    apply bindM_ok_inv in H as (rtyp & st1 & Hty & H).
    apply envtyp_of_ok in Hty as [_ ->].
    destruct (is_indexable rtyp || is_prim Bool rtyp || is_prim Stride rtyp).
    { apply env_of_ok in H as [_ ->]. apply same_but_needed_refl. }
    apply bindM_ok_inv in H as (mem & st1 & Hmem & H).
    apply mem_of_ok in Hmem as [_ ->].
    destruct (is_CudaRmem mem).
    { apply env_of_ok in H as [_ ->]. apply same_but_needed_refl. }
    destruct (can_read mem); simpl in H; [|discriminate].
    apply bindM_ok_inv in H as (st0 & st1 & Hg & H). injection Hg as <- <-.
    destruct (bool_decide (sym_id x ∈ scalar_refs _ st)).
    { apply bindM_ok_inv in H as (n & st1 & Hn & H).
      apply env_of_ok in Hn as [_ ->]. injection H as _ <-.
      apply same_but_needed_refl. }
    destruct (is_tensor_or_window rtyp); simpl in H.
    + by apply access_str_frame in H.
    + apply env_of_ok in H as [_ ->]. apply same_but_needed_refl.
  - (* Const *)
    apply same_but_needed_eq.
    destruct v as [b|z|f].
    + by injection H as _ <-.
    + destruct (is_indexable ty).
      { apply bindM_ok_inv in H as (z0 & st1 & Hz & H).
        apply lift_ok in Hz as [_ ->]. by injection H as _ <-. }
      destruct (is_prim F64 ty).
      { apply bindM_ok_inv in H as (z0 & st1 & Hz & H).
        apply lift_ok in Hz as [_ ->]. by injection H as _ <-. }
      destruct (is_prim F32 ty).
      { apply bindM_ok_inv in H as (z0 & st1 & Hz & H).
        apply lift_ok in Hz as [_ ->]. by injection H as _ <-. }
      destruct (is_prim WithContext ty); [discriminate|].
      apply bindM_ok_inv in H as (c & st1 & Hc & H).
      destruct ty; try discriminate. injection Hc as _ <-. by injection H as _ <-.
    + destruct (is_indexable ty).
      { apply bindM_ok_inv in H as (z0 & st1 & Hz & H).
        apply lift_ok in Hz as [_ ->]. by injection H as _ <-. }
      destruct (is_prim F64 ty).
      { apply bindM_ok_inv in H as (z0 & st1 & Hz & H).
        apply lift_ok in Hz as [_ ->]. by injection H as _ <-. }
      destruct (is_prim F32 ty).
      { apply bindM_ok_inv in H as (z0 & st1 & Hz & H).
        apply lift_ok in Hz as [_ ->]. by injection H as _ <-. }
      destruct (is_prim WithContext ty); [discriminate|].
      apply bindM_ok_inv in H as (c & st1 & Hc & H).
      destruct ty; try discriminate. injection Hc as _ <-. by injection H as _ <-.
  - (* USub *)
    apply bindM_ok_inv in H as (sa & st1 & Ha & H). injection H as _ <-.
    exact (IH _ _ _ _ _ Ha).
  - (* BinOp *)
    apply bindM_ok_inv in H as (ls & st1 & Hl & H).
    apply bindM_ok_inv in H as (rs & st2 & Hr & H).
    apply IH in Hl. apply IH in Hr.
    pose proof (same_but_needed_trans _ _ _ Hl Hr) as Hlr.
    destruct (bool_decide (op = Div) && negb (is_numeric ty)).
    + apply bindM_ok_inv in H as (st0 & st3 & Hg & H). injection Hg as <- <-.
      destruct (check_non_neg _ _).
      * by injection H as _ <-.
      * unfold _call_static_helper in H.
        apply bindM_ok_inv in H as ([] & st3 & Hm & H).
        injection Hm as <-. injection H as _ <-.
        eapply same_but_needed_trans; [exact Hlr|].
        apply (add_helpers_frame {[ "exo_floor_div" ]}).
    + by injection H as _ <-.
  - (* Extern *)
    apply bindM_ok_inv in H as (args_s & st1 & Hargs & H).
    apply lift_ok in H as [_ ->].
    clear -IH Hargs. revert st st1 args_s Hargs.
    induction args as [|a args IHargs]; intros st st1 args_s H.
    + injection H as _ <-. apply same_but_needed_refl.
    + apply bindM_ok_inv in H as (sa & st2 & Ha & H).
      apply bindM_ok_inv in H as (ss & st3 & Hss & H).
      injection H as _ <-.
      eapply same_but_needed_trans; [exact (IH _ _ _ _ _ Ha)|].
      exact (IHargs _ _ _ Hss).
  - (* WindowExpr *)
    apply bindM_ok_inv in H as (win & st1 & Hwin & H).
    apply bindM_ok_inv in H as ([data strides] & st2 & Hf & H).
    injection H as _ <-.
    eapply same_but_needed_trans.
    + exact (get_window_type_frame _ _ _ _ _ Hwin).
    + exact (window_struct_fields_frame _ _ _ _ _ _ Hf).
  - (* StrideExpr *)
    apply bindM_ok_inv in H as (basetyp & st1 & Hty & H).
    apply envtyp_of_ok in Hty as [_ ->].
    apply bindM_ok_inv in H as (strides & st1 & Hstr & H).
    apply get_strides_state in Hstr as ->.
    destruct (strides !! dim); [|discriminate].
    by apply comp_simplified_frame in H.
  - (* ReadConfig *)
    destruct (config_allow_rw config); simpl in H; [|discriminate].
    injection H as _ <-. apply same_but_needed_refl.
Qed.

End frame_facts.

(** ** Reads and writes of buffers *)

Section memory_facts.
Import LoopIR.
Context {range_env : Type}.
Variable check_non_neg : range_env -> expr -> bool.
Variable float_repr : float -> string.
Variable ctype : prim -> string.
Variable mem_write mem_reduce : Memory -> stmt -> string -> string -> result string.
Variable mem_window :
  Memory -> typ -> string -> list string -> list string -> string -> result string.
Variable extern_compile : string -> list string -> string -> result string.
Variable config_allow_rw : string -> bool.
Implicit Types st : Compiler range_env.

Abbreviation comp_e' :=
  (comp_e check_non_neg float_repr ctype mem_window extern_compile config_allow_rw).
Abbreviation comp_s' :=
  (comp_s_assign_reduce check_non_neg float_repr ctype mem_write mem_reduce
     mem_window extern_compile config_allow_rw).

Lemma envtyp_of_Some x st rtyp :
  envtyp _ st !! sym_id x = Some (Some rtyp) -> envtyp_of x st = Ok (rtyp, st).
Proof.
  intros H. unfold envtyp_of, mbind, M_bind, get, lift, lookup_sym.
  by rewrite H.
Qed.

Lemma mem_of_Some x st mem :
  mems _ st !! sym_id x = Some mem -> mem_of x st = Ok (mem, st).
Proof.
  intros H. unfold mem_of, mbind, M_bind, get, lift, lookup_sym. by rewrite H.
Qed.

(** Reading a buffer.  For a symbol that is not of an index, boolean
    or stride type, in a memory that does not allow reads, [comp_e]
    raises [MemGenError], unless the memory is [CudaRmem], for which
    the name of the buffer is emitted without asking; where reads are
    allowed, an element of a tensor or window is emitted as the access
    text of [access_str], with no hook of the memory involved. *)
Theorem comp_e_read_guard x idx ty si prec st rtyp mem :
  envtyp _ st !! sym_id x = Some (Some rtyp) ->
  mems _ st !! sym_id x = Some mem ->
  is_indexable rtyp || is_prim Bool rtyp || is_prim Stride rtyp = false ->
  comp_e' (Read x idx ty si) prec st =
  if is_CudaRmem mem then env_of x st
  else if negb (can_read mem) then
    Raise (MemGenError (si +:+ ": cannot read from buffer '" +:+ sym_name x
                        +:+ "' in memory '" +:+ mem_name mem +:+ "'"))
  else if bool_decide (sym_id x ∈ scalar_refs _ st) then
    (s ← env_of x; mret ("*" +:+ s)) st
  else if is_tensor_or_window rtyp then access_str check_non_neg float_repr x idx st
  else env_of x st.
Proof.
  intros Hty Hmem Hidx. simpl.
  unfold mbind at 1, M_bind at 1. rewrite (envtyp_of_Some _ _ _ Hty), Hidx.
  unfold mbind at 1, M_bind at 1. rewrite (mem_of_Some _ _ _ Hmem).
  destruct (is_CudaRmem mem); [reflexivity|].
  destruct (can_read mem); [|reflexivity]. simpl.
  unfold mbind at 1, M_bind at 1, get.
  destruct (bool_decide (sym_id x ∈ scalar_refs _ st)); [reflexivity|].
  destruct (is_tensor_or_window rtyp); reflexivity.
Qed.

(** The text of the left-hand side of an [Assign] or a [Reduce]. *)
Lemma lhs_frame x idx st st1 lhs :
  (if bool_decide (sym_id x ∈ scalar_refs _ st)
   then n ← env_of x; mret ("*" +:+ n)
   else xty ← envtyp_of x;
        if is_real_scalar xty then env_of x
        else access_str check_non_neg float_repr x idx) st = Ok (lhs, st1) ->
  same_but_needed st st1.
Proof.
  destruct (bool_decide (sym_id x ∈ scalar_refs _ st)); intros H.
  - apply bindM_ok_inv in H as (n & s1 & Hn & H).
    apply env_of_ok in Hn as [_ ->]. injection H as _ <-.
    apply same_but_needed_refl.
  - apply bindM_ok_inv in H as (xty & s1 & Hty & H).
    apply envtyp_of_ok in Hty as [_ ->].
    destruct (is_real_scalar xty).
    + apply env_of_ok in H as [_ ->]. apply same_but_needed_refl.
    + by apply access_str_frame in H.
Qed.

(** The body of the arm of [comp_s] for [Assign] and [Reduce], with
    the hook of the memory left open: the left-hand side is compiled,
    then the right-hand side, neither adds a line, and the answer of
    the hook is added as one line, unless it is empty. *)
Lemma assign_reduce_body_ok
    (hook : Memory -> stmt -> string -> string -> result string)
    s x ty idx rhs_e st st' :
  (st0 ← get;
   lhs ← (if bool_decide (sym_id x ∈ scalar_refs _ st0)
          then n ← env_of x; mret ("*" +:+ n)
          else xty ← envtyp_of x;
               if is_real_scalar xty then env_of x
               else access_str check_non_neg float_repr x idx);
   rhs ← comp_e' rhs_e 0;
   rhs ← (if bool_decide (basetype ty ≠ basetype (expr_type rhs_e))
          then if negb (is_real_scalar ty) then raise _ (AssertionError EmptyString)
               else if negb (is_real_scalar (expr_type rhs_e))
                    then raise _ (AssertionError EmptyString)
                    else mret (paren (ctype (basetype ty)) +:+ paren rhs)
          else mret rhs);
   mem ← mem_of x;
   line ← lift _ (hook mem s lhs rhs);
   add_line line) st = Ok (tt, st') ->
  exists mem lhs rhs0 line st1 st2,
    (if bool_decide (sym_id x ∈ scalar_refs _ st)
     then n ← env_of x; mret ("*" +:+ n)
     else xty ← envtyp_of x;
          if is_real_scalar xty then env_of x
          else access_str check_non_neg float_repr x idx) st = Ok (lhs, st1) /\
    comp_e' rhs_e 0 st1 = Ok (rhs0, st2) /\
    same_but_needed st st2 /\
    mems _ st !! sym_id x = Some mem /\
    hook mem s lhs
      (if bool_decide (basetype ty ≠ basetype (expr_type rhs_e))
       then paren (ctype (basetype ty)) +:+ paren rhs0 else rhs0) = Ok line /\
    st' = match line with
          | EmptyString => st2
          | _ => set_lines (lines _ st2 ++ [tab _ st2 +:+ line]) st2
          end /\
    lines _ st' = lines _ st ++ match line with
                                | EmptyString => []
                                | _ => [tab _ st +:+ line]
                                end.
Proof.
  intros Hh.
  apply bindM_ok_inv in Hh as (st0 & s0 & Hg & Hh). injection Hg as <- <-.
  apply bindM_ok_inv in Hh as (lhs & st1 & Hlhs & Hh).
  apply bindM_ok_inv in Hh as (rhs0 & st2 & Hrhs & Hh).
  apply bindM_ok_inv in Hh as (rhs & st3 & Hcast & Hh).
  apply bindM_ok_inv in Hh as (mem & st4 & Hmem & Hh).
  apply bindM_ok_inv in Hh as (line & st5 & Hline & Hh).
  apply mem_of_ok in Hmem as [Hmem ->].
  apply lift_ok in Hline as [Hline ->].
  assert (st3 = st2 /\
          rhs = if bool_decide (basetype ty ≠ basetype (expr_type rhs_e))
                then paren (ctype (basetype ty)) +:+ paren rhs0 else rhs0)
    as [-> ->].
  { unfold mret, M_ret, raise in Hcast.
    destruct (bool_decide (basetype ty ≠ _)); [|by injection Hcast as <- <-].
    destruct (is_real_scalar ty); simpl in Hcast; [|discriminate].
    destruct (is_real_scalar (expr_type rhs_e)); simpl in Hcast; [|discriminate].
    by injection Hcast as <- <-. }
  assert (same_but_needed st st2) as Hframe.
  { eapply same_but_needed_trans.
    - exact (lhs_frame _ _ _ _ _ Hlhs).
    - exact (comp_e_frame check_non_neg float_repr ctype mem_window extern_compile
               config_allow_rw _ _ _ _ _ Hrhs). }
  pose proof (same_but_needed_fields _ _ Hframe)
    as (_ & _ & _ & _ & Hmems & Htab & Hlines & _).
  exists mem, lhs, rhs0, line, st1, st2.
  split; [exact Hlhs|]. split; [exact Hrhs|]. split; [exact Hframe|].
  split; [by rewrite <- Hmems|]. split; [exact Hline|].
  unfold add_line, mret, M_ret, modify in Hh.
  destruct line; injection Hh as <-.
  - split; [reflexivity|]. by rewrite app_nil_r.
  - split; [reflexivity|]. cbn [lines set_lines]. by rewrite Hlines, Htab.
Qed.

(** Writing a buffer.  When the arm of [comp_s] for [Assign] and
    [Reduce] succeeds, it has compiled the left-hand side and then
    the right-hand side, which add no line, and the lines of the
    compiler are those of before followed by one line: the answer of
    a hook of the memory of the buffer, indented.  The hook is [write]
    for an [Assign] and [reduce] for a [Reduce], called on the
    statement, the text of the left-hand side and the compiled
    right-hand side, which is cast to the type of the buffer when the
    two base types differ.  An empty answer adds no line.  (The lines
    are those of the compiler itself, as they are outside a kernel of
    the spork backend.) *)
Theorem comp_s_assign_reduce_hooks s st st' :
  comp_s' s st = Ok (tt, st') ->
  exists x ty idx rhs_e mem lhs rhs0 line st1 st2,
    (s = Assign x ty idx rhs_e \/ s = Reduce x ty idx rhs_e) /\
    (if bool_decide (sym_id x ∈ scalar_refs _ st)
     then n ← env_of x; mret ("*" +:+ n)
     else xty ← envtyp_of x;
          if is_real_scalar xty then env_of x
          else access_str check_non_neg float_repr x idx) st = Ok (lhs, st1) /\
    comp_e' rhs_e 0 st1 = Ok (rhs0, st2) /\
    same_but_needed st st2 /\
    mems _ st !! sym_id x = Some mem /\
    (match s with Assign _ _ _ _ => mem_write | _ => mem_reduce end)
      mem s lhs
      (if bool_decide (basetype ty ≠ basetype (expr_type rhs_e))
       then paren (ctype (basetype ty)) +:+ paren rhs0 else rhs0) = Ok line /\
    st' = match line with
          | EmptyString => st2
          | _ => set_lines (lines _ st2 ++ [tab _ st2 +:+ line]) st2
          end /\
    lines _ st' = lines _ st ++ match line with
                                | EmptyString => []
                                | _ => [tab _ st +:+ line]
                                end.
Proof.
  intros H.
  destruct s as [ | | x ty idx r | x ty idx r | | | | | | | ]; try discriminate.
  - destruct (assign_reduce_body_ok mem_write _ _ _ _ _ _ _ H)
      as (mem & lhs & rhs0 & line & st1 & st2 & HH).
    exists x, ty, idx, r, mem, lhs, rhs0, line, st1, st2. split; [by left|exact HH].
  - destruct (assign_reduce_body_ok mem_reduce _ _ _ _ _ _ _ H)
      as (mem & lhs & rhs0 & line & st1 & st2 & HH).
    exists x, ty, idx, r, mem, lhs, rhs0, line, st1, st2. split; [by right|exact HH].
Qed.

(** C4 (amended).  An [Assign] is lowered through the [write] hook of
    the memory of the buffer and a [Reduce] through its [reduce] hook:
    the hook is called on the statement, the text of the left-hand
    side and the compiled right-hand side (cast when the base types
    differ), and its answer is the one line that is added.  A read is
    not lowered through a hook: [comp_e] writes it itself.  A symbol
    of an index, boolean or stride type is read by its name, whatever
    its memory.  Any other symbol is read by its name when its memory
    is [CudaRmem]; else [MemGenError] is raised when the memory does
    not allow reads; else the text is the dereferenced name of a
    scalar reference, the access text of an element of a tensor or a
    window, or the name. *)
Theorem memory_access_lowering :
  (forall s st st',
      comp_s' s st = Ok (tt, st') ->
      exists x ty idx rhs_e mem lhs rhs0 line st1 st2,
        (s = Assign x ty idx rhs_e \/ s = Reduce x ty idx rhs_e) /\
        (if bool_decide (sym_id x ∈ scalar_refs _ st)
         then n ← env_of x; mret ("*" +:+ n)
         else xty ← envtyp_of x;
              if is_real_scalar xty then env_of x
              else access_str check_non_neg float_repr x idx) st = Ok (lhs, st1) /\
        comp_e' rhs_e 0 st1 = Ok (rhs0, st2) /\
        mems _ st !! sym_id x = Some mem /\
        (match s with Assign _ _ _ _ => mem_write | _ => mem_reduce end)
          mem s lhs
          (if bool_decide (basetype ty ≠ basetype (expr_type rhs_e))
           then paren (ctype (basetype ty)) +:+ paren rhs0 else rhs0) = Ok line /\
        lines _ st' = lines _ st ++ match line with
                                    | EmptyString => []
                                    | _ => [tab _ st +:+ line]
                                    end) /\
  (forall x idx ty si prec st rtyp,
      envtyp _ st !! sym_id x = Some (Some rtyp) ->
      is_indexable rtyp || is_prim Bool rtyp || is_prim Stride rtyp = true ->
      comp_e' (Read x idx ty si) prec st = env_of x st) /\
  (forall x idx ty si prec st rtyp mem,
      envtyp _ st !! sym_id x = Some (Some rtyp) ->
      mems _ st !! sym_id x = Some mem ->
      is_indexable rtyp || is_prim Bool rtyp || is_prim Stride rtyp = false ->
      comp_e' (Read x idx ty si) prec st =
      if is_CudaRmem mem then env_of x st
      else if negb (can_read mem) then
        Raise (MemGenError (si +:+ ": cannot read from buffer '" +:+ sym_name x
                            +:+ "' in memory '" +:+ mem_name mem +:+ "'"))
      else if bool_decide (sym_id x ∈ scalar_refs _ st) then
        (s ← env_of x; mret ("*" +:+ s)) st
      else if is_tensor_or_window rtyp then access_str check_non_neg float_repr x idx st
      else env_of x st).
Proof.
  split; [|split].
  - intros s st st' H.
    destruct s as [ | | x ty idx r | x ty idx r | | | | | | | ]; try discriminate.
    + destruct (assign_reduce_body_ok mem_write _ _ _ _ _ _ _ H)
        as (mem & lhs & rhs0 & line & st1 & st2 & Hl & Hr & _ & Hm & Hh & _ & Hlines).
      exists x, ty, idx, r, mem, lhs, rhs0, line, st1, st2.
      split; [by left|]. auto.
    + destruct (assign_reduce_body_ok mem_reduce _ _ _ _ _ _ _ H)
        as (mem & lhs & rhs0 & line & st1 & st2 & Hl & Hr & _ & Hm & Hh & _ & Hlines).
      exists x, ty, idx, r, mem, lhs, rhs0, line, st1, st2.
      split; [by right|]. auto.
  - intros x idx ty si prec st rtyp Hty Hidx. simpl.
    unfold mbind at 1, M_bind at 1. by rewrite (envtyp_of_Some _ _ _ Hty), Hidx.
  - intros x idx ty si prec st rtyp mem Hty Hmem Hidx. simpl.
    unfold mbind at 1, M_bind at 1. rewrite (envtyp_of_Some _ _ _ Hty), Hidx.
    unfold mbind at 1, M_bind at 1. rewrite (mem_of_Some _ _ _ Hmem).
    destruct (is_CudaRmem mem); [reflexivity|].
    destruct (can_read mem); [|reflexivity]. simpl.
    unfold mbind at 1, M_bind at 1, get.
    destruct (bool_decide (sym_id x ∈ scalar_refs _ st)); [reflexivity|].
    destruct (is_tensor_or_window rtyp); reflexivity.
Qed.

End memory_facts.

Lemma comp_e_read_guard_witness :
  comp_e IntervalRange.check_non_neg Examples.float_repr Examples.ctype
    Examples.mem_window Examples.extern_compile Examples.config_allow_rw
    Examples.read_w 0 Examples.compiler_w
  = Raise (MemGenError "ex.py:3: cannot read from buffer 'w' in memory 'WRITE_ONLY'").
Proof.
  unfold Examples.read_w.
  rewrite (comp_e_read_guard IntervalRange.check_non_neg Examples.float_repr
             Examples.ctype Examples.mem_window Examples.extern_compile
             Examples.config_allow_rw Examples.sym_w _ _ _ 0 Examples.compiler_w
             (LoopIR.Tensor [Examples.i32_const 8] false LoopIR.F32)
             Examples.WRITE_ONLY);
    vm_compute; reflexivity.
Defined.

Lemma comp_s_assign_reduce_hooks_witness :
  exists x ty idx rhs_e mem lhs rhs0 line st1 st2,
    (Examples.assign_A = LoopIR.Assign x ty idx rhs_e \/
     Examples.assign_A = LoopIR.Reduce x ty idx rhs_e) /\
    (if bool_decide (sym_id x ∈ scalar_refs _ Examples.compiler_A)
     then n ← env_of x; mret ("*" +:+ n)
     else xty ← envtyp_of x;
          if is_real_scalar xty then env_of x
          else access_str IntervalRange.check_non_neg Examples.float_repr x idx)
      Examples.compiler_A = Ok (lhs, st1) /\
    comp_e IntervalRange.check_non_neg Examples.float_repr Examples.ctype
      Examples.mem_window Examples.extern_compile Examples.config_allow_rw
      rhs_e 0 st1 = Ok (rhs0, st2) /\
    same_but_needed Examples.compiler_A st2 /\
    mems _ Examples.compiler_A !! sym_id x = Some mem /\
    (match Examples.assign_A with
     | LoopIR.Assign _ _ _ _ => Examples.mem_write
     | _ => Examples.mem_reduce
     end) mem Examples.assign_A lhs
      (if bool_decide (basetype ty ≠ basetype (LoopIR.expr_type rhs_e))
       then paren (Examples.ctype (basetype ty)) +:+ paren rhs0 else rhs0)
    = Ok line /\
    Examples.exec
      (comp_s_assign_reduce IntervalRange.check_non_neg Examples.float_repr
         Examples.ctype Examples.mem_write Examples.mem_reduce Examples.mem_window
         Examples.extern_compile Examples.config_allow_rw Examples.assign_A)
      Examples.compiler_A
    = match line with
      | EmptyString => st2
      | _ => set_lines (lines _ st2 ++ [tab _ st2 +:+ line]) st2
      end /\
    lines _ (Examples.exec
               (comp_s_assign_reduce IntervalRange.check_non_neg Examples.float_repr
                  Examples.ctype Examples.mem_write Examples.mem_reduce
                  Examples.mem_window Examples.extern_compile
                  Examples.config_allow_rw Examples.assign_A)
               Examples.compiler_A)
    = lines _ Examples.compiler_A ++ match line with
                                     | EmptyString => []
                                     | _ => [tab _ Examples.compiler_A +:+ line]
                                     end.
Proof.
  apply (comp_s_assign_reduce_hooks IntervalRange.check_non_neg Examples.float_repr
           Examples.ctype Examples.mem_write Examples.mem_reduce Examples.mem_window
           Examples.extern_compile Examples.config_allow_rw Examples.assign_A
           Examples.compiler_A).
  apply exec_ok. vm_compute. reflexivity.
Defined.

(** The claim C4 has every read go through a hook of the memory and
    every read of a memory that does not allow reads fail.  The read
    of [A[2, 3]] is compiled with capabilities that fail whenever
    they are called, and the read of [r], in a memory that is
    [CudaRmem] and does not allow reads, is compiled to the name. *)
Lemma read_without_hook_or_guard :
  fst <$> comp_e IntervalRange.check_non_neg Examples.float_repr Examples.ctype
            Examples.no_window Examples.no_extern Examples.config_allow_rw
            Examples.read_A 0 Examples.compiler_A
  = Ok "A[35]" /\
  mems _ Examples.compiler_r !! sym_id Examples.sym_r = Some Examples.CUDA_RMEM /\
  LoopIR.can_read Examples.CUDA_RMEM = false /\
  fst <$> comp_e IntervalRange.check_non_neg Examples.float_repr Examples.ctype
            Examples.mem_window Examples.extern_compile Examples.config_allow_rw
            Examples.read_r 0 Examples.compiler_r
  = Ok "r".
Proof. repeat split; vm_compute; reflexivity. Qed.

Lemma memory_access_lowering_witness :
  comp_e IntervalRange.check_non_neg Examples.float_repr Examples.ctype
    Examples.mem_window Examples.extern_compile Examples.config_allow_rw
    Examples.read_w 0 Examples.compiler_w
  = Raise (MemGenError "ex.py:3: cannot read from buffer 'w' in memory 'WRITE_ONLY'") /\
  exists lhs rhs0 line,
    Examples.mem_write DRAM Examples.assign_A lhs rhs0 = Ok line /\
    lines _ (Examples.exec
               (comp_s_assign_reduce IntervalRange.check_non_neg Examples.float_repr
                  Examples.ctype Examples.mem_write Examples.mem_reduce
                  Examples.mem_window Examples.extern_compile
                  Examples.config_allow_rw Examples.assign_A)
               Examples.compiler_A)
    = lines _ Examples.compiler_A ++ match line with
                                     | EmptyString => []
                                     | _ => [tab _ Examples.compiler_A +:+ line]
                                     end.
Proof.
  destruct (memory_access_lowering IntervalRange.check_non_neg Examples.float_repr
              Examples.ctype Examples.mem_write Examples.mem_reduce Examples.mem_window
              Examples.extern_compile Examples.config_allow_rw)
    as (Hwrite & _ & Hread).
  split.
  - unfold Examples.read_w.
    rewrite (Hread Examples.sym_w _ _ _ 0 Examples.compiler_w
               (LoopIR.Tensor [Examples.i32_const 8] false LoopIR.F32)
               Examples.WRITE_ONLY);
      vm_compute; reflexivity.
  - assert (comp_s_assign_reduce IntervalRange.check_non_neg Examples.float_repr
              Examples.ctype Examples.mem_write Examples.mem_reduce Examples.mem_window
              Examples.extern_compile Examples.config_allow_rw Examples.assign_A
              Examples.compiler_A
            = Ok (tt,
                  Examples.exec
                    (comp_s_assign_reduce IntervalRange.check_non_neg
                       Examples.float_repr Examples.ctype Examples.mem_write
                       Examples.mem_reduce Examples.mem_window Examples.extern_compile
                       Examples.config_allow_rw Examples.assign_A)
                    Examples.compiler_A)) as H
      by (apply exec_ok; vm_compute; reflexivity).
    destruct (Hwrite _ _ _ H)
      as (x & ty & idx & rhs_e & mem & lhs & rhs0 & line & st1 & st2
          & Hs & _ & _ & Hmem & Hhook & Hlines).
    destruct Hs as [Hs|Hs]; [|discriminate Hs].
    injection Hs as <- <- <- <-.
    assert (mems _ Examples.compiler_A !! sym_id Examples.sym_A = Some DRAM) as Hd
      by (vm_compute; reflexivity).
    rewrite Hd in Hmem. injection Hmem as <-.
    do 3 eexists. split; [exact Hhook|exact Hlines].
Defined.

(** ** Collective index expressions: division and modulo *)

Section coll_index_facts.
Import CollAlgebra.

Lemma new_CollIndexExpr_BaseStr s ops :
  new_CollIndexExpr (BaseStr s) ops = Ok (mkCollIndexExpr (BaseStr s) ops).
Proof. reflexivity. Qed.

Lemma fold_apply_op_snoc l o acc :
  fold_left apply_op (l ++ [o]) acc = apply_op (fold_left apply_op l acc) o.
Proof. by rewrite fold_left_app. Qed.

Lemma last_removelast {A} (l : list A) x :
  last l = Some x -> l = removelast l ++ [x].
Proof.
  intros H. apply last_Some in H as [l' ->]. by rewrite removelast_last.
Qed.

(** [x / 1] is [x]; dividing twice is dividing by the product. *)
Lemma apply_op_div_div acc u v :
  v <> 0 ->
  apply_op acc ("/", u * v)
  = match apply_op acc ("/", u) with
    | Some y => Some (Z.quot y v)
    | None => None
    end.
Proof.
  intros Hv. destruct acc as [x|]; [|reflexivity]. simpl.
  destruct (Z.eqb_spec u 0) as [->|Hu].
  - rewrite Z.mul_0_l. reflexivity.
  - destruct (Z.eqb_spec (u * v) 0) as [H0|_]; [lia|].
    by rewrite Z.quot_quot.
Qed.

(** Division of an index expression.  On a target expression, the
    result of [e / v] has, for [v] other than zero, the value of the
    C quotient of [e] by [v] (truncated), also when the division is
    merged into a division that [e] ends with; on a constant, the
    constant is divided with Python's floored [//]. *)
Theorem truediv_eval rho self v e' :
  v <> 0 ->
  truediv self v = Ok e' ->
  eval rho e' =
  match base_expr self with
  | BaseStr _ =>
      match eval rho self with Some y => Some (Z.quot y v) | None => None end
  | BaseInt b => Some (b / v)
  end.
Proof.
  intros Hv. unfold truediv, eval. destruct self as [[s|b] ops]; simpl.
  - destruct (Z.eqb_spec v 1) as [->|Hv1].
    + intros [= <-]. simpl.
      destruct (fold_left apply_op ops _); [|reflexivity]. by rewrite Z.quot_1_r.
    + destruct (last ops) as [[op u]|] eqn:Hlast.
      * destruct (String.eqb_spec op "/") as [->|Hop].
        -- intros [= <-]. simpl.
           rewrite (last_removelast _ _ Hlast) at 2.
           rewrite !fold_apply_op_snoc. by apply apply_op_div_div.
        -- intros [= <-]. simpl. rewrite fold_apply_op_snoc.
           destruct (fold_left apply_op ops _) as [y|]; [|reflexivity].
           simpl. destruct (Z.eqb_spec v 0); [lia|reflexivity].
      * intros [= <-]. simpl. rewrite fold_apply_op_snoc.
        destruct (fold_left apply_op ops _) as [y|]; [|reflexivity].
        simpl. destruct (Z.eqb_spec v 0); [lia|reflexivity].
  - destruct (Z.eqb_spec v 0); [lia|]. by intros [= <-].
Qed.

Lemma rem_rem_divisor x u v :
  v <> 0 -> u mod v = 0 -> Z.rem (Z.rem x u) v = Z.rem x v.
Proof.
  intros Hv Hdiv. apply Z.mod_divide in Hdiv as [k ->]; [|exact Hv].
  pose proof (Z.quot_rem' x (k * v)) as Hx.
  assert (Z.rem x (k * v) = x + (- (k * (x ÷ (k * v)))) * v) as Heq by lia.
  rewrite Heq. apply Z.rem_add; [exact Hv|].
  rewrite <- Heq. destruct (Z.eq_dec (k * v) 0) as [H0|H0].
  - rewrite H0 in Heq |- *. rewrite H0, Z.quot_0_r_ext in Hx by reflexivity. nia.
  - by apply Z.rem_sign_mul.
Qed.

Lemma rem_rem_multiple x u v :
  u <> 0 -> v <> 0 -> v mod u = 0 -> Z.rem (Z.rem x u) v = Z.rem x u.
Proof.
  intros Hu Hv Hdiv. apply Z.mod_divide in Hdiv as [k ->]; [|exact Hu].
  pose proof (Z.quot_rem' (Z.rem x u) (k * u)) as Hx.
  assert (Z.rem x u ÷ (k * u) = 0) as H0; [|rewrite H0 in Hx; lia].
  apply Z.quot_small_iff; [exact Hv|].
  pose proof (Z.rem_bound_abs x u Hu) as Hb. rewrite Z.abs_mul.
  assert (1 <= Z.abs k) by lia. pose proof (Z.abs_nonneg u). nia.
Qed.

(** Modulo of an index expression.  On a target expression with a
    value, the result of [e % v] has, for [v] other than zero, the
    value of the C remainder of [e] by [v], also when the modulo
    replaces or is absorbed by a modulo that [e] ends with, and when
    [v] is one and the result is the constant zero; on a constant, the
    constant is reduced with Python's floored [%]. *)
Theorem mod_eval rho self v e' y :
  v <> 0 ->
  mod_ self v = Ok e' ->
  eval rho self = Some y ->
  eval rho e' =
  match base_expr self with
  | BaseStr _ => Some (Z.rem y v)
  | BaseInt b => Some (b mod v)
  end.
Proof.
  intros Hv. unfold mod_, eval. destruct self as [[s|b] ops]; simpl.
  - destruct (Z.eqb_spec v 1) as [->|Hv1].
    + intros [= <-] _. simpl. by rewrite Z.rem_1_r.
    + assert (fold_left apply_op ops (Some (rho s)) = Some y ->
              fold_left apply_op (ops ++ [("%", v)]) (Some (rho s)) = Some (Z.rem y v))
        as Happ.
      { intros Hy. rewrite fold_apply_op_snoc, Hy. simpl.
        destruct (Z.eqb_spec v 0); [lia|reflexivity]. }
      destruct (last ops) as [[op u]|] eqn:Hlast.
      * destruct (String.eqb_spec op "%") as [->|Hop];
          [|intros [= <-]; exact Happ].
        destruct (Z.eqb_spec v 0); [lia|].
        pose proof (last_removelast _ _ Hlast) as Hops.
        destruct (Z.eqb_spec (u mod v) 0) as [Huv|Huv].
        { intros [= <-]. simpl. rewrite Hops at 1.
          rewrite !fold_apply_op_snoc.
          destruct (fold_left apply_op (removelast ops) _) as [x|]; [|discriminate].
          simpl. destruct (Z.eqb_spec u 0) as [->|Hu]; [discriminate|].
          destruct (Z.eqb_spec v 0); [lia|].
          intros [= <-]. f_equal. symmetry. by apply rem_rem_divisor. }
        destruct (Z.eqb_spec u 0) as [->|Hu]; [discriminate|].
        destruct (Z.eqb_spec (v mod u) 0) as [Hvu|Hvu];
          [|intros [= <-]; exact Happ].
        intros [= <-]. simpl. rewrite Hops at 1.
        rewrite !fold_apply_op_snoc.
        destruct (fold_left apply_op (removelast ops) _) as [x|]; [|discriminate].
        simpl. destruct (Z.eqb_spec u 0); [lia|].
        intros [= <-]. f_equal. symmetry. by apply rem_rem_multiple.
      * intros [= <-]. exact Happ.
  - destruct (Z.eqb_spec v 0); [lia|]. by intros [= <-] _.
Qed.

(** A zero divisor.  On a constant, [/] and [%] raise
    [ZeroDivisionError].  On a target expression [/] never raises: the
    division by zero is written into the expression, which ends in
    [/ 0] and has no value.  On a target expression [%] raises
    [ZeroDivisionError] exactly when the expression ends in a [%] (the
    test for a merge takes the old modulus modulo zero); otherwise
    [% 0] is appended and the expression has no value. *)
Theorem zero_divisor rho self :
  match base_expr self with
  | BaseInt _ =>
      truediv self 0 = Raise ZeroDivisionError /\
      mod_ self 0 = Raise ZeroDivisionError
  | BaseStr s =>
      (exists e',
          truediv self 0 = Ok e' /\ base_expr e' = BaseStr s /\
          last (ops e') = Some ("/", 0) /\ eval rho e' = None) /\
      if match last (ops self) with
         | Some (op, _) => String.eqb op "%"
         | None => false
         end
      then mod_ self 0 = Raise ZeroDivisionError
      else
        mod_ self 0 = Ok (mkCollIndexExpr (BaseStr s) (ops self ++ [("%", 0)])) /\
        eval rho (mkCollIndexExpr (BaseStr s) (ops self ++ [("%", 0)])) = None
  end.
Proof.
  destruct self as [[s|b] ops]; cbn [base_expr CollAlgebra.ops]; [|by split].
  assert (forall acc, apply_op acc ("/", 0) = None) as Hz by (by intros [x|]).
  assert (forall acc, apply_op acc ("%", 0) = None) as Hm by (by intros [x|]).
  assert (eval rho (mkCollIndexExpr (BaseStr s) (ops ++ [("%", 0)])) = None) as Hev
    by (unfold eval; simpl; by rewrite fold_apply_op_snoc, Hm).
  split.
  - unfold truediv, eval. simpl.
    destruct (last ops) as [[op u]|] eqn:Hlast.
    + destruct (String.eqb_spec op "/") as [->|Hop].
      * eexists. split; [reflexivity|]. simpl. split; [reflexivity|].
        rewrite last_snoc, Z.mul_0_r. split; [reflexivity|].
        by rewrite fold_apply_op_snoc, Hz.
      * eexists. split; [reflexivity|]. simpl. split; [reflexivity|].
        rewrite last_snoc. split; [reflexivity|]. by rewrite fold_apply_op_snoc, Hz.
    + eexists. split; [reflexivity|]. simpl. split; [reflexivity|].
      rewrite last_snoc. split; [reflexivity|]. by rewrite fold_apply_op_snoc, Hz.
  - unfold mod_. simpl. destruct (last ops) as [[op u]|] eqn:Hlast.
    + destruct (String.eqb op "%"); [reflexivity|]. split; [reflexivity|exact Hev].
    + split; [reflexivity|exact Hev].
Qed.

End coll_index_facts.

Lemma truediv_eval_witness :
  CollAlgebra.eval (fun _ => 17)
    (CollAlgebra.mkCollIndexExpr (CollAlgebra.BaseStr "threadIdx.x") [("/", 8)])
  = Some 2.
Proof.
  rewrite (truediv_eval (fun _ => 17)
             (CollAlgebra.mkCollIndexExpr (CollAlgebra.BaseStr "threadIdx.x") [("/", 4)])
             2
             (CollAlgebra.mkCollIndexExpr (CollAlgebra.BaseStr "threadIdx.x") [("/", 8)]));
    [reflexivity|lia|reflexivity].
Defined.

Lemma mod_eval_witness :
  CollAlgebra.eval (fun _ => 17)
    (CollAlgebra.mkCollIndexExpr (CollAlgebra.BaseStr "threadIdx.x") [("%", 4)])
  = Some 1.
Proof.
  rewrite (mod_eval (fun _ => 17)
             (CollAlgebra.mkCollIndexExpr (CollAlgebra.BaseStr "threadIdx.x") [("%", 8)])
             4
             (CollAlgebra.mkCollIndexExpr (CollAlgebra.BaseStr "threadIdx.x") [("%", 4)])
             1);
    [reflexivity|lia|reflexivity|reflexivity].
Defined.

Lemma zero_divisor_witness :
  CollAlgebra.mod_
    (CollAlgebra.mkCollIndexExpr (CollAlgebra.BaseStr "threadIdx.x") [("%", 8)]) 0
  = Raise ZeroDivisionError /\
  CollAlgebra.mod_
    (CollAlgebra.mkCollIndexExpr (CollAlgebra.BaseStr "threadIdx.x") [("/", 8)]) 0
  = Ok (CollAlgebra.mkCollIndexExpr (CollAlgebra.BaseStr "threadIdx.x")
          [("/", 8); ("%", 0)]).
Proof.
  split.
  - exact (proj2 (zero_divisor (fun _ => 17)
                    (CollAlgebra.mkCollIndexExpr (CollAlgebra.BaseStr "threadIdx.x")
                       [("%", 8)]))).
  - exact (proj1 (proj2 (zero_divisor (fun _ => 17)
                           (CollAlgebra.mkCollIndexExpr
                              (CollAlgebra.BaseStr "threadIdx.x") [("/", 8)])))).
Defined.

(** ** Collective size expressions *)

Section coll_size_facts.
Import CollAlgebra.
Implicit Types env : gmap positive Z.

(** The product of the values of the parameters, when all have one. *)
Lemma scale_linear env ps n m k :
  scale env ps n = Ok m -> scale env ps (k * n) = Ok (k * m).
Proof.
  revert n m. induction ps as [|p ps IH]; intros n m H; simpl in *.
  - by injection H as <-.
  - destruct (env !! param_id p) as [v|]; [|discriminate].
    rewrite <- Z.mul_assoc. by apply IH.
Qed.

Lemma scale_unit env ps n m :
  scale env ps n = Ok m -> exists P, scale env ps 1 = Ok P /\ m = n * P.
Proof.
  revert n m. induction ps as [|p ps IH]; intros n m H; simpl in *.
  - injection H as <-. exists 1. split; [reflexivity|lia].
  - destruct (env !! param_id p) as [v|]; [|discriminate].
    apply IH in H as (P & HP & ->).
    exists (v * P). split; [|lia].
    replace (1 * v) with (v * 1) by lia. by apply scale_linear.
Qed.

Lemma scale_app env ps qs n m :
  scale env ps n = Ok m -> scale env (ps ++ qs) n = scale env qs m.
Proof.
  revert n. induction ps as [|p ps IH]; intros n H; simpl in *.
  - by injection H as <-.
  - destruct (env !! param_id p) as [v|]; [|discriminate]. by apply IH.
Qed.

Lemma mkFraction_ok n d f :
  mkFraction n d = Ok f ->
  d <> 0 /\ denominator f <> 0 /\
  exists g, g <> 0 /\ n = numerator f * g /\ d = denominator f * g.
Proof.
  unfold mkFraction. destruct (Z.eqb_spec d 0) as [|Hd]; [discriminate|].
  intros [= <-]. simpl. split; [exact Hd|].
  set (g := Z.gcd n d).
  assert (g <> 0) as Hg by (unfold g; intros H0; apply Z.gcd_eq_0_r in H0; lia).
  destruct (Z.gcd_divide_l n d) as [a Ha]. destruct (Z.gcd_divide_r n d) as [b Hb].
  fold g in Ha, Hb.
  set (g' := if d <? 0 then - g else g).
  assert (g' <> 0) as Hg' by (unfold g'; destruct (d <? 0); lia).
  assert (n = n / g' * g' /\ d = d / g' * g') as [Hn Hd'].
  { unfold g'. destruct (d <? 0).
    - rewrite Ha at 1 2. rewrite Hb at 1 2.
      replace (a * g) with ((- a) * (- g)) by lia.
      replace (b * g) with ((- b) * (- g)) by lia.
      rewrite !Z.div_mul by lia. lia.
    - rewrite Ha at 1 2. rewrite Hb at 1 2. rewrite !Z.div_mul by lia. lia. }
  split; [intros H0; rewrite H0 in Hd'; lia|].
  exists g'. auto.
Qed.

Lemma call_ok self env x :
  call self env = Ok x ->
  exists n, scale env (coll_params self) (numerator (scalar self)) = Ok n /\
            n mod denominator (scalar self) = 0 /\
            x = n / denominator (scalar self).
Proof.
  unfold call. destruct (scale env _ _) as [n|]; [|discriminate]. simpl.
  destruct (Z.eqb_spec (n mod denominator (scalar self)) 0) as [H0|]; [|discriminate].
  intros [= <-]. eauto.
Qed.

Lemma exact_div n d q : d <> 0 -> n = q * d -> n mod d = 0 /\ n / d = q.
Proof. intros Hd ->. split; [by apply Z.mod_mul|by apply Z.div_mul]. Qed.

(** Evaluation is multiplicative: where two size expressions have
    values, their product has the product of the values. *)
Theorem call_mul self other prod env x y :
  mul self other = Ok prod ->
  call self env = Ok x -> call other env = Ok y ->
  call prod env = Ok (x * y).
Proof.
  unfold mul. intros Hm Hx Hy.
  destruct (Fraction_mul _ _) as [f|] eqn:Hf; [|discriminate]. injection Hm as <-.
  apply mkFraction_ok in Hf as (HD & Hdf & g & Hg & HN & HDg).
  apply call_ok in Hx as (nx & Hsx & Hmx & ->).
  apply call_ok in Hy as (ny & Hsy & Hmy & ->).
  assert (denominator (scalar self) <> 0 /\ denominator (scalar other) <> 0)
    as [Hda Hdb] by lia.
  apply Z.mod_divide in Hmx as [qx Hqx]; [|exact Hda].
  apply Z.mod_divide in Hmy as [qy Hqy]; [|exact Hdb].
  rewrite Hqx, Hqy, !Z.div_mul by assumption.
  unfold call. simpl.
  apply scale_unit in Hsx as (P & HP & Hnx). apply scale_unit in Hsy as (Q & HQ & Hny).
  pose proof (scale_linear _ _ _ _ (numerator f) HP) as HfP.
  rewrite Z.mul_1_r in HfP. rewrite (scale_app _ _ _ _ _ HfP).
  pose proof (scale_linear _ _ _ _ (numerator f * P) HQ) as HfQ.
  rewrite Z.mul_1_r in HfQ. rewrite HfQ. simpl.
  assert (numerator f * P * Q = qx * qy * denominator f) as Heq.
  { apply (Z.mul_reg_r _ _ g Hg). simpl in HN, HDg.
    replace (numerator f * P * Q * g) with (numerator f * g * (P * Q)) by ring.
    replace (qx * qy * denominator f * g) with (qx * qy * (denominator f * g)) by ring.
    rewrite <- HN, <- HDg.
    assert (numerator (scalar self) * P = qx * denominator (scalar self)) as Ha
      by congruence.
    assert (numerator (scalar other) * Q = qy * denominator (scalar other)) as Hb
      by congruence.
    replace (numerator (scalar self) * numerator (scalar other) * (P * Q))
      with (numerator (scalar self) * P * (numerator (scalar other) * Q)) by ring.
    rewrite Ha, Hb. ring. }
  destruct (exact_div _ _ _ Hdf Heq) as [Hmod Hdiv].
  rewrite Hmod, Hdiv. reflexivity.
Qed.

(** Division of a size expression by a number is exact: where the
    size expression has the value [x], its quotient by [k] has the
    value [x / k] if [k] divides [x], and fails the assertion of
    [__call__] otherwise.  [//] is the same operation as [/]: it does
    not round. *)
Theorem call_truediv self k quo env x :
  size_truediv self k = Ok quo ->
  call self env = Ok x ->
  size_floordiv self k = Ok quo /\
  call quo env =
  if x mod k =? 0 then Ok (x / k) else Raise (AssertionError EmptyString).
Proof.
  unfold size_truediv, size_floordiv. intros Hq Hx.
  destruct (Fraction_div _ _) as [f|] eqn:Hf; [|discriminate]. injection Hq as <-.
  split; [reflexivity|].
  apply mkFraction_ok in Hf as (HD & Hdf & g & Hg & HN & HDg). simpl in HN, HDg.
  apply call_ok in Hx as (nx & Hsx & Hmx & ->).
  assert (denominator (scalar self) <> 0 /\ k <> 0) as [Hda Hk] by lia.
  apply Z.mod_divide in Hmx as [qx Hqx]; [|exact Hda].
  rewrite Hqx, Z.div_mul by assumption.
  apply scale_unit in Hsx as (P & HP & Hnx).
  pose proof (scale_linear _ _ _ _ (numerator f) HP) as HfP.
  rewrite Z.mul_1_r in HfP. unfold call. simpl. rewrite HfP. simpl.
  assert (numerator f * P * g = qx * denominator (scalar self)) as Hkey.
  { replace (numerator f * P * g) with (numerator f * g * P) by ring.
    rewrite <- HN, Z.mul_1_r. congruence. }
  destruct (Z.eqb_spec (qx mod k) 0) as [Hdiv|Hndiv].
  - apply Z.mod_divide in Hdiv as [z ->]; [|exact Hk].
    assert (numerator f * P = z * denominator f) as Heq.
    { apply (Z.mul_reg_r _ _ g Hg). rewrite Hkey.
      replace (z * denominator f * g) with (z * (denominator f * g)) by ring.
      rewrite <- HDg. ring. }
    destruct (exact_div _ _ _ Hdf Heq) as [Hmod Hdiv].
    rewrite Hmod, Hdiv, Z.div_mul by exact Hk. reflexivity.
  - destruct (Z.eqb_spec ((numerator f * P) mod denominator f) 0) as [H0|H0];
      [|reflexivity].
    exfalso. apply Hndiv. apply Z.mod_divide; [exact Hk|].
    apply Z.mod_divide in H0 as [z Hz]; [|exact Hdf].
    exists z. apply (Z.mul_reg_r _ _ (denominator (scalar self)) Hda).
    rewrite <- Hkey, Hz.
    replace (z * denominator f * g) with (z * (denominator f * g)) by ring.
    rewrite <- HDg. ring.
Qed.

End coll_size_facts.

Lemma call_mul_witness :
  CollAlgebra.call
    (CollAlgebra.mkCollSizeExpr (CollAlgebra.mkFraction_raw 1 4)
       [CollAlgebra.mkCollParam "blockDim" 1; CollAlgebra.mkCollParam "clusterDim" 2])
    {[ 1%positive := 256; 2%positive := 2 ]}
  = Ok (128 * 1).
Proof.
  apply (call_mul
           (CollAlgebra.mkCollSizeExpr (CollAlgebra.mkFraction_raw 1 2)
              [CollAlgebra.mkCollParam "blockDim" 1])
           (CollAlgebra.mkCollSizeExpr (CollAlgebra.mkFraction_raw 1 2)
              [CollAlgebra.mkCollParam "clusterDim" 2]));
    reflexivity.
Defined.

Lemma call_truediv_witness :
  CollAlgebra.size_floordiv
    (CollAlgebra.mkCollSizeExpr (CollAlgebra.mkFraction_raw 1 1)
       [CollAlgebra.mkCollParam "blockDim" 1]) 3
  = Ok (CollAlgebra.mkCollSizeExpr (CollAlgebra.mkFraction_raw 1 3)
          [CollAlgebra.mkCollParam "blockDim" 1]) /\
  CollAlgebra.call
    (CollAlgebra.mkCollSizeExpr (CollAlgebra.mkFraction_raw 1 3)
       [CollAlgebra.mkCollParam "blockDim" 1])
    {[ 1%positive := 256 ]}
  = (if 256 mod 3 =? 0 then Ok (256 / 3) else Raise (AssertionError EmptyString)).
Proof.
  apply (call_truediv
           (CollAlgebra.mkCollSizeExpr (CollAlgebra.mkFraction_raw 1 1)
              [CollAlgebra.mkCollParam "blockDim" 1]) 3);
    reflexivity.
Defined.

(** ** The names of the pretty-printer *)

Section pprint_facts.
Variable repr : Sym -> string.

Lemma chain_lookup_new_child `{Countable K} {V} (k : K) (c : list (gmap K V)) :
  chain_lookup k (new_child c) = chain_lookup k c.
Proof. unfold new_child. simpl. by rewrite lookup_empty. Qed.

(** The names of the printer are kept under the text of a symbol, not
    under the symbol.  Right after [new_name] answered [s] for [nm],
    [get_name] answers [s] for [nm] and for every symbol of the same
    text, and answers as before for every other symbol: a symbol of
    that text that was introduced earlier is printed under the new
    name from then on, and the new name is not its old one.  A text
    that was not bound is answered as it is.  A name introduced in a
    scope is forgotten when the scope is closed. *)
Theorem new_name_get_name nm env s env' :
  PPrint.new_name nm env = Ok (s, env') ->
  (forall other,
     PPrint.get_name repr other env' =
     if String.eqb (sym_name other) (sym_name nm) then s
     else PPrint.get_name repr other env) /\
  (forall s0, chain_lookup (sym_name nm) env = Some s0 -> s <> s0) /\
  (chain_lookup (sym_name nm) env = None -> s = sym_name nm) /\
  (forall nm2 env2 s2 env2' other,
     env2 <> [] ->
     PPrint.new_name nm2 (PPrint.push env2) = Ok (s2, env2') ->
     PPrint.get_name repr other (PPrint.pop env2') = PPrint.get_name repr other env2).
Proof.
  intros H.
  assert (env' = chain_set (sym_name nm) s env /\
          match chain_lookup (sym_name nm) env with
          | Some s0 => bump_name s0 = Ok s
          | None => s = sym_name nm
          end) as [-> Hs].
  { unfold PPrint.new_name in H.
    destruct (chain_lookup (sym_name nm) env) as [s0|].
    - destruct (bump_name s0) as [s1|]; [|discriminate]. simpl in H.
      by injection H as <- <-.
    - by injection H as <- <-. }
  split; [|split; [|split]].
  - intros other. unfold PPrint.get_name.
    destruct (String.eqb_spec (sym_name other) (sym_name nm)) as [->|Hne].
    + by rewrite chain_lookup_set.
    + by rewrite chain_lookup_set_ne by congruence.
  - intros s0 Hl ->. rewrite Hl in Hs.
    apply bump_name_rank in Hs. by apply rank_lt_irrefl in Hs.
  - intros Hl. by rewrite Hl in Hs.
  - intros nm2 env2 s2 env2' other Hne H2.
    assert (env2' = chain_set (sym_name nm2) s2 (PPrint.push env2)) as ->.
    { unfold PPrint.new_name in H2.
      destruct (chain_lookup (sym_name nm2) (PPrint.push env2)) as [s0|].
      - destruct (bump_name s0) as [s1|]; [|discriminate]. simpl in H2.
        by injection H2 as <- <-.
      - by injection H2 as <- <-. }
    unfold PPrint.push, PPrint.pop, new_child. simpl.
    destruct env2 as [|m env2]; [done|]. reflexivity.
Qed.

Lemma bump_name_fresh_counter x :
  existsb (Ascii.eqb LF) (list_ascii_of_string x) = false ->
  match_suffix x = None ->
  bump_name x = Ok (x +:+ "_" +:+ pretty (Z.of_nat 1)).
Proof. intros _ Hm. unfold bump_name. by rewrite Hm. Qed.

Lemma bump_name_counter x (k : nat) :
  existsb (Ascii.eqb LF) (list_ascii_of_string x) = false ->
  bump_name (x +:+ "_" +:+ pretty (Z.of_nat k))
  = Ok (x +:+ "_" +:+ pretty (Z.of_nat (S k))).
Proof.
  intros Hlf. unfold bump_name. rewrite match_suffix_counter.
  - rewrite int_of_digits_pretty by lia.
    replace (Z.of_nat (S k)) with (Z.of_nat k + 1) by lia. reflexivity.
  - exact Hlf.
  - rewrite pretty_Z_nonneg by lia. apply pretty_N_digits.
  - rewrite pretty_Z_nonneg by lia. apply pretty_N_nonempty.
Qed.

Lemma new_names_counted_from x (syms : list Sym) (k : nat) env :
  existsb (Ascii.eqb LF) (list_ascii_of_string x) = false ->
  Forall (fun nm => sym_name nm = x) syms ->
  chain_lookup x env = Some (x +:+ "_" +:+ pretty (Z.of_nat k)) ->
  exists env',
    PPrint.new_names syms env
    = Ok (map (fun i => x +:+ "_" +:+ pretty (Z.of_nat i)) (seq (S k) (length syms)),
          env').
Proof.
  intros Hlf Hall. revert k env.
  induction Hall as [|nm syms Hnm Hall IH]; intros k env Hl.
  - eexists. reflexivity.
  - simpl. unfold PPrint.new_name at 1. rewrite Hnm, Hl.
    rewrite bump_name_counter by exact Hlf. simpl.
    destruct (IH (S k) (chain_set x (x +:+ "_" +:+ pretty (Z.of_nat (S k))) env))
      as [env' ->]; [apply chain_lookup_set|].
    simpl. eexists. reflexivity.
Qed.

(** Symbols of one name, introduced one after the other in one scope,
    are printed [x], [x_1], [x_2], and so on, for a name [x] that is
    new, holds no line feed and does not end in an underscore and
    digits. *)
Theorem new_names_counted x (nm : Sym) (syms : list Sym) env :
  existsb (Ascii.eqb LF) (list_ascii_of_string x) = false ->
  match_suffix x = None ->
  Forall (fun nm => sym_name nm = x) (nm :: syms) ->
  chain_lookup x env = None ->
  exists env',
    PPrint.new_names (nm :: syms) env = Ok (x :: PPrint.counted x (length syms), env').
Proof.
  intros Hlf Hm Hall Hl. inversion Hall as [|? ? Hnm Hsyms]; subst.
  simpl. unfold PPrint.new_name at 1. rewrite Hl. simpl.
  destruct syms as [|nm2 syms].
  - eexists. reflexivity.
  - inversion Hsyms as [|? ? Hnm2 Hsyms']; subst.
    simpl. unfold PPrint.new_name at 1. rewrite Hnm2, chain_lookup_set.
    rewrite bump_name_fresh_counter by assumption. simpl.
    destruct (new_names_counted_from (sym_name nm) syms 1
                (chain_set (sym_name nm) (sym_name nm +:+ "_" +:+ pretty (Z.of_nat 1))
                   (chain_set (sym_name nm) (sym_name nm) env)))
      as [env' Henv']; [exact Hlf|exact Hsyms'|apply chain_lookup_set|].
    rewrite Henv'. simpl. eexists. reflexivity.
Qed.

End pprint_facts.

Lemma new_name_get_name_witness :
  PPrint.get_name (fun nm => sym_name nm) Examples.sym_x
    (chain_set "x" "x_1" (chain_set "x" "x" PPrint.new_Environment)) = "x_1" /\
  "x_1" <> "x".
Proof.
  assert (PPrint.new_name (mkSym "x" 5) (chain_set "x" "x" PPrint.new_Environment)
          = Ok ("x_1", chain_set "x" "x_1" (chain_set "x" "x" PPrint.new_Environment)))
    as H by reflexivity.
  destruct (new_name_get_name (fun nm => sym_name nm) (mkSym "x" 5)
              (chain_set "x" "x" PPrint.new_Environment) "x_1"
              (chain_set "x" "x_1" (chain_set "x" "x" PPrint.new_Environment)) H)
    as (Hget & Hne & _).
  split; [exact (Hget Examples.sym_x)|exact (Hne "x" eq_refl)].
Defined.

Lemma new_names_counted_witness :
  exists env',
    PPrint.new_names [Examples.sym_x; mkSym "x" 5; mkSym "x" 6] PPrint.new_Environment
    = Ok ("x" :: PPrint.counted "x" 2, env').
Proof.
  apply (new_names_counted "x" Examples.sym_x [mkSym "x" 5; mkSym "x" 6]
           PPrint.new_Environment); try reflexivity.
  repeat constructor.
Defined.

(** ** Fresh names: where the policy fails *)

(** C5.  The printer gives one name to two symbols.  Of three symbols
    introduced in turn in one scope, two of the name [x] and one of
    the name [x_1], the second is renamed to [x_1]; the name [x_1] is
    recorded under [x] only, so the third finds [x_1] free and keeps
    it.  The compiler records every name it gives, and its loop runs
    until the name is free; but a second symbol of a name that ends
    in an underscore, [x_], stops it: the counter after the underscore
    is empty and [int] refuses it. *)
Theorem fresh_name_failures :
  fst <$> PPrint.new_names Examples.syms_x_x_x1 PPrint.new_Environment
  = Ok ["x"; "x_1"; "x_1"] /\
  fst <$> new_varname Examples.sym_u1 None None (Examples.new_compiler tt)
  = Ok "x_" /\
  new_varname Examples.sym_u2 None None
    (Examples.exec (new_varname Examples.sym_u1 None None) (Examples.new_compiler tt))
  = Raise (ValueError int_empty_msg).
Proof. split; [|split]; vm_compute; reflexivity. Qed.

(** ** sanitize_str *)

Lemma is_word_char_ascii c : is_word_char c = true -> is_ascii_char c = true.
Proof.
  unfold is_word_char, is_ascii_char. intros H.
  apply Nat.ltb_lt.
  repeat (apply orb_prop in H as [H|H]);
    try (apply andb_prop in H as [H1 H2]; apply Nat.leb_le in H1, H2; lia).
  apply Nat.eqb_eq in H. lia.
Qed.

(** On an ASCII text, [sanitize_str] answers with a text of the same
    length in which every position holds the character of the input
    when that is a word character and an underscore otherwise; so the
    answer is made of word characters only, a text of word characters
    is returned as it is, and sanitizing twice is sanitizing once. *)
Theorem sanitize_str_word (s : string) :
  all_ascii s = true ->
  exists r,
    sanitize_str s = Some r /\
    String.length r = String.length s /\
    (forall i c, String.get i s = Some c ->
       String.get i r = Some (if is_word_char c then c else underscore)) /\
    all_word r = true /\
    sanitize_str r = Some r /\
    (all_word s = true -> r = s).
Proof.
  induction s as [|c s IH]; intros Ha.
  - exists EmptyString. repeat split. intros i c0 H. destruct i; discriminate.
  - simpl in Ha. apply andb_prop in Ha as [Hc Ha].
    destruct (IH Ha) as (r & Hr & Hlen & Hpos & Hw & Hidem & Hsame).
    simpl. rewrite Hc, Hr. simpl.
    exists (String (if is_word_char c then c else underscore) r).
    split; [reflexivity|]. split; [simpl; congruence|]. split.
    { intros [|i] c0 H; simpl in H |- *.
      - by injection H as <-.
      - by apply Hpos. }
    destruct (is_word_char c) eqn:Hwc.
    + split; [simpl; by rewrite Hwc|]. split.
      * simpl. rewrite Hc, Hidem. simpl. by rewrite Hwc.
      * simpl. intros H. f_equal. by apply Hsame.
    + split; [exact Hw|]. split.
      * simpl. by rewrite Hidem.
      * simpl. discriminate.
Qed.

Lemma sanitize_str_word_witness :
  sanitize_str "exo-lib.h" = Some "exo_lib_h" /\
  String.length "exo_lib_h" = String.length "exo-lib.h" /\
  (forall i c, String.get i "exo-lib.h" = Some c ->
     String.get i "exo_lib_h" = Some (if is_word_char c then c else underscore)) /\
  all_word "exo_lib_h" = true /\
  sanitize_str "exo_lib_h" = Some "exo_lib_h".
Proof.
  destruct (sanitize_str_word "exo-lib.h" eq_refl)
    as (r & Hr & Hlen & Hpos & Hw & Hidem & _).
  assert (r = "exo_lib_h") as -> by (injection Hr as <-; reflexivity).
  repeat split; assumption.
Defined.

(** ** Nesting of loop modes *)

Section loop_mode_facts.
Import LoopModes.

(** Nesting of CUDA loop modes is a strict order: no mode nests in
    itself, nesting is transitive, and two modes never nest in each
    other.  The question is refused for a mode outside the CUDA model
    ([seq], [par]), in which nothing nests either.  Of the five CUDA
    modes, each nests exactly in those before it in the order clusters,
    blocks, warpgroups, warps, threads. *)
Theorem cuda_can_nest_in_order (a b c : LoopMode) :
  cuda_can_nest_in a a <> Ok true /\
  (cuda_can_nest_in a b = Ok true -> cuda_can_nest_in b c = Ok true ->
   cuda_can_nest_in a c = Ok true) /\
  (cuda_can_nest_in a b = Ok true -> cuda_can_nest_in b a = Ok false) /\
  (cuda_nesting a = None <-> cuda_can_nest_in a b = Raise (AssertionError EmptyString)) /\
  (cuda_nesting b = None -> cuda_can_nest_in a b <> Ok true) /\
  (forall blocks warps (i j : nat) x y,
     cuda_modes blocks warps !! i = Some x ->
     cuda_modes blocks warps !! j = Some y ->
     cuda_can_nest_in x y = Ok (bool_decide (j < i)%nat)).
Proof.
  unfold cuda_can_nest_in.
  split; [|split; [|split; [|split; [|split]]]].
  - destruct (cuda_nesting a) as [x|]; [|discriminate].
    intros [= H]. lia.
  - destruct (cuda_nesting a) as [x|]; [|discriminate].
    destruct (cuda_nesting b) as [y|]; [|discriminate].
    destruct (cuda_nesting c) as [z|]; [|discriminate].
    intros [= H1] [= H2]. f_equal. lia.
  - destruct (cuda_nesting a) as [x|]; [|discriminate].
    destruct (cuda_nesting b) as [y|]; [|discriminate].
    intros [= H1]. f_equal. lia.
  - destruct (cuda_nesting a) as [x|]; split; try discriminate; reflexivity.
  - intros ->. destruct (cuda_nesting a); discriminate.
  - intros blocks warps i j x y Hi Hj.
    destruct i as [|[|[|[|[|i]]]]]; simpl in Hi; try discriminate Hi;
      destruct j as [|[|[|[|[|j]]]]]; simpl in Hj; try discriminate Hj;
      injection Hi as <-; injection Hj as <-; reflexivity.
Qed.

End loop_mode_facts.

(** ** The entry points *)

Section sorted_facts.
Context {A : Type} (key : A -> string).

Lemma insert_by_Permutation (x : A) (l : list A) : insert_by key x l ≡ₚ x :: l.
Proof.
  induction l as [|y l IH]; simpl; [reflexivity|].
  destruct (String.ltb (key x) (key y)); [reflexivity|].
  rewrite IH. apply Permutation_swap.
Qed.

Lemma sorted_by_Permutation (l : list A) : sorted_by key l ≡ₚ l.
Proof.
  unfold sorted_by.
  assert (forall acc, fold_left (fun acc x => insert_by key x acc) l acc ≡ₚ acc ++ l) as H.
  { induction l as [|x l IH]; intros acc; simpl.
    - by rewrite app_nil_r.
    - rewrite IH, insert_by_Permutation. by rewrite <- Permutation_middle. }
  apply (H []).
Qed.

End sorted_facts.

Section context_struct_facts.

Lemma context_lines_spec configs : forall seen ctxt_def,
  match context_lines configs seen ctxt_def with
  | Ok def =>
      NoDup (map config_name configs) /\
      (forall c, c ∈ configs -> config_name c ∉ seen) /\
      exists more, def = ctxt_def ++ more
  | Raise (TypeError _) =>
      ~ (NoDup (map config_name configs) /\
         forall c, c ∈ configs -> config_name c ∉ seen)
  | Raise _ => False
  end.
Proof.
  induction configs as [|c configs IH]; intros seen ctxt_def; simpl.
  - split; [constructor|]. split; [by intros c ?%elem_of_nil|].
    exists []. by rewrite app_nil_r.
  - case_bool_decide as Hseen.
    + intros [_ H]. apply (H c); [by left|exact Hseen].
    + match goal with
      | |- context [context_lines configs ?s ?d] =>
          specialize (IH s d); destruct (context_lines configs s d) as [def|e]
      end.
      * destruct IH as (Hnd & Hfresh & more & ->). split; [|split].
        -- constructor; [|exact Hnd]. intros Hin.
           apply list_elem_of_fmap in Hin as (c' & Heq & Hc').
           apply (Hfresh c' Hc'). rewrite <- Heq. set_solver.
        -- intros c' [->|Hc']%elem_of_cons; [exact Hseen|].
           specialize (Hfresh c' Hc'). set_solver.
        -- destruct (is_allow_rw c); rewrite <- !app_assoc; eauto.
      * destruct e; try exact IH. intros [Hnd Hfresh]. apply IH.
        inversion Hnd as [|? ? Hnotin Hnd']; subst. split; [exact Hnd'|].
        intros c' Hc'. apply not_elem_of_union. split.
        -- intros Heq%elem_of_singleton. apply Hnotin.
           apply list_elem_of_fmap. eauto.
        -- apply Hfresh. by right.
Qed.

(** The context struct.  Without configs the context is [void] and
    has no lines.  With configs, the struct is named after the
    library, its lines open with the [typedef] and close with the name,
    and the configs have pairwise different names; configs that share a
    name are the one error, a [TypeError]. *)
Theorem compile_context_struct_spec configs lib_name :
  match _compile_context_struct configs lib_name with
  | Ok (n, def) =>
      NoDup (map config_name configs) /\
      (configs = [] -> n = "void" /\ def = []) /\
      (configs <> [] ->
         n = lib_name +:+ "_Context" /\
         head def = Some ("typedef struct " +:+ n +:+ " { ") /\
         last def = Some ("} " +:+ n +:+ ";"))
  | Raise (TypeError _) => ~ NoDup (map config_name configs)
  | Raise _ => False
  end.
Proof.
  unfold _compile_context_struct. destruct configs as [|c configs].
  - split; [constructor|]. split; [done|]. intros H. by destruct H.
  - set (cs := c :: configs).
    pose proof (context_lines_spec (sorted_by config_name cs) ∅
                  ["typedef struct " +:+ (lib_name +:+ "_Context") +:+ " { ";
                   EmptyString]) as H.
    assert (map config_name (sorted_by config_name cs) ≡ₚ map config_name cs) as Hperm
      by (apply fmap_Permutation, sorted_by_Permutation).
    destruct (context_lines _ _ _) as [def|e]; simpl.
    + destruct H as (Hnd & _ & more & ->).
      split; [rewrite Hperm in Hnd; exact Hnd|]. split; [discriminate|].
      intros _. split; [reflexivity|]. split; [reflexivity|].
      by rewrite last_snoc.
    + destruct e; try exact H. intros Hnd. apply H.
      split; [rewrite Hperm; exact Hnd|]. intros c' _. apply not_elem_of_empty.
Qed.

End context_struct_facts.

Section library_facts.
Import LoopIR.
Variable set_order : gset proc_ref -> list proc_ref.
Variable helper_order : gset string -> list string.
Variable struct_order : gset WindowStruct -> list WindowStruct.
Variable h : heap.
Variable find_all_configs : list proc -> list Config.
Variable memory_code_of : list proc -> list string.
Variable extern_code_of : list proc -> list string.
Variable compile_proc : string -> proc -> bool -> result (proc * CompOut).

Abbreviation lib_step' := (lib_step compile_proc).
Abbreviation lib_loop' := (lib_loop compile_proc).

Lemma lib_step_ok ctxt orig st r p st' :
  lib_step' ctxt orig st (r, p) = Ok st' ->
  (name p ∉ seen_procs st) /\
  seen_procs st' = {[ name p ]} ∪ seen_procs st /\
  match instr p with
  | Some _ => comp st' = comp st
  | None =>
      exists p' c,
        compile_proc ctxt p (bool_decide (r ∈ orig)) = Ok (p', c) /\
        comp st' = Some c
  end.
Proof.
  unfold lib_step. case_bool_decide as Hseen; [discriminate|].
  destruct (instr p) as [i|].
  - intros [= <-]. auto.
  - destruct (compile_proc ctxt p _) as [[p' c]|] eqn:Hc; [|discriminate].
    simpl. intros [= <-]. simpl. eauto 10.
Qed.

(** The loop over the procedures answers only if their names are
    pairwise different and new; then [comp] is what the compiler left
    for the last procedure that is not an instruction, if there is
    one, and is as before otherwise. *)
Lemma lib_loop_ok ctxt orig procs : forall st st',
  lib_loop' ctxt orig procs st = Ok st' ->
  NoDup (map (fun rp => name rp.2) procs) /\
  (forall rp, rp ∈ procs -> name rp.2 ∉ seen_procs st) /\
  ((Forall (fun rp => instr rp.2 <> None) procs /\ comp st' = comp st) \/
   exists pre r p post p' c,
     procs = pre ++ (r, p) :: post /\
     instr p = None /\
     Forall (fun rp => instr rp.2 <> None) post /\
     compile_proc ctxt p (bool_decide (r ∈ orig)) = Ok (p', c) /\
     comp st' = Some c).
Proof.
  induction procs as [|[r p] procs IH]; intros st st' H; cbn [lib_loop] in H.
  - injection H as <-. split; [constructor|]. split; [by intros ? ?%elem_of_nil|].
    left. split; [constructor|reflexivity].
  - destruct (lib_step' ctxt orig st (r, p)) as [st1|] eqn:Hstep; [|discriminate].
    cbn [mbind result_bind] in H. apply lib_step_ok in Hstep as (Hnew & Hseen & Hcomp).
    destruct (IH _ _ H) as (Hnd & Hfresh & Hlast). split; [|split].
    + simpl. constructor; [|exact Hnd]. intros Hin.
      apply list_elem_of_fmap in Hin as (rp & Heq & Hrp).
      apply (Hfresh rp Hrp). rewrite Hseen, <- Heq. set_solver.
    + intros rp [->|Hrp]%elem_of_cons; [exact Hnew|].
      specialize (Hfresh rp Hrp). rewrite Hseen in Hfresh. set_solver.
    + destruct Hlast as [[Hall Heq]|(pre & r0 & p0 & post & p' & c & -> & Hi & Hpost & Hc & Hs)].
      * destruct (instr p) as [i|] eqn:Hi.
        -- left. split; [|congruence]. constructor; [simpl; congruence|exact Hall].
        -- right. destruct Hcomp as (p' & c & Hc & Hs).
           exists [], r, p, procs, p', c. repeat split; try assumption. congruence.
      * right. exists ((r, p) :: pre), r0, p0, post, p', c. repeat split; assumption.
Qed.

Abbreviation ext_compile_to_strings' :=
  (ext_compile_to_strings set_order helper_order struct_order h find_all_configs
     memory_code_of extern_code_of compile_proc).

Lemma ext_compile_to_strings_ok lib_name proc_list r :
  ext_compile_to_strings' lib_name proc_list = Ok r ->
  exists subprocs objs ctxt_name ctxt_def st,
    find_all_subprocs set_order h proc_list = Ok subprocs /\
    mapR (fun r => p ← callee h r; Ok (r, p)) subprocs = Ok objs /\
    _compile_context_struct
      (find_all_configs (map snd (sorted_by (fun rp => name rp.2) objs))) lib_name
    = Ok (ctxt_name, ctxt_def) /\
    lib_loop' ctxt_name proc_list (sorted_by (fun rp => name rp.2) objs) lib_init
    = Ok st /\
    exists c, comp st = Some c /\ r.2 = out_ext_lines c.
Proof.
  unfold ext_compile_to_strings. intros H.
  destruct (find_all_subprocs set_order h proc_list) as [subprocs|]; [|discriminate].
  cbn [mbind result_bind] in H.
  destruct (mapR _ subprocs) as [objs|] eqn:Hobjs; [|discriminate].
  cbn [mbind result_bind] in H.
  destruct (_compile_context_struct _ lib_name) as [[ctxt_name ctxt_def]|] eqn:Hctx;
    [|discriminate].
  cbn [mbind result_bind] in H.
  destruct (lib_loop' ctxt_name proc_list _ lib_init) as [st|] eqn:Hloop;
    [|discriminate].
  cbn [mbind result_bind] in H.
  destruct (helper_code helper_order (lib_needed_helpers st)); [|discriminate].
  cbn [mbind result_bind] in H.
  destruct (comp st) as [c|] eqn:Hc; [|discriminate].
  injection H as <-.
  exists subprocs, objs, ctxt_name, ctxt_def, st.
  split; [reflexivity|]. split; [exact Hobjs|]. split; [exact Hctx|].
  split; [exact Hloop|]. exists c. split; [exact Hc|reflexivity].
Qed.

(** A library is compiled only if the procedures it reaches have
    pairwise different names: otherwise [ext_compile_to_strings]
    raises (a [TypeError], unless another error comes first). *)
Theorem ext_compile_to_strings_names lib_name proc_list r :
  ext_compile_to_strings' lib_name proc_list = Ok r ->
  exists subprocs objs,
    find_all_subprocs set_order h proc_list = Ok subprocs /\
    Forall2 (fun r rp => rp.1 = r /\ h !! r = Some rp.2) subprocs objs /\
    NoDup (map (fun rp => name rp.2) objs).
Proof.
  intros H.
  apply ext_compile_to_strings_ok in H
    as (subprocs & objs & ctxt_name & ctxt_def & st & Hsub & Hobjs & _ & Hloop & _).
  exists subprocs, objs. split; [exact Hsub|]. split.
  - clear -Hobjs. revert objs Hobjs.
    induction subprocs as [|r subprocs IH]; intros objs H; cbn [mapR] in H.
    + injection H as <-. constructor.
    + apply bind_ok_inv in H as ([r' p] & Hrp & H).
      apply bind_ok_inv in Hrp as (p0 & Hp & Hrp). injection Hrp as <- <-.
      unfold callee in Hp. destruct (h !! r) as [p1|] eqn:Hh; [|discriminate].
      injection Hp as <-.
      apply bind_ok_inv in H as (objs' & Hobjs' & H). injection H as <-.
      constructor; [by split|by apply IH].
  - apply lib_loop_ok in Hloop as (Hnd & _).
    pose proof (sorted_by_Permutation (fun rp : proc_ref * proc => name rp.2) objs)
      as Hperm.
    apply (fmap_Permutation (fun rp : proc_ref * proc => name rp.2)) in Hperm.
    by rewrite <- Hperm.
Qed.

(** The objects of the procedures that were reached, read off the
    heap one by one. *)
Lemma callee_objs subprocs objs :
  mapR (fun r => p ← callee h r; Ok (r, p)) subprocs = Ok objs ->
  Forall2 (fun r rp => rp.1 = r /\ h !! r = Some rp.2) subprocs objs.
Proof.
  revert objs. induction subprocs as [|r subprocs IH]; intros objs H; cbn [mapR] in H.
  - injection H as <-. constructor.
  - apply bind_ok_inv in H as ([r' p] & Hrp & H).
    apply bind_ok_inv in Hrp as (p0 & Hp & Hrp). injection Hrp as <- <-.
    unfold callee in Hp. destruct (h !! r) as [p1|] eqn:Hh; [|discriminate].
    injection Hp as <-.
    apply bind_ok_inv in H as (objs' & Hobjs' & H). injection H as <-.
    constructor; [by split|by apply IH].
Qed.

(** The lines for the other files that [ext_compile_to_strings]
    returns are those that the compiler left for one procedure: among
    the procedures reached from the list, taken from the heap and put
    in the order of their names, the last that is not an instruction,
    compiled with the name of the context struct of the library.  So
    the function answers only if there is such a procedure (the
    variable [comp] is not bound otherwise), and the lines left for
    every other procedure are not returned. *)
Theorem ext_compile_to_strings_ext_lines lib_name proc_list r :
  ext_compile_to_strings' lib_name proc_list = Ok r ->
  exists subprocs objs ctxt_name ctxt_def pre rf p post p' c,
    find_all_subprocs set_order h proc_list = Ok subprocs /\
    Forall2 (fun r rp => rp.1 = r /\ h !! r = Some rp.2) subprocs objs /\
    _compile_context_struct
      (find_all_configs (map snd (sorted_by (fun rp => name rp.2) objs))) lib_name
    = Ok (ctxt_name, ctxt_def) /\
    sorted_by (fun rp => name rp.2) objs = pre ++ (rf, p) :: post /\
    instr p = None /\
    Forall (fun rp => instr rp.2 <> None) post /\
    compile_proc ctxt_name p (bool_decide (rf ∈ proc_list)) = Ok (p', c) /\
    r.2 = out_ext_lines c.
Proof.
  intros H.
  apply ext_compile_to_strings_ok in H
    as (subprocs & objs & ctxt_name & ctxt_def & st & Hsub & Hobjs & Hctx & Hloop
        & c & Hc & Hr).
  apply lib_loop_ok in Hloop as (_ & _ & Hlast).
  destruct Hlast as [[_ Heq]|(pre & rf & p & post & p' & c' & Hs & Hi & Hpost & Hcp & Hs')].
  - rewrite Hc in Heq. discriminate.
  - exists subprocs, objs, ctxt_name, ctxt_def, pre, rf, p, post, p', c'.
    split; [exact Hsub|]. split; [by apply callee_objs|]. split; [exact Hctx|].
    repeat split; try assumption. congruence.
Qed.

End library_facts.

Section run_compile_facts.
Variable ext_compile :
  string -> list LoopIR.proc_ref ->
  result (string * string * list (string * list string)).

(** An extension that [run_compile] does not know is never refused.
    If it comes first among the extensions, the variable [text] is read
    before it is bound, which is a [NameError]; if it comes after
    [cuh], the file of that extension gets the text of the [cuh]
    file. *)
Theorem run_compile_unknown_extension lib_name proc_list file_stem fwd body k lines :
  k <> "c" -> k <> "h" -> k <> "cuh" -> k <> "cu" ->
  (forall rest,
     ext_compile lib_name proc_list = Ok (fwd, body, (k, lines) :: rest) ->
     run_compile_as ext_compile lib_name proc_list file_stem
     = Raise (NameError "text")) /\
  (forall l1,
     ext_compile lib_name proc_list = Ok (fwd, body, [("cuh", l1); (k, lines)]) ->
     exists snippets t,
       run_compile_as ext_compile lib_name proc_list file_stem = Ok snippets /\
       snippets !! "cuh" = Some t /\ snippets !! k = Some t).
Proof.
  intros Hc Hh Hcuh Hcu.
  assert (String.eqb k "c" = false /\ String.eqb k "h" = false /\
          String.eqb k "cuh" = false /\ String.eqb k "cu" = false)
    as (Ec & Eh & Ecuh & Ecu) by (rewrite !String.eqb_neq; auto).
  split.
  - intros rest H. unfold run_compile_as. rewrite H.
    cbn [mbind result_bind gather]. rewrite Ec, Eh, Ecuh, Ecu. reflexivity.
  - intros l1 H. unfold run_compile_as. rewrite H.
    cbn [mbind result_bind gather]. rewrite Ec, Eh, Ecuh, Ecu.
    change (String.eqb "cuh" "c" || String.eqb "cuh" "h") with false.
    change (String.eqb "cuh" "cuh") with true. cbv iota.
    eexists _, _. split; [reflexivity|]. split.
    + rewrite lookup_insert_ne by (by apply not_eq_sym). apply lookup_insert_eq.
    + apply lookup_insert_eq.
Qed.

End run_compile_facts.

Lemma library_compiles :
  ext_compile_to_strings elements elements elements Examples.caller_heap
    (fun _ => []) (fun _ => []) (fun _ => []) Examples.compile_stub "lib" [1%positive]
  = Ok Examples.library_out.
Proof. vm_compute. reflexivity. Qed.

Lemma ext_compile_to_strings_names_witness :
  exists subprocs objs,
    find_all_subprocs elements Examples.caller_heap [1%positive] = Ok subprocs /\
    Forall2 (fun r rp => rp.1 = r /\ Examples.caller_heap !! r = Some rp.2)
            subprocs objs /\
    NoDup (map (fun rp => LoopIR.name rp.2) objs).
Proof.
  exact (ext_compile_to_strings_names elements elements elements Examples.caller_heap
           (fun _ => []) (fun _ => []) (fun _ => []) Examples.compile_stub
           "lib" [1%positive] Examples.library_out library_compiles).
Defined.

Lemma ext_compile_to_strings_ext_lines_witness :
  exists subprocs objs ctxt_name ctxt_def pre rf p post p' c,
    find_all_subprocs elements Examples.caller_heap [1%positive] = Ok subprocs /\
    Forall2 (fun r rp => rp.1 = r /\ Examples.caller_heap !! r = Some rp.2)
            subprocs objs /\
    _compile_context_struct
      ((fun _ => []) (map snd (sorted_by (fun rp => LoopIR.name rp.2) objs))) "lib"
    = Ok (ctxt_name, ctxt_def) /\
    sorted_by (fun rp => LoopIR.name rp.2) objs = pre ++ (rf, p) :: post /\
    LoopIR.instr p = None /\
    Forall (fun rp => LoopIR.instr rp.2 <> None) post /\
    Examples.compile_stub ctxt_name p (bool_decide (rf ∈ [1%positive])) = Ok (p', c) /\
    Examples.library_out.2 = out_ext_lines c.
Proof.
  exact (ext_compile_to_strings_ext_lines elements elements elements
           Examples.caller_heap (fun _ => []) (fun _ => []) (fun _ => [])
           Examples.compile_stub "lib" [1%positive] Examples.library_out
           library_compiles).
Defined.

Lemma run_compile_unknown_extension_witness :
  run_compile_as Examples.ext_compile_ptx "lib" [1%positive] "lib"
  = Raise (NameError "text").
Proof.
  assert ("ptx" <> "c" /\ "ptx" <> "h" /\ "ptx" <> "cuh" /\ "ptx" <> "cu")
    as (H1 & H2 & H3 & H4) by (repeat split; discriminate).
  exact (proj1 (run_compile_unknown_extension Examples.ext_compile_ptx
                  "lib" [1%positive] "lib" "void f();" "void f() {}" "ptx" ["// f"]
                  H1 H2 H3 H4) [] eq_refl).
Defined.
